(** * embxx: static queue and message-ID protocol layer

    A shallow embedding of two components of the embxx library:

    - [embxx/container/StaticQueue.h]: the fixed-capacity circular queue
      [BasicStaticQueue] with its two overflow behaviours;
    - [embxx/comms/protocol/MsgIdLayer.h]: the protocol layer that reads and
      writes the message-ID field, looks the ID up in a sorted registry of
      factories and allocates the message object.

    [GASSERT] is modelled as in a release build (it expands to nothing); the
    conditions it checks appear as hypotheses of the theorems that need
    them.  [std::size_t] values are natural numbers: every index computed
    below is bounded by twice the capacity of the container. *)

From Stdlib Require Import ZArith Lia.
From stdpp Require Import base list numbers sorting.

Open Scope nat_scope.

(* ===================================================================== *)
(** * Part I. embxx/container/StaticQueue.h                               *)
(* ===================================================================== *)

Module StaticQueue.

(** [static_queue_traits::IgnoreError] and [static_queue_traits::Overwrite]:
    the tag classes selecting the overload of [pushBack]/[pushFront]. *)
Inductive OverflowBehaviour : Type :=
| IgnoreError
| Overwrite.

Section BasicStaticQueueBase.

Context {T : Type}.

(** The template parameter [TSize]. *)
Variable TSize : nat.

(** The data members of [BasicStaticQueueBase].  A cell of [array_] is raw
    storage: [None] when no object lives in it, [Some v] once an object
    has been constructed there by placement new. *)
Record Queue : Type := mkQueue {
  array_ : list (option T);
  startIdx_ : nat;
  count_ : nat
}.

(** The default constructor: [startIdx_(0), count_(0)] over raw storage. *)
Definition emptyQueue : Queue :=
  {| array_ := replicate TSize None; startIdx_ := 0; count_ := 0 |}.

Definition size (q : Queue) : nat := count_ q.

Definition capacity : nat := TSize.

Definition isEmpty (q : Queue) : bool := count_ q =? 0.

(** [return (count_ >= capacity());] *)
Definition isFull (q : Queue) : bool := capacity <=? count_ q.

(** The loop of [operator[]]:
    [while (capacity() <= rawIdx) { rawIdx = rawIdx - capacity(); }].
    With a positive capacity [fuel = rawIdx] iterations always suffice
    (see [wrap_loop_mod]); with capacity 0 the loop of the source never
    ends and the value returned here is meaningless. *)
Fixpoint wrap_loop (fuel rawIdx : nat) : nat :=
  match fuel with
  | 0 => rawIdx
  | S fuel' =>
      if capacity <=? rawIdx then wrap_loop fuel' (rawIdx - capacity)
      else rawIdx
  end.

(** [operator[]] up to the address computation: the index of the cell of
    [array_] that [operator[](index)] refers to.  The sum [rawIdx] is taken
    in [nat]; it is the sum the source takes in [std::size_t] as long as
    that one does not wrap around, which is the case for every index below
    the capacity (an array of more than half the range of [std::size_t]
    cells cannot be declared). *)
Definition cellIndex (q : Queue) (index : nat) : nat :=
  let rawIdx := startIdx_ q + index in
  wrap_loop rawIdx rawIdx.

(** The object [operator[](index)] refers to, if one lives in that cell. *)
Definition at_index (q : Queue) (index : nat) : option T :=
  match array_ q !! cellIndex q index with
  | Some cell => cell
  | None => None
  end.

Definition front (q : Queue) : option T := at_index q 0.

(** [back()]: [operator[](count_ - 1)] unless the queue is empty. *)
Definition back (q : Queue) : option T :=
  if negb (isEmpty q) then at_index q (count_ q - 1) else at_index q 0.

(** The sequence of stored elements, front first. *)
Definition elements (q : Queue) : list (option T) :=
  (fun i => at_index q i) <$> seq 0 (count_ q).

(** [popBack()]: destroys [back()] and decrements [count_]. *)
Definition popBack (q : Queue) : Queue :=
  if isEmpty q then q
  else
    let i := cellIndex q (count_ q - 1) in
    {| array_ := <[i := None]> (array_ q);
       startIdx_ := startIdx_ q;
       count_ := count_ q - 1 |}.

(** [popFront()]: destroys [front()], decrements [count_], advances
    [startIdx_] and resets it to 0 when it reaches the capacity or when
    the queue became empty. *)
Definition popFront (q : Queue) : Queue :=
  if isEmpty q then q
  else
    let i := cellIndex q 0 in
    let count := count_ q - 1 in
    let start := startIdx_ q + 1 in
    {| array_ := <[i := None]> (array_ q);
       startIdx_ := if (capacity <=? start) || (count =? 0) then 0 else start;
       count_ := count |}.

(** [createValueAtIndex]: placement new of [value] in the cell of
    [operator[](index)]. *)
Definition createValueAtIndex (value : T) (index : nat) (q : Queue) : Queue :=
  {| array_ := <[cellIndex q index := Some value]> (array_ q);
     startIdx_ := startIdx_ q;
     count_ := count_ q |}.

Definition pushBackNotFull (value : T) (q : Queue) : Queue :=
  let q1 := createValueAtIndex value (size q) q in
  {| array_ := array_ q1; startIdx_ := startIdx_ q1; count_ := count_ q1 + 1 |}.

Definition pushFrontNotFull (value : T) (q : Queue) : Queue :=
  let q1 := createValueAtIndex value (capacity - 1) q in
  {| array_ := array_ q1;
     startIdx_ := if startIdx_ q1 =? 0 then capacity - 1 else startIdx_ q1 - 1;
     count_ := count_ q1 + 1 |}.

(** The four tagged overloads of [BasicStaticQueue]. *)
Definition pushBack_IgnoreError (value : T) (q : Queue) : Queue :=
  if isFull q then q else pushBackNotFull value q.

Definition pushBack_Overwrite (value : T) (q : Queue) : Queue :=
  let q1 := if isFull q then popFront q else q in
  pushBackNotFull value q1.

Definition pushFront_IgnoreError (value : T) (q : Queue) : Queue :=
  if isFull q then q else pushFrontNotFull value q.

Definition pushFront_Overwrite (value : T) (q : Queue) : Queue :=
  let q1 := if isFull q then popBack q else q in
  pushFrontNotFull value q1.

(** [pushBack(value)] and [pushFront(value)]: dispatch on
    [TTraits::OverflowBehaviour]. *)
Definition pushBack (behaviour : OverflowBehaviour) (value : T) (q : Queue) : Queue :=
  match behaviour with
  | IgnoreError => pushBack_IgnoreError value q
  | Overwrite => pushBack_Overwrite value q
  end.

Definition pushFront (behaviour : OverflowBehaviour) (value : T) (q : Queue) : Queue :=
  match behaviour with
  | IgnoreError => pushFront_IgnoreError value q
  | Overwrite => pushFront_Overwrite value q
  end.

(** The representation invariant of the queue: the storage has [TSize]
    cells, the head index points into it, at most [TSize] elements are
    stored and each of them is a live object. *)
Record wf (q : Queue) : Prop := mk_wf {
  wf_length : length (array_ q) = TSize;
  wf_start : startIdx_ q < TSize;
  wf_count : count_ q <= TSize;
  wf_live : forall i, i < count_ q -> is_Some (at_index q i)
}.

(** ** The other members of [BasicStaticQueueBase] *)

(** [popBack(count)] and [popFront(count)]:
    [while ((!isEmpty()) && (countTmp > 0)) { pop(); --countTmp; }]. *)
Fixpoint popBack_n (count : nat) (q : Queue) : Queue :=
  match count with
  | 0 => q
  | S countTmp => if isEmpty q then q else popBack_n countTmp (popBack q)
  end.

Fixpoint popFront_n (count : nat) (q : Queue) : Queue :=
  match count with
  | 0 => q
  | S countTmp => if isEmpty q then q else popFront_n countTmp (popFront q)
  end.

(** [clear()]: [while (!isEmpty()) { popFront(); }].  Every iteration
    removes one element, so [count_] iterations are enough
    (see [count_clear]). *)
Fixpoint clear_loop (fuel : nat) (q : Queue) : Queue :=
  match fuel with
  | 0 => q
  | S fuel' => if isEmpty q then q else clear_loop fuel' (popFront q)
  end.

Definition clear (q : Queue) : Queue := clear_loop (count_ q) q.

(** [std::size_t], taken as the unsigned integers of 64 bits, and the
    conversion of an unsigned value to [int], taken as the two's
    complement integers of 32 bits: a value up to [INT_MAX] is kept, a
    larger one is reduced modulo [2^32] (the conversion the compilers
    implement, and the one C++20 prescribes). *)
Definition size_t_modulus : Z := 2 ^ 64.

Definition INT_MAX : Z := 2 ^ 31 - 1.

Definition to_int (value : Z) : Z := ((value + 2 ^ 31) mod 2 ^ 32 - 2 ^ 31)%Z.

(** [indexOf(element)].  The address of [element] is given as its offset
    [elementPtr], counted in cells, from the first cell of [array_]; an
    address outside the array has an offset below 0 or above
    [capacity - 1].  [actualIdx] is computed in [std::size_t], and the
    value returned is its conversion to [int], the return type. *)
Definition indexOf (q : Queue) (elementPtr : Z) : Z :=
  if ((elementPtr <? 0) || (Z.of_nat capacity - 1 <? elementPtr))%Z then (-1)%Z
  else
    let rawIdx := elementPtr in
    let actualIdx :=
      (if rawIdx <? Z.of_nat (startIdx_ q)
       then ((Z.of_nat capacity - Z.of_nat (startIdx_ q)) mod size_t_modulus
             + rawIdx) mod size_t_modulus
       else rawIdx - Z.of_nat (startIdx_ q))%Z in
    if (Z.of_nat (size q) <=? actualIdx)%Z then (-1)%Z else to_int actualIdx.

(** A linearised iterator is a position in [array_], from 0 to
    [capacity]; [invalidIter()] is the end of the array. *)
Definition invalidIter : nat := capacity.

Definition isLinearised (q : Queue) : bool :=
  isEmpty q || (startIdx_ q + size q <=? capacity).

(** [arrayOne()] and [arrayTwo()]: the two ranges of [array_], as pairs of
    positions, that hold the elements of the queue. *)
Definition arrayOne (q : Queue) : nat * nat :=
  let beginIter := startIdx_ q in
  if isEmpty q then (beginIter, beginIter)
  else
    let rawEndIdx := startIdx_ q + size q in
    let endIter := if rawEndIdx <? capacity then beginIter + size q else capacity in
    (beginIter, endIter).

Definition arrayTwo (q : Queue) : nat * nat :=
  if isLinearised q then (snd (arrayOne q), snd (arrayOne q))
  else (0, startIdx_ q + size q - capacity).

(** [lbegin()] and [lend()]. *)
Definition lbegin (q : Queue) : nat :=
  if negb (isLinearised q) then invalidIter else startIdx_ q.

Definition lend (q : Queue) : nat :=
  if negb (isLinearised q) then invalidIter else lbegin q + size q.

(** The cells of [array_] a range of positions covers. *)
Definition range_cells (q : Queue) (range : nat * nat) : list (option T) :=
  take (snd range - fst range) (drop (fst range) (array_ q)).

(** The loop of [assign]:
    [for (iter = range.first; iter != range.second; ++iter)], each
    iteration calling [pushBackNotFull] with the object at [iter], over
    the cells of the range.  Reading a cell that holds no object is
    undefined in the source; such a cell is skipped here. *)
Fixpoint pushBack_range (cells : list (option T)) (q : Queue) : Queue :=
  match cells with
  | [] => q
  | Some value :: rest => pushBack_range rest (pushBackNotFull value q)
  | None :: rest => pushBack_range rest q
  end.

(** [assign(queue)], for both the copying and the moving overload: the
    elements of [queue] are pushed, in order, into the cleared queue.  The
    result is the queue assigned to; the moving overload leaves the source
    queue with moved-from objects, which is not part of the result. *)
Definition assign (this queue : Queue) : Queue :=
  let q0 := clear this in
  let q1 := pushBack_range (range_cells queue (arrayOne queue)) q0 in
  pushBack_range (range_cells queue (arrayTwo queue)) q1.

(** The copy and move constructors:
    [startIdx_(0), count_(0)] and then [assign(queue)]. *)
Definition copy_ctor (queue : Queue) : Queue := assign emptyQueue queue.

(** The loop of [linearise()]:
    [while (!isEmpty()) { tempQueue.pushBackNotFull(std::move(front()));
    popFront(); }].
    Every iteration removes one element of the queue, so [count_]
    iterations are enough.  The object moved from is destroyed by
    [popFront] at once.  A front cell without an object (undefined in the
    source) ends the loop here. *)
Fixpoint linearise_loop (fuel : nat) (tempQueue q : Queue) : Queue * Queue :=
  match fuel with
  | 0 => (tempQueue, q)
  | S fuel' =>
      if isEmpty q then (tempQueue, q)
      else
        match front q with
        | Some value =>
            linearise_loop fuel' (pushBackNotFull value tempQueue) (popFront q)
        | None => (tempQueue, q)
        end
  end.

(** [linearise()]; its last statement is the move assignment from
    [tempQueue], a different object, hence [assign]. *)
Definition linearise (q : Queue) : Queue :=
  if isLinearised q then q
  else
    let '(tempQueue, q1) := linearise_loop (count_ q) emptyQueue q in
    assign q1 tempQueue.

(** The growing loop of [resize]:
    [while (size() < newSize) { pushBackNotFull(ValueType()); }];
    [newSize - size()] iterations are enough. *)
Fixpoint resize_loop (fuel : nat) (defaultValue : T) (newSize : nat) (q : Queue)
  : Queue :=
  match fuel with
  | 0 => q
  | S fuel' =>
      if size q <? newSize
      then resize_loop fuel' defaultValue newSize (pushBackNotFull defaultValue q)
      else q
  end.

(** [resize(newSize)]; [defaultValue] is [ValueType()]. *)
Definition resize (defaultValue : T) (newSize : nat) (q : Queue) : Queue :=
  if capacity <? newSize then q
  else if size q <=? newSize
       then resize_loop (newSize - size q) defaultValue newSize q
       else popBack_n (size q - newSize) q.

(** What an object that was moved from holds afterwards.  The standard
    leaves it valid but unspecified and the queue is generic in [T], so it
    is a parameter here; for a type whose move is a copy it is the
    identity. *)
Variable moved_from : T -> T.

(** The move assignment [array_[to] = std::move(array_[from])].  Moving
    from a cell that holds no object is undefined in the source and does
    nothing here. *)
Definition move_cell (from to : nat) (arr : list (option T)) : list (option T) :=
  match arr !! from with
  | Some (Some value) => <[from := Some (moved_from value)]> (<[to := Some value]> arr)
  | _ => arr
  end.

(** [std::move_backward(first, first + n, d_first + n)] and
    [std::move(first, first + n, d_first)] over the cells of the array:
    the former assigns the last cell first, the latter the first cell
    first. *)
Fixpoint move_backward (n first d_first : nat) (arr : list (option T))
  : list (option T) :=
  match n with
  | 0 => arr
  | S k => move_backward k first d_first (move_cell (first + k) (d_first + k) arr)
  end.

Fixpoint move_forward (n first d_first : nat) (arr : list (option T))
  : list (option T) :=
  match n with
  | 0 => arr
  | S k => move_forward k (S first) (S d_first) (move_cell first d_first arr)
  end.

(** [isInRangeFunc] of [erase] and [insertNotFull]. *)
Definition isInRange (pos : nat) (range : nat * nat) : bool :=
  (fst range <=? pos) && (pos <? snd range).

(** [erase(pos)]: the queue afterwards and the iterator returned. *)
Definition erase (pos : nat) (q : Queue) : Queue * nat :=
  let rangeOne := arrayOne q in
  let rangeTwo := arrayTwo q in
  if isInRange pos rangeOne then
    let q1 := {| array_ := move_backward (pos - fst rangeOne) (fst rangeOne)
                             (fst rangeOne + 1) (array_ q);
                 startIdx_ := startIdx_ q;
                 count_ := count_ q |} in
    let q2 := popFront q1 in
    if negb (isEmpty q2) then (q2, pos + 1) else (q2, fst (arrayOne q2))
  else if isInRange pos rangeTwo then
    let q1 := {| array_ := move_forward (snd rangeTwo - (pos + 1)) (pos + 1) pos
                             (array_ q);
                 startIdx_ := startIdx_ q;
                 count_ := count_ q |} in
    let q2 := popBack q1 in
    if negb (isLinearised q2) then (q2, pos) else (q2, snd (arrayOne q2))
  else (q, invalidIter).

(** [auto elem = std::move(object)] for the object [operator[](index)]
    refers to: the cell keeps a moved-from object. *)
Definition move_out (index : nat) (q : Queue) : Queue :=
  match at_index q index with
  | Some value =>
      {| array_ := <[cellIndex q index := Some (moved_from value)]> (array_ q);
         startIdx_ := startIdx_ q;
         count_ := count_ q |}
  | None => q
  end.

(** The assignment of [value] to the object at the position [pos]. *)
Definition assign_at (pos : nat) (value : T) (q : Queue) : Queue :=
  {| array_ := <[pos := Some value]> (array_ q);
     startIdx_ := startIdx_ q;
     count_ := count_ q |}.

(** [insertNotFull(pos, value)]: the queue afterwards and the iterator
    returned.  In the branch of the first range the elements before [pos]
    are moved one cell down and [value] is assigned to the object at [pos]
    itself; in the branch of the second range the elements from [pos] on
    are moved one cell up and [value] is assigned to the object at [pos].
    A queue whose front or back cell holds no object (undefined in the
    source) is returned as it is. *)
Definition insertNotFull (pos : nat) (value : T) (q : Queue) : Queue * nat :=
  let rangeOne := arrayOne q in
  let rangeTwo := arrayTwo q in
  if pos =? fst rangeOne then
    let q1 := pushFrontNotFull value q in
    (q1, fst (arrayOne q1))
  else if pos =? snd rangeTwo then
    let q1 := pushBackNotFull value q in
    (q1, snd (arrayTwo q1) - 1)
  else if isInRange pos rangeOne then
    match front q with
    | Some firstElem =>
        let q0 := move_out 0 q in
        let q1 := {| array_ := move_forward (pos - (fst rangeOne + 1))
                                 (fst rangeOne + 1) (fst rangeOne) (array_ q0);
                     startIdx_ := startIdx_ q0;
                     count_ := count_ q0 |} in
        let q2 := assign_at pos value q1 in
        (pushFrontNotFull firstElem q2, pos)
    | None => (q, pos)
    end
  else if isInRange pos rangeTwo then
    match back q with
    | Some lastElem =>
        let q0 := move_out (count_ q - 1) q in
        let q1 := {| array_ := move_backward (snd rangeTwo - 1 - pos) pos (pos + 1)
                                 (array_ q0);
                     startIdx_ := startIdx_ q0;
                     count_ := count_ q0 |} in
        let q2 := assign_at pos value q1 in
        (pushBackNotFull lastElem q2, pos)
    | None => (q, pos)
    end
  else (q, invalidIter).

(** The two tagged overloads of [BasicStaticQueue::insert] and the
    dispatch on [TTraits::OverflowBehaviour]. *)
Definition insert_IgnoreError (pos : nat) (value : T) (q : Queue) : Queue * nat :=
  if isFull q then (q, invalidIter) else insertNotFull pos value q.

Definition insert_Overwrite (pos : nat) (value : T) (q : Queue) : Queue * nat :=
  if isFull q then
    if pos =? snd (arrayTwo q) then (q, invalidIter)
    else insertNotFull pos value (popBack q)
  else insertNotFull pos value q.

Definition insert (behaviour : OverflowBehaviour) (pos : nat) (value : T) (q : Queue)
  : Queue * nat :=
  match behaviour with
  | IgnoreError => insert_IgnoreError pos value q
  | Overwrite => insert_Overwrite pos value q
  end.

End BasicStaticQueueBase.

Arguments Queue : clear implicits.

(** A queue of capacity 5 holding 1, 2, 3, 7 that wraps around the end
    of the storage, and one of capacity 5 holding 1, 2 with free cells on
    both sides. *)
Definition wrappedQueue5 : Queue nat :=
  {| array_ := [Some 7; None; Some 1; Some 2; Some 3]; startIdx_ := 2; count_ := 4 |}.

Definition middleQueue5 : Queue nat :=
  {| array_ := [None; Some 1; Some 2; None; None]; startIdx_ := 1; count_ := 2 |}.

(** A full queue of capacity 3 whose head is the middle cell: the state
    after pushing 1, 2, 3 and 4 into an empty circular buffer. *)
Definition fullQueue3 : Queue nat :=
  {| array_ := [Some 4; Some 2; Some 3]; startIdx_ := 1; count_ := 3 |}.

End StaticQueue.

(* ===================================================================== *)
(** * Part II. embxx/comms/protocol/MsgIdLayer.h                          *)
(* ===================================================================== *)

Module Comms.

(** Modelled from the spec: the enumeration [embxx::comms::ErrorStatus]
    (embxx/comms/ErrorStatus.h is not among the sources).  The constructors
    follow the error taxonomy of the specification; [MsgAllocFaulure] keeps
    the spelling MsgIdLayer.h uses for the allocation failure. *)
Inductive ErrorStatus : Type :=
| Success
| UpdateRequired
| NotEnoughData
| BufferOverflow
| InvalidMsgId
| MsgAllocFaulure
| SyncMismatch
| ChecksumMismatch
| InvalidMsgData.

#[global] Instance ErrorStatus_eq_dec : EqDecision ErrorStatus.
Proof. solve_decision. Defined.

(** [traits::MsgIdType] is the C++ type [unsigned]; it is taken here as a
    32-bit unsigned integer, a [Z] in the range [0, 2^32). *)
Definition MsgIdType : Type := Z.

Definition MsgIdType_modulus : Z := 2 ^ 32.

(** [traits::endian::Big] and [traits::endian::Little]. *)
Inductive Endian : Type :=
| Big
| Little.

(** The traits class of the layer: [Endianness] and [MsgIdLen]. *)
Record Traits : Type := mkTraits {
  Endianness : Endian;
  MsgIdLen : nat
}.

(** ** The stream buffer *)

(** Modelled from the spec: the buffer abstraction ([std::streambuf]), a
    source and sink of raw bytes with sequential access.  [get_area] holds
    the bytes not read yet, [put_area] the bytes written so far and
    [put_room] the number of bytes the sink still accepts. *)
Record streambuf : Type := mkStreambuf {
  get_area : list Z;
  put_area : list Z;
  put_room : nat
}.

Definition EOF : Z := (-1)%Z.

Definition in_avail (buf : streambuf) : nat := length (get_area buf).

(** [sbumpc]: the next byte, advancing the read position; [EOF] when the
    get area is exhausted. *)
Definition sbumpc (buf : streambuf) : Z * streambuf :=
  match get_area buf with
  | [] => (EOF, buf)
  | c :: rest =>
      (c, {| get_area := rest; put_area := put_area buf; put_room := put_room buf |})
  end.

(** [sputc]: appends one byte when there is room for it; otherwise the
    byte is dropped (the call returns [EOF] in C++, which the callers
    below ignore). *)
Definition sputc (c : Z) (buf : streambuf) : streambuf :=
  match put_room buf with
  | 0 => buf
  | S room =>
      {| get_area := get_area buf; put_area := put_area buf ++ [c]; put_room := room |}
  end.

(** ** Fixed-width fields with the endianness of the stack *)

(** Modelled from the spec: the helpers [ProtocolLayer::getData] and
    [ProtocolLayer::putData] (ProtocolLayer.h is not among the sources),
    which read and write a field of [TSize] bytes with the endianness of
    the traits.  Each byte read is taken as an [unsigned char]. *)
Fixpoint getData_big (TSize : nat) (value : Z) (buf : streambuf) : Z * streambuf :=
  match TSize with
  | 0 => (value, buf)
  | S n =>
      let '(c, buf') := sbumpc buf in
      getData_big n (Z.lor (Z.shiftl value 8) (Z.land c 255)) buf'
  end.

Fixpoint getData_little (TSize : nat) (shift : Z) (value : Z) (buf : streambuf)
  : Z * streambuf :=
  match TSize with
  | 0 => (value, buf)
  | S n =>
      let '(c, buf') := sbumpc buf in
      getData_little n (shift + 8) (Z.lor value (Z.shiftl (Z.land c 255) shift)) buf'
  end.

(** [getData<MsgIdType, TSize>(buf)]: the decoded value converted to
    [MsgIdType]. *)
Definition getData (e : Endian) (TSize : nat) (buf : streambuf) : MsgIdType * streambuf :=
  let '(value, buf') :=
    match e with
    | Big => getData_big TSize 0 buf
    | Little => getData_little TSize 0 0 buf
    end in
  ((value mod MsgIdType_modulus)%Z, buf').

Fixpoint putData_big (TSize : nat) (value : Z) (buf : streambuf) : streambuf :=
  match TSize with
  | 0 => buf
  | S n => putData_big n value (sputc (Z.land (Z.shiftr value (8 * Z.of_nat n)) 255) buf)
  end.

Fixpoint putData_little (TSize : nat) (value : Z) (buf : streambuf) : streambuf :=
  match TSize with
  | 0 => buf
  | S n => putData_little n (Z.shiftr value 8) (sputc (Z.land value 255) buf)
  end.

Definition putData (e : Endian) (TSize : nat) (value : Z) (buf : streambuf) : streambuf :=
  match e with
  | Big => putData_big TSize value buf
  | Little => putData_little TSize value buf
  end.

Arguments getData : simpl never.
Arguments putData : simpl never.

(** The byte at position [i] of a field of [TSize] bytes holding [value]:
    most significant byte first for [Big], least significant first for
    [Little]. *)
Definition field_byte (e : Endian) (TSize : nat) (value : Z) (i : nat) : Z :=
  match e with
  | Big => Z.land (Z.shiftr value (8 * Z.of_nat (TSize - 1 - i))) 255
  | Little => Z.land (Z.shiftr value (8 * Z.of_nat i)) 255
  end.

(** The bytes of a field of [TSize] bytes holding [value], in the order
    they appear on the wire. *)
Definition field_bytes (e : Endian) (TSize : nat) (value : Z) : list Z :=
  field_byte e TSize value <$> seq 0 TSize.

Arguments field_bytes : simpl never.

(** The bytes [putData_big] and [putData_little] hand to [sputc], in
    order. *)
Fixpoint bytes_big (n : nat) (value : Z) : list Z :=
  match n with
  | O => []
  | S n' => Z.land (Z.shiftr value (8 * Z.of_nat n')) 255 :: bytes_big n' value
  end.

Fixpoint bytes_little (n : nat) (value : Z) : list Z :=
  match n with
  | O => []
  | S n' => Z.land value 255 :: bytes_little n' (Z.shiftr value 8)
  end.

(** [consumed buf buf' k]: going from [buf] to [buf'] consumed exactly the
    first [k] bytes of the get area. *)
Definition consumed (buf buf' : streambuf) (k : nat) : Prop :=
  k <= in_avail buf /\ get_area buf' = drop k (get_area buf).

(** [written buf buf' k]: going from [buf] to [buf'] appended exactly [k]
    bytes to the put area. *)
Definition written (buf buf' : streambuf) (k : nat) : Prop :=
  exists bytes, length bytes = k /\ put_area buf' = put_area buf ++ bytes.

(** ** The interfaces the layer is parameterised by *)

(** Modelled from the spec: the message interface ([getId], body read and
    write, serialised length); the classes [Message] and [MessageBase] are
    not among the sources. *)
Class Message (Msg : Type) : Type := {
  getId : Msg -> MsgIdType;
  msg_read : Msg -> streambuf -> nat -> ErrorStatus * Msg * streambuf;
  msg_write : Msg -> streambuf -> nat -> ErrorStatus * streambuf;
  msg_length : Msg -> nat
}.

(** The requirements on [TAllocator] listed in MsgIdLayer.h: a default
    constructor and [alloc], which returns a smart pointer that is empty
    when no object could be allocated.  [alloc a] is [None] for the empty
    pointer and otherwise the allocator once the object exists; [release]
    is the effect on the allocator of the pointer's deleter. *)
Class Allocator (A : Type) : Type := {
  Allocator_default : A;
  alloc : A -> option A;
  release : A -> A
}.

(** The smart pointer [MsgPtr]: empty, or owning a message object. *)
Definition MsgPtr (Msg : Type) : Type := option Msg.

(** The interface of [TNextLayer]: [read] may change the pointer, the
    buffer and the layer itself; [write] is a [const] member. *)
Class ProtocolLayer (Msg NL : Type) : Type := {
  next_read : NL -> MsgPtr Msg -> streambuf -> nat ->
              ErrorStatus * MsgPtr Msg * streambuf * NL;
  next_write : NL -> Msg -> streambuf -> nat -> ErrorStatus * streambuf
}.

Section MsgIdLayer.

Context {Msg A NL : Type}.
Context `{Message Msg} `{Allocator A} `{ProtocolLayer Msg NL}.

Variable TTraits : Traits.

(** A message class of the tuple [TAllMessages]: its static constant
    [MsgId] and its default constructor. *)
Record MsgClass : Type := mkMsgClass {
  MsgId : MsgIdType;
  construct : Msg
}.

(** [MsgFactory<TMessage>], seen through the interface [Factory]. *)
Inductive Factory : Type :=
| MsgFactory (TMessage : MsgClass).

(** [Factory::getId], that is [MsgFactory<TMessage>::getIdImpl]. *)
Definition factory_getId (f : Factory) : MsgIdType :=
  match f with MsgFactory TMessage => MsgId TMessage end.

(** [Factory::create], that is [MsgFactory<TMessage>::createImpl]:
    [allocator.alloc<Message>()]. *)
Definition factory_create (f : Factory) (allocator : A) : MsgPtr Msg * A :=
  match f with
  | MsgFactory TMessage =>
      match alloc allocator with
      | Some allocator' => (Some (construct TMessage), allocator')
      | None => (None, allocator)
      end
  end.

(** The data members: [allocator_], [factories_] and the next layer held
    by the base class [ProtocolLayer]. *)
Record MsgIdLayer : Type := mkMsgIdLayer {
  allocator_ : A;
  factories_ : list Factory;
  nextLayer_ : NL
}.

(** [details::FactoryCreator<TSize>::create]: the factories of the first
    [TSize] message classes, in the order of the tuple. *)
Fixpoint FactoryCreator (TSize : nat) (AllMessages : list MsgClass) : list Factory :=
  match TSize with
  | 0 => []
  | S Idx =>
      FactoryCreator Idx AllMessages ++
      match AllMessages !! Idx with
      | Some TMessage => [MsgFactory TMessage]
      | None => []
      end
  end.

(** The comparison passed to [std::sort]. *)
Definition factory_less (factory1 factory2 : Factory) : bool :=
  (factory_getId factory1 <? factory_getId factory2)%Z.

(** [std::sort] with [factory_less], here by insertion.  The standard
    leaves the relative order of factories with equal IDs open; nothing
    below depends on it. *)
Fixpoint sort_insert (f : Factory) (l : list Factory) : list Factory :=
  match l with
  | [] => [f]
  | g :: rest => if factory_less g f then g :: sort_insert f rest else f :: g :: rest
  end.

Definition std_sort (l : list Factory) : list Factory := foldr sort_insert [] l.

(** Ascending order of the raw numeric ID, and the IDs of a registry. *)
Definition id_le (factory1 factory2 : Factory) : Prop :=
  (factory_getId factory1 <= factory_getId factory2)%Z.

Definition sorted_by_id (factories : list Factory) : Prop :=
  StronglySorted id_le factories.

Definition registered_ids (factories : list Factory) : list MsgIdType :=
  factory_getId <$> factories.

(** The registry the constructor builds for the message classes
    [AllMessages]: one factory per class, sorted by ID. *)
Definition registry_of (AllMessages : list MsgClass) : list Factory :=
  std_sort (FactoryCreator (length AllMessages) AllMessages).

(** The constructor; the allocator is default-constructed. *)
Definition MsgIdLayer_ctor (AllMessages : list MsgClass) (next : NL) : MsgIdLayer :=
  {| allocator_ := Allocator_default;
     factories_ := registry_of AllMessages;
     nextLayer_ := next |}.

(** [std::lower_bound] over [factories_] with the comparison
    [factory->getId() < id]: the loop halves [count] until it is 0.
    [fuel] bounds the number of iterations; [count] itself is enough. *)
Fixpoint lower_bound_loop (fuel : nat) (factories : list Factory) (id : MsgIdType)
  (first count : nat) : nat :=
  match fuel with
  | 0 => first
  | S fuel' =>
      if count =? 0 then first
      else
        let step := count / 2 in
        let it := first + step in
        match factories !! it with
        | Some factory =>
            if (factory_getId factory <? id)%Z
            then lower_bound_loop fuel' factories id (it + 1) (count - (step + 1))
            else lower_bound_loop fuel' factories id first step
        | None => first
        end
  end.

Definition lower_bound (factories : list Factory) (id : MsgIdType) : nat :=
  lower_bound_loop (length factories) factories id 0 (length factories).

(** [msgPtr.reset()]: the object, if any, is destroyed by the deleter. *)
Definition reset (msgPtr : MsgPtr Msg) (allocator : A) : MsgPtr Msg * A :=
  match msgPtr with
  | Some _ => (None, release allocator)
  | None => (None, allocator)
  end.

(** The preconditions asserted by [read]: [!msgPtr] and
    [size <= buf.in_avail()]. *)
Definition read_pre (msgPtr : MsgPtr Msg) (buf : streambuf) (size : nat) : Prop :=
  msgPtr = None /\ size <= in_avail buf.

(** [MsgIdLayer::read]. *)
Definition read (L : MsgIdLayer) (msgPtr : MsgPtr Msg) (buf : streambuf) (size : nat)
  : ErrorStatus * MsgPtr Msg * streambuf * MsgIdLayer :=
  if size <? MsgIdLen TTraits then (NotEnoughData, msgPtr, buf, L)
  else
    let '(id, buf1) := getData (Endianness TTraits) (MsgIdLen TTraits) buf in
    let iter := lower_bound (factories_ L) id in
    match factories_ L !! iter with
    | None => (InvalidMsgId, msgPtr, buf1, L)
    | Some factory =>
        if negb (factory_getId factory =? id)%Z then (InvalidMsgId, msgPtr, buf1, L)
        else
          (* msgPtr = iter->create(allocator_): the object msgPtr held
             before, if any, is destroyed by the move assignment *)
          let '(newPtr, a1) := factory_create factory (allocator_ L) in
          let a2 := snd (reset msgPtr a1) in
          match newPtr with
          | None =>
              (MsgAllocFaulure, None, buf1,
               {| allocator_ := a2; factories_ := factories_ L;
                  nextLayer_ := nextLayer_ L |})
          | Some _ =>
              let '(status, msgPtr1, buf2, next') :=
                next_read (nextLayer_ L) newPtr buf1 (size - MsgIdLen TTraits) in
              (* a next layer that emptied the pointer has run the deleter *)
              let a3 := match msgPtr1 with Some _ => a2 | None => release a2 end in
              if decide (status <> Success) then
                let '(msgPtr2, a4) := reset msgPtr1 a3 in
                (status, msgPtr2, buf2,
                 {| allocator_ := a4; factories_ := factories_ L; nextLayer_ := next' |})
              else
                (status, msgPtr1, buf2,
                 {| allocator_ := a3; factories_ := factories_ L; nextLayer_ := next' |})
          end
    end.

(** The precondition asserted by [write] in a debug build: [size] is at
    most the room left in the buffer. *)
Definition write_pre (buf : streambuf) (size : nat) : Prop :=
  size <= put_room buf.

(** [MsgIdLayer::write]. *)
Definition write (L : MsgIdLayer) (msg : Msg) (buf : streambuf) (size : nat)
  : ErrorStatus * streambuf :=
  if size <? MsgIdLen TTraits then (BufferOverflow, buf)
  else
    let buf1 := putData (Endianness TTraits) (MsgIdLen TTraits) (getId msg) buf in
    next_write (nextLayer_ L) msg buf1 (size - MsgIdLen TTraits).

(** ** What the layer expects of its next layer *)

(** The postcondition of [read], for the next layer: started with a
    pointer that holds a message, it reports [Success] only with a pointer
    that still holds one. *)
Definition next_read_keeps_handle : Prop :=
  forall (next : NL) (msg : Msg) buf size status msgPtr' buf' next',
    next_read next (Some msg) buf size = (status, msgPtr', buf', next') ->
    status = Success -> is_Some msgPtr'.

(** The next layer stays within the budget it is given. *)
Definition next_read_within_budget : Prop :=
  forall (next : NL) (msgPtr : MsgPtr Msg) buf size,
    size <= in_avail buf ->
    exists k, k <= size /\ consumed buf (next_read next msgPtr buf size).1.2 k.

Definition next_write_within_budget : Prop :=
  forall (next : NL) (msg : Msg) buf size,
    size <= put_room buf ->
    exists k, k <= size /\ written buf (next_write next msg buf size).2 k.

(** The next layer round-trips [msg]: what it writes for [msg] it reads
    back, into the freshly constructed object [fresh], as [msg] again,
    consuming exactly the bytes written. *)
Definition next_round_trip (next : NL) (msg fresh : Msg) : Prop :=
  forall buf size buf',
    size <= put_room buf ->
    next_write next msg buf size = (Success, buf') ->
    exists body,
      put_area buf' = put_area buf ++ body /\
      forall rest pa pr, exists next',
        next_read next (Some fresh)
          {| get_area := body ++ rest; put_area := pa; put_room := pr |}
          (length body) =
        (Success, Some msg,
         {| get_area := rest; put_area := pa; put_room := pr |}, next').

(** The caller dropping the message a successful [read] handed out. *)
Definition release_message (L : MsgIdLayer) : MsgIdLayer :=
  {| allocator_ := release (allocator_ L);
     factories_ := factories_ L;
     nextLayer_ := nextLayer_ L |}.

End MsgIdLayer.

Arguments MsgClass : clear implicits.
Arguments Factory : clear implicits.
Arguments MsgIdLayer : clear implicits.

(** ** The allocators *)

(** Modelled from the spec: the in-place allocator (embxx/util/Allocators.h
    is not among the sources), a single storage region with a liveness
    flag.  [alloc] returns an empty pointer while the region is occupied;
    releasing the pointer frees the region. *)
Inductive InPlaceMsgAllocator : Type :=
| InPlace (occupied : bool).

#[global] Instance InPlaceMsgAllocator_Allocator : Allocator InPlaceMsgAllocator := {
  Allocator_default := InPlace false;
  alloc a :=
    match a with
    | InPlace true => None
    | InPlace false => Some (InPlace true)
    end;
  release _ := InPlace false
}.

(** Modelled from the spec: the dynamic allocator, for which every [alloc]
    produces a new heap object; the state counts the live objects. *)
Inductive DynMemMsgAllocator : Type :=
| DynMem (live : nat).

#[global] Instance DynMemMsgAllocator_Allocator : Allocator DynMemMsgAllocator := {
  Allocator_default := DynMem 0;
  alloc a := match a with DynMem live => Some (DynMem (S live)) end;
  release a := match a with DynMem live => DynMem (live - 1) end
}.

(** ** The terminal layer *)

(** Modelled from the spec: [MsgDataLayer] (its header is not among the
    sources) hands the remaining bytes to the message object: [read]
    requires a pointer that already holds a message and invokes the
    deserialisation of the message over [size] bytes; [write] invokes its
    serialisation.  The layer has no state. *)
Inductive MsgDataLayer : Type :=
| mkMsgDataLayer.

#[global] Instance MsgDataLayer_ProtocolLayer {Msg : Type} `{Message Msg}
  : ProtocolLayer Msg MsgDataLayer := {
  next_read L msgPtr buf size :=
    match msgPtr with
    | Some msg =>
        let '(status, msg', buf') := msg_read msg buf size in
        (status, Some msg', buf', L)
    | None => (InvalidMsgData, None, buf, L)
    end;
  next_write L msg buf size := msg_write msg buf size
}.

(** ** Messages of the test suites *)

(** Modelled from the spec: the two kinds of message the test suites and
    the concrete scenarios of the specification use (CommsTestCommon.h is
    not among the sources): a message whose body is one big-endian 16-bit
    value, and a message with an empty body. *)
Inductive TestMessage : Type :=
| ValueMessage (id : MsgIdType) (value : Z)
| EmptyMessage (id : MsgIdType).

#[global] Instance TestMessage_eq_dec : EqDecision TestMessage.
Proof. solve_decision. Defined.

#[global] Instance TestMessage_Message : Message TestMessage := {
  getId msg :=
    match msg with
    | ValueMessage id _ => id
    | EmptyMessage id => id
    end;
  msg_read msg buf size :=
    match msg with
    | ValueMessage id _ =>
        if size <? 2 then (NotEnoughData, msg, buf)
        else let '(value, buf') := getData Big 2 buf in
             (Success, ValueMessage id value, buf')
    | EmptyMessage _ => (Success, msg, buf)
    end;
  msg_write msg buf size :=
    match msg with
    | ValueMessage _ value =>
        if size <? 2 then (BufferOverflow, buf)
        else (Success, putData Big 2 value buf)
    | EmptyMessage _ => (Success, buf)
    end;
  msg_length msg :=
    match msg with
    | ValueMessage _ _ => 2
    | EmptyMessage _ => 0
    end
}.

(** The message classes of the test messages. *)
Definition ValueMessageClass (id : MsgIdType) : MsgClass TestMessage :=
  {| MsgId := id; construct := ValueMessage id 0 |}.

Definition EmptyMessageClass (id : MsgIdType) : MsgClass TestMessage :=
  {| MsgId := id; construct := EmptyMessage id |}.

(** An input buffer over the given bytes, and an output buffer with the
    given room. *)
Definition InputBuf (bytes : list Z) : streambuf :=
  {| get_area := bytes; put_area := []; put_room := 0 |}.

Definition OutputBuf (room : nat) : streambuf :=
  {| get_area := []; put_area := []; put_room := room |}.

(** The stack of the concrete scenarios of the specification: a 2-byte
    big-endian ID field in front of the message body, over the message
    classes with the IDs 0, 1 and 2, where ID 1 carries a 16-bit value. *)
Definition TestTraits : Traits := {| Endianness := Big; MsgIdLen := 2 |}.

Definition TestMessages : list (MsgClass TestMessage) :=
  [EmptyMessageClass 2%Z; ValueMessageClass 1%Z; EmptyMessageClass 0%Z].

Definition TestStack : MsgIdLayer TestMessage InPlaceMsgAllocator MsgDataLayer :=
  MsgIdLayer_ctor TestMessages mkMsgDataLayer.

(** A configuration in which two message classes share the ID 1, and one
    whose ID 256 does not fit an ID field of one byte. *)
Definition SharedIdMessages : list (MsgClass TestMessage) :=
  [ValueMessageClass 1%Z; EmptyMessageClass 1%Z].

Definition SharedIdStack : MsgIdLayer TestMessage InPlaceMsgAllocator MsgDataLayer :=
  MsgIdLayer_ctor SharedIdMessages mkMsgDataLayer.

(** The layer over these two classes with the registry in a given order:
    [std::sort] leaves the order of factories with equal IDs open. *)
Definition SharedIdLayer (factories : list (Factory TestMessage))
  : MsgIdLayer TestMessage InPlaceMsgAllocator MsgDataLayer :=
  {| allocator_ := Allocator_default;
     factories_ := factories;
     nextLayer_ := mkMsgDataLayer |}.

Definition OneByteIdTraits : Traits := {| Endianness := Big; MsgIdLen := 1 |}.

Definition WideIdStack : MsgIdLayer TestMessage InPlaceMsgAllocator MsgDataLayer :=
  MsgIdLayer_ctor [EmptyMessageClass 256%Z] mkMsgDataLayer.

End Comms.

(* ===================================================================== *)
(** * Part III. Properties of the static queue                            *)
(* ===================================================================== *)

Section StaticQueueProperties.

Import StaticQueue.

Context {T : Type}.
Variable TSize : nat.

Implicit Types (q : Queue T) (v : T).

(** Case analysis on every comparison [a <=? b] of the goal. *)
Ltac case_leb :=
  repeat match goal with
         | |- context [?a <=? ?b] => destruct (Nat.leb_spec a b)
         end.

(** ** Index arithmetic *)

Lemma wrap_loop_below fuel r :
  r < TSize -> wrap_loop TSize fuel r = r.
Proof.
  intros Hr. destruct fuel as [|fuel]; simpl; [reflexivity|].
  unfold capacity. destruct (Nat.leb_spec TSize r); [lia | reflexivity].
Qed.

Lemma wrap_loop_mod fuel r :
  0 < TSize -> r < TSize + fuel -> wrap_loop TSize fuel r = r mod TSize.
Proof.
  intros Hpos. revert r. induction fuel as [|fuel IH]; intros r Hr; simpl.
  - rewrite Nat.mod_small by lia. reflexivity.
  - unfold capacity. destruct (Nat.leb_spec TSize r) as [Hle|Hlt].
    + rewrite IH by lia.
      replace r with ((r - TSize) + 1 * TSize) at 2 by lia.
      rewrite Nat.Div0.mod_add. reflexivity.
    + rewrite Nat.mod_small by lia. reflexivity.
Qed.

Lemma cellIndex_eq q i :
  0 < TSize -> startIdx_ q + i < 2 * TSize ->
  cellIndex TSize q i =
    if TSize <=? startIdx_ q + i then startIdx_ q + i - TSize else startIdx_ q + i.
Proof.
  intros Hpos Hlt. unfold cellIndex.
  cbv zeta. rewrite wrap_loop_mod by lia.
  destruct (Nat.leb_spec TSize (startIdx_ q + i)) as [Hle|Hlt'].
  - symmetry. apply (Nat.mod_unique _ _ 1); lia.
  - apply Nat.mod_small. lia.
Qed.

Lemma cellIndex_lt q i :
  startIdx_ q < TSize -> i < TSize -> cellIndex TSize q i < TSize.
Proof.
  intros Hs Hi. rewrite cellIndex_eq by lia.
  destruct (Nat.leb_spec TSize (startIdx_ q + i)); lia.
Qed.

Lemma cellIndex_inj q i j :
  startIdx_ q < TSize -> i < TSize -> j < TSize ->
  cellIndex TSize q i = cellIndex TSize q j -> i = j.
Proof.
  intros Hs Hi Hj. rewrite !cellIndex_eq by lia.
  destruct (Nat.leb_spec TSize (startIdx_ q + i)),
           (Nat.leb_spec TSize (startIdx_ q + j)); lia.
Qed.

(** ** The elements after each primitive operation *)

Lemma elements_lookup q i :
  elements TSize q !! i = if i <? count_ q then Some (at_index TSize q i) else None.
Proof.
  unfold elements. rewrite list_lookup_fmap.
  destruct (Nat.ltb_spec i (count_ q)) as [Hlt|Hge].
  - rewrite lookup_seq_lt by lia. reflexivity.
  - rewrite lookup_seq_ge by lia. reflexivity.
Qed.

Lemma length_tail {X : Type} (l : list X) : length (tail l) = length l - 1.
Proof. destruct l; simpl; lia. Qed.

Lemma length_elements q : length (elements TSize q) = count_ q.
Proof. unfold elements. rewrite length_fmap, length_seq. reflexivity. Qed.

Lemma at_index_pushBackNotFull q v i :
  wf TSize q -> count_ q < TSize -> i <= count_ q ->
  at_index TSize (pushBackNotFull TSize v q) i =
    if i =? count_ q then Some v else at_index TSize q i.
Proof.
  intros [Hlen Hs Hc _] Hroom Hi.
  unfold at_index, pushBackNotFull, createValueAtIndex, size. simpl.
  change (cellIndex TSize {| array_ := _; startIdx_ := startIdx_ q; count_ := _ |} i)
    with (cellIndex TSize q i).
  destruct (Nat.eqb_spec i (count_ q)) as [->|Hne].
  - rewrite list_lookup_insert_eq; [reflexivity|].
    rewrite Hlen. apply cellIndex_lt; lia.
  - rewrite list_lookup_insert_ne; [reflexivity|].
    intros Heq. apply cellIndex_inj in Heq; lia.
Qed.

Lemma at_index_popFront q i :
  wf TSize q -> S i < count_ q ->
  at_index TSize (popFront TSize q) i = at_index TSize q (S i).
Proof.
  intros [Hlen Hs Hc _] Hi.
  unfold popFront, isEmpty.
  destruct (Nat.eqb_spec (count_ q) 0) as [|_]; [lia|].
  unfold at_index. simpl.
  assert (Hcell : cellIndex TSize
            {| array_ := <[cellIndex TSize q 0:=None]> (array_ q);
               startIdx_ := (if (capacity TSize <=? startIdx_ q + 1)
                                || (count_ q - 1 =? 0)
                             then 0 else startIdx_ q + 1);
               count_ := count_ q - 1 |} i = cellIndex TSize q (S i)).
  { rewrite !cellIndex_eq; simpl; unfold capacity;
      destruct (Nat.leb_spec TSize (startIdx_ q + 1));
      destruct (Nat.eqb_spec (count_ q - 1) 0); simpl; try lia;
      case_leb; lia. }
  rewrite Hcell.
  rewrite list_lookup_insert_ne; [reflexivity|].
  intros Heq. apply cellIndex_inj in Heq; lia.
Qed.

Lemma at_index_popBack q i :
  wf TSize q -> S i < count_ q ->
  at_index TSize (popBack TSize q) i = at_index TSize q i.
Proof.
  intros [Hlen Hs Hc _] Hi.
  unfold popBack, isEmpty.
  destruct (Nat.eqb_spec (count_ q) 0) as [|_]; [lia|].
  unfold at_index. simpl.
  change (cellIndex TSize {| array_ := _; startIdx_ := startIdx_ q; count_ := _ |} i)
    with (cellIndex TSize q i).
  rewrite list_lookup_insert_ne; [reflexivity|].
  intros Heq. apply cellIndex_inj in Heq; lia.
Qed.

Lemma at_index_pushFrontNotFull q v i :
  wf TSize q -> count_ q < TSize -> i <= count_ q ->
  at_index TSize (pushFrontNotFull TSize v q) i =
    match i with 0 => Some v | S j => at_index TSize q j end.
Proof.
  intros [Hlen Hs Hc _] Hroom Hi.
  unfold at_index, pushFrontNotFull, createValueAtIndex, capacity. simpl.
  set (q' := {| array_ := _; startIdx_ := _; count_ := _ |}).
  assert (Hq' : startIdx_ q' = if startIdx_ q =? 0 then TSize - 1 else startIdx_ q - 1)
    by reflexivity.
  assert (Hnew : cellIndex TSize q (TSize - 1) = cellIndex TSize q' 0).
  { rewrite !cellIndex_eq; rewrite ?Hq';
      destruct (Nat.eqb_spec (startIdx_ q) 0); try lia;
      case_leb; lia. }
  destruct i as [|j].
  - rewrite <- Hnew. rewrite list_lookup_insert_eq; [reflexivity|].
    rewrite Hlen. apply cellIndex_lt; lia.
  - assert (Hold : cellIndex TSize q' (S j) = cellIndex TSize q j).
    { rewrite !cellIndex_eq; rewrite ?Hq';
        destruct (Nat.eqb_spec (startIdx_ q) 0); try lia;
        case_leb; lia. }
    rewrite Hold. rewrite list_lookup_insert_ne; [reflexivity|].
    intros Heq. apply cellIndex_inj in Heq; lia.
Qed.

(** ** The representation invariant is kept by every operation *)

Lemma wf_emptyQueue : 0 < TSize -> wf TSize (emptyQueue TSize : Queue T).
Proof.
  intros Hpos. split; simpl; try lia.
  apply length_replicate.
Qed.

Lemma wf_pushBackNotFull q v :
  wf TSize q -> count_ q < TSize -> wf TSize (pushBackNotFull TSize v q).
Proof.
  intros Hwf Hroom. pose proof Hwf as [Hlen Hs Hc Hlive].
  split.
  - simpl. rewrite length_insert. exact Hlen.
  - exact Hs.
  - simpl. lia.
  - intros i Hi. simpl in Hi.
    rewrite at_index_pushBackNotFull by (try assumption; lia).
    destruct (Nat.eqb_spec i (count_ q)); [eauto | apply Hlive; lia].
Qed.

Lemma wf_pushFrontNotFull q v :
  wf TSize q -> count_ q < TSize -> wf TSize (pushFrontNotFull TSize v q).
Proof.
  intros Hwf Hroom. pose proof Hwf as [Hlen Hs Hc Hlive].
  split.
  - simpl. rewrite length_insert. exact Hlen.
  - simpl. unfold capacity. destruct (Nat.eqb_spec (startIdx_ q) 0); lia.
  - simpl. lia.
  - intros i Hi. simpl in Hi.
    rewrite at_index_pushFrontNotFull by (try assumption; lia).
    destruct i as [|j]; [eauto | apply Hlive; lia].
Qed.

Lemma wf_popFront q : wf TSize q -> wf TSize (popFront TSize q).
Proof.
  intros Hwf. pose proof Hwf as [Hlen Hs Hc Hlive].
  destruct (Nat.eqb_spec (count_ q) 0) as [Hz|Hnz].
  - unfold popFront, isEmpty. rewrite Hz. exact Hwf.
  - split.
    + unfold popFront, isEmpty. destruct (Nat.eqb_spec (count_ q) 0); [lia|].
      simpl. rewrite length_insert. exact Hlen.
    + unfold popFront, isEmpty, capacity.
      destruct (Nat.eqb_spec (count_ q) 0); [lia|]. simpl.
      destruct (Nat.leb_spec TSize (startIdx_ q + 1));
        destruct (Nat.eqb_spec (count_ q - 1) 0); simpl; lia.
    + unfold popFront, isEmpty. destruct (Nat.eqb_spec (count_ q) 0); [lia|].
      simpl. lia.
    + intros i Hi.
      assert (Hcount : count_ (popFront TSize q) = count_ q - 1).
      { unfold popFront, isEmpty.
        destruct (Nat.eqb_spec (count_ q) 0); [lia | reflexivity]. }
      rewrite at_index_popFront by (try assumption; lia).
      apply Hlive. lia.
Qed.

Lemma wf_popBack q : wf TSize q -> wf TSize (popBack TSize q).
Proof.
  intros Hwf. pose proof Hwf as [Hlen Hs Hc Hlive].
  destruct (Nat.eqb_spec (count_ q) 0) as [Hz|Hnz].
  - unfold popBack, isEmpty. rewrite Hz. exact Hwf.
  - assert (Hcount : count_ (popBack TSize q) = count_ q - 1).
    { unfold popBack, isEmpty.
      destruct (Nat.eqb_spec (count_ q) 0); [lia | reflexivity]. }
    split.
    + unfold popBack, isEmpty. destruct (Nat.eqb_spec (count_ q) 0); [lia|].
      simpl. rewrite length_insert. exact Hlen.
    + unfold popBack, isEmpty. destruct (Nat.eqb_spec (count_ q) 0); [lia|].
      exact Hs.
    + lia.
    + intros i Hi.
      rewrite at_index_popBack by (try assumption; lia).
      apply Hlive. lia.
Qed.

Lemma count_popFront q :
  count_ (popFront TSize q) = count_ q - 1.
Proof.
  unfold popFront, isEmpty.
  destruct (Nat.eqb_spec (count_ q) 0) as [Hz|Hnz]; [lia | reflexivity].
Qed.

Lemma count_popBack q :
  count_ (popBack TSize q) = count_ q - 1.
Proof.
  unfold popBack, isEmpty.
  destruct (Nat.eqb_spec (count_ q) 0) as [Hz|Hnz]; [lia | reflexivity].
Qed.

Lemma wf_pushBack behaviour q v :
  wf TSize q -> wf TSize (pushBack TSize behaviour v q).
Proof.
  intros Hwf. pose proof Hwf as [Hlen Hs Hc Hlive].
  destruct behaviour; simpl.
  - unfold pushBack_IgnoreError, isFull, capacity.
    destruct (Nat.leb_spec TSize (count_ q)); [exact Hwf|].
    apply wf_pushBackNotFull; [exact Hwf | lia].
  - unfold pushBack_Overwrite, isFull, capacity.
    destruct (Nat.leb_spec TSize (count_ q)).
    + apply wf_pushBackNotFull; [apply wf_popFront; exact Hwf|].
      rewrite count_popFront. lia.
    + apply wf_pushBackNotFull; [exact Hwf | lia].
Qed.

Lemma wf_pushFront behaviour q v :
  wf TSize q -> wf TSize (pushFront TSize behaviour v q).
Proof.
  intros Hwf. pose proof Hwf as [Hlen Hs Hc Hlive].
  destruct behaviour; simpl.
  - unfold pushFront_IgnoreError, isFull, capacity.
    destruct (Nat.leb_spec TSize (count_ q)); [exact Hwf|].
    apply wf_pushFrontNotFull; [exact Hwf | lia].
  - unfold pushFront_Overwrite, isFull, capacity.
    destruct (Nat.leb_spec TSize (count_ q)).
    + apply wf_pushFrontNotFull; [apply wf_popBack; exact Hwf|].
      rewrite count_popBack. lia.
    + apply wf_pushFrontNotFull; [exact Hwf | lia].
Qed.

(** ** Pushing into a full queue *)

(** C9.  With the overflow behaviour [IgnoreError], [pushBack] and
    [pushFront] on a full queue ([size() == capacity()]) return the queue
    as it was: the same storage cells (no object destroyed or
    overwritten), the same head index and count, hence the same size and
    the same element at every index. *)
Theorem push_full_IgnoreError_unchanged q v :
  size q = capacity TSize ->
  pushBack TSize IgnoreError v q = q /\
  pushFront TSize IgnoreError v q = q /\
  (forall q', q' = pushBack TSize IgnoreError v q \/
              q' = pushFront TSize IgnoreError v q ->
     size q' = size q /\
     array_ q' = array_ q /\
     elements TSize q' = elements TSize q /\
     forall i, at_index TSize q' i = at_index TSize q i).
Proof.
  intros Hfull.
  assert (Hb : pushBack TSize IgnoreError v q = q).
  { simpl. unfold pushBack_IgnoreError, isFull. unfold size in Hfull.
    rewrite Hfull, Nat.leb_refl. reflexivity. }
  assert (Hf : pushFront TSize IgnoreError v q = q).
  { simpl. unfold pushFront_IgnoreError, isFull. unfold size in Hfull.
    rewrite Hfull, Nat.leb_refl. reflexivity. }
  split; [exact Hb|]. split; [exact Hf|].
  intros q' [-> | ->]; rewrite ?Hb, ?Hf; auto.
Qed.

(** C10.  With the overflow behaviour [Overwrite], [pushBack] on a full
    queue is [popFront] followed by [pushBackNotFull]: afterwards the
    size is still the capacity, [back()] is the new element, and the
    elements are the former ones without the former front, followed by
    the new element.  Every push operation, under either behaviour, keeps
    the representation invariant and so leaves [size() <= capacity()]. *)
Theorem pushBack_Overwrite_full q v :
  wf TSize q ->
  size q = capacity TSize ->
  let q' := pushBack TSize Overwrite v q in
  q' = pushBackNotFull TSize v (popFront TSize q) /\
  size q' = capacity TSize /\
  back TSize q' = Some v /\
  elements TSize q' = tail (elements TSize q) ++ [Some v] /\
  (forall behaviour w q0, wf TSize q0 ->
     (wf TSize (pushBack TSize behaviour w q0) /\
      size (pushBack TSize behaviour w q0) <= capacity TSize) /\
     (wf TSize (pushFront TSize behaviour w q0) /\
      size (pushFront TSize behaviour w q0) <= capacity TSize)).
Proof.
  intros Hwf Hfull q'. pose proof Hwf as [Hlen Hs Hc Hlive].
  unfold size, capacity in *.
  assert (Hq' : q' = pushBackNotFull TSize v (popFront TSize q)).
  { subst q'. simpl. unfold pushBack_Overwrite, isFull, capacity.
    rewrite Hfull, Nat.leb_refl. reflexivity. }
  pose proof (wf_popFront q Hwf) as Hwf1.
  pose proof (count_popFront q) as Hc1.
  assert (Hcq' : count_ q' = TSize).
  { rewrite Hq'. simpl. rewrite Hc1. lia. }
  assert (Hat : forall i, i < TSize ->
            at_index TSize q' i =
              if i =? TSize - 1 then Some v else at_index TSize q (S i)).
  { intros i Hi. rewrite Hq'.
    rewrite at_index_pushBackNotFull by (try assumption; lia).
    rewrite Hc1, Hfull.
    destruct (Nat.eqb_spec i (TSize - 1)); [reflexivity|].
    apply at_index_popFront; [assumption | lia]. }
  split; [exact Hq'|]. split; [exact Hcq'|]. split; [|split].
  - unfold back, isEmpty. rewrite Hcq'.
    destruct (Nat.eqb_spec TSize 0); [lia|]. simpl.
    rewrite Hat by lia. rewrite Nat.eqb_refl. reflexivity.
  - apply list_eq. intros i.
    rewrite elements_lookup, Hcq'.
    destruct (Nat.ltb_spec i TSize) as [Hi|Hi].
    + rewrite Hat by lia.
      destruct (Nat.eqb_spec i (TSize - 1)) as [->|Hne].
      * rewrite lookup_app_r; rewrite length_tail, length_elements, Hfull;
          [|lia].
        rewrite Nat.sub_diag. reflexivity.
      * rewrite lookup_app_l
          by (rewrite length_tail, length_elements, Hfull; lia).
        rewrite lookup_tail, elements_lookup, Hfull.
        destruct (Nat.ltb_spec (S i) TSize); [reflexivity | lia].
    + rewrite lookup_ge_None_2; [reflexivity|].
      rewrite length_app, length_tail, length_elements, Hfull. simpl. lia.
  - intros behaviour w q0 Hwf0. split; split.
    + apply wf_pushBack; exact Hwf0.
    + apply (wf_count _ _ (wf_pushBack behaviour q0 w Hwf0)).
    + apply wf_pushFront; exact Hwf0.
    + apply (wf_count _ _ (wf_pushFront behaviour q0 w Hwf0)).
Qed.

End StaticQueueProperties.

(* ===================================================================== *)
(** * Part IV. Properties of the message-ID layer                         *)
(* ===================================================================== *)

(** ** Fixed-width fields *)

Section FieldCodec.

Import Comms.

Open Scope Z_scope.

Lemma lor_disjoint_add a b : Z.land a b = 0 -> Z.lor a b = a + b.
Proof. intros Hd. pose proof (Z.add_lor_land a b) as Hadd. lia. Qed.

Lemma land_255_mod c : Z.land c 255 = c mod 256.
Proof. change 255 with (Z.ones 8). rewrite Z.land_ones by lia. reflexivity. Qed.

Lemma land_shiftl_low a b k :
  0 <= k -> 0 <= a < 2 ^ k -> Z.land a (Z.shiftl b k) = 0.
Proof.
  intros Hk Ha. apply Z.bits_inj'. intros n Hn.
  rewrite Z.land_spec, Z.bits_0.
  destruct (Z.lt_ge_cases n k) as [Hlt|Hge].
  - rewrite (Z.shiftl_spec_low b k n) by lia. apply andb_false_r.
  - rewrite <- (Z.mod_small a (2 ^ k)) by lia.
    rewrite Z.mod_pow2_bits_high by lia. reflexivity.
Qed.

Lemma land_shiftl_high a b k :
  0 <= k -> 0 <= b < 2 ^ k -> Z.land (Z.shiftl a k) b = 0.
Proof. intros Hk Hb. rewrite Z.land_comm. apply land_shiftl_low; assumption. Qed.

(** *** Bytes read and written *)

Lemma sbumpc_cons c rest pa pr :
  sbumpc {| get_area := c :: rest; put_area := pa; put_room := pr |} =
    (c, {| get_area := rest; put_area := pa; put_room := pr |}).
Proof. reflexivity. Qed.

Lemma getData_big_buf n : forall value buf,
  (n <= in_avail buf)%nat ->
  snd (getData_big n value buf) =
    {| get_area := drop n (get_area buf);
       put_area := put_area buf; put_room := put_room buf |}.
Proof.
  induction n as [|n IH]; intros value [ga pa pr] Hn; simpl.
  - reflexivity.
  - unfold in_avail in Hn. simpl in Hn.
    destruct ga as [|c rest]; simpl in Hn; [lia|].
    rewrite sbumpc_cons. rewrite IH by (unfold in_avail; simpl; lia).
    reflexivity.
Qed.

Lemma getData_little_buf n : forall shift value buf,
  (n <= in_avail buf)%nat ->
  snd (getData_little n shift value buf) =
    {| get_area := drop n (get_area buf);
       put_area := put_area buf; put_room := put_room buf |}.
Proof.
  induction n as [|n IH]; intros shift value [ga pa pr] Hn; simpl.
  - reflexivity.
  - unfold in_avail in Hn. simpl in Hn.
    destruct ga as [|c rest]; simpl in Hn; [lia|].
    rewrite sbumpc_cons. rewrite IH by (unfold in_avail; simpl; lia).
    reflexivity.
Qed.

(** [getData] on a buffer that holds the field consumes exactly the
    bytes of the field and nothing else of the buffer changes. *)
Lemma getData_buf e n buf :
  (n <= in_avail buf)%nat ->
  snd (getData e n buf) =
    {| get_area := drop n (get_area buf);
       put_area := put_area buf; put_room := put_room buf |}.
Proof.
  intros Hn. unfold getData. destruct e.
  - rewrite <- (getData_big_buf n 0 buf Hn).
    destruct (getData_big n 0 buf). reflexivity.
  - rewrite <- (getData_little_buf n 0 0 buf Hn).
    destruct (getData_little n 0 0 buf). reflexivity.
Qed.

Lemma getData_consumed e n buf :
  (n <= in_avail buf)%nat -> consumed buf (snd (getData e n buf)) n.
Proof.
  intros Hn. split; [exact Hn|]. rewrite getData_buf by exact Hn. reflexivity.
Qed.

Lemma putData_big_buf n : forall value buf,
  (n <= put_room buf)%nat ->
  putData_big n value buf =
    {| get_area := get_area buf;
       put_area := put_area buf ++ bytes_big n value;
       put_room := put_room buf - n |}.
Proof.
  induction n as [|n IH]; intros value [ga pa pr] Hn; simpl in *.
  - rewrite app_nil_r, Nat.sub_0_r. reflexivity.
  - destruct pr as [|pr]; [lia|]. unfold sputc. simpl.
    rewrite IH by (simpl; lia). simpl. rewrite <- app_assoc. reflexivity.
Qed.

Lemma putData_little_buf n : forall value buf,
  (n <= put_room buf)%nat ->
  putData_little n value buf =
    {| get_area := get_area buf;
       put_area := put_area buf ++ bytes_little n value;
       put_room := put_room buf - n |}.
Proof.
  induction n as [|n IH]; intros value [ga pa pr] Hn; simpl in *.
  - rewrite app_nil_r, Nat.sub_0_r. reflexivity.
  - destruct pr as [|pr]; [lia|]. unfold sputc. simpl.
    rewrite IH by (simpl; lia). simpl. rewrite <- app_assoc. reflexivity.
Qed.

Lemma bytes_big_lookup n value i :
  (i < n)%nat ->
  bytes_big n value !! i = Some (field_byte Big n value i).
Proof.
  revert i. induction n as [|n IH]; intros i Hi; [lia|].
  destruct i as [|i]; cbn [bytes_big lookup list_lookup].
  - unfold field_byte. do 4 f_equal. lia.
  - rewrite IH by lia. unfold field_byte. do 4 f_equal. lia.
Qed.

Lemma bytes_little_lookup n : forall value i,
  (i < n)%nat ->
  bytes_little n value !! i = Some (field_byte Little n value i).
Proof.
  induction n as [|n IH]; intros value i Hi; [lia|].
  destruct i as [|i]; simpl.
  - rewrite Z.shiftr_0_r. reflexivity.
  - rewrite IH by lia. unfold field_byte.
    rewrite Z.shiftr_shiftr by lia.
    replace (8 + 8 * Z.of_nat i) with (8 * Z.of_nat (S i)) by lia.
    reflexivity.
Qed.

Lemma length_bytes_big n value : length (bytes_big n value) = n.
Proof. induction n; simpl; congruence. Qed.

Lemma length_bytes_little n : forall value, length (bytes_little n value) = n.
Proof. induction n; intros; simpl; congruence. Qed.

Lemma length_field_bytes e n value : length (field_bytes e n value) = n.
Proof. unfold field_bytes. rewrite length_fmap, length_seq. reflexivity. Qed.

Lemma field_bytes_lookup e n value i :
  (i < n)%nat -> field_bytes e n value !! i = Some (field_byte e n value i).
Proof.
  intros Hi. unfold field_bytes.
  rewrite list_lookup_fmap, lookup_seq_lt by lia. reflexivity.
Qed.

Lemma bytes_big_field n value : bytes_big n value = field_bytes Big n value.
Proof.
  apply list_eq. intros i. destruct (Nat.lt_ge_cases i n) as [Hi|Hi].
  - rewrite bytes_big_lookup, field_bytes_lookup by lia. reflexivity.
  - rewrite !lookup_ge_None_2; [reflexivity | |].
    + rewrite length_field_bytes. lia.
    + rewrite length_bytes_big. lia.
Qed.

Lemma bytes_little_field n value : bytes_little n value = field_bytes Little n value.
Proof.
  apply list_eq. intros i. destruct (Nat.lt_ge_cases i n) as [Hi|Hi].
  - rewrite bytes_little_lookup, field_bytes_lookup by lia. reflexivity.
  - rewrite !lookup_ge_None_2; [reflexivity | |].
    + rewrite length_field_bytes. lia.
    + rewrite length_bytes_little. lia.
Qed.

(** [putData] into a buffer with enough room appends exactly the bytes
    of the field. *)
Lemma putData_buf e n value buf :
  (n <= put_room buf)%nat ->
  putData e n value buf =
    {| get_area := get_area buf;
       put_area := put_area buf ++ field_bytes e n value;
       put_room := put_room buf - n |}.
Proof.
  intros Hn. destruct e; simpl.
  - rewrite putData_big_buf by exact Hn. rewrite bytes_big_field. reflexivity.
  - rewrite putData_little_buf by exact Hn. rewrite bytes_little_field. reflexivity.
Qed.

Lemma putData_written e n value buf :
  (n <= put_room buf)%nat -> written buf (putData e n value buf) n.
Proof.
  intros Hn. exists (field_bytes e n value). split.
  - apply length_field_bytes.
  - rewrite putData_buf by exact Hn. reflexivity.
Qed.

(** *** Decoding what was encoded *)

Lemma pow2_8_succ n : 2 ^ (8 * Z.of_nat (S n)) = 2 ^ (8 * Z.of_nat n) * 256.
Proof.
  replace (8 * Z.of_nat (S n)) with (8 * Z.of_nat n + 8) by lia.
  rewrite Z.pow_add_r by lia. reflexivity.
Qed.

Lemma getData_big_value n : forall acc value rest pa pr,
  fst (getData_big n acc
         {| get_area := bytes_big n value ++ rest; put_area := pa; put_room := pr |}) =
    acc * 2 ^ (8 * Z.of_nat n) + value mod 2 ^ (8 * Z.of_nat n).
Proof.
  induction n as [|n IH]; intros acc value rest pa pr.
  - simpl. rewrite Z.mod_1_r. lia.
  - cbn [bytes_big getData_big app]. rewrite sbumpc_cons. rewrite IH.
    assert (Hp : 0 < 2 ^ (8 * Z.of_nat n)) by (apply Z.pow_pos_nonneg; lia).
    set (b := Z.land (Z.land (Z.shiftr value (8 * Z.of_nat n)) 255) 255).
    assert (Hb : b = (value / 2 ^ (8 * Z.of_nat n)) mod 256).
    { subst b. rewrite !land_255_mod, Z.shiftr_div_pow2 by lia.
      rewrite Z.mod_mod by lia. reflexivity. }
    assert (Hrange : 0 <= b < 2 ^ 8).
    { rewrite Hb. change (2 ^ 8) with 256. apply Z.mod_pos_bound. lia. }
    rewrite lor_disjoint_add by (apply land_shiftl_high; [lia | exact Hrange]).
    rewrite Z.shiftl_mul_pow2 by lia. change (2 ^ 8) with 256.
    rewrite pow2_8_succ.
    rewrite (Z.rem_mul_r value (2 ^ (8 * Z.of_nat n)) 256) by lia.
    rewrite <- Hb. ring.
Qed.

Lemma getData_little_value n : forall shift acc value rest pa pr,
  0 <= shift -> 0 <= acc < 2 ^ shift ->
  fst (getData_little n shift acc
         {| get_area := bytes_little n value ++ rest; put_area := pa; put_room := pr |}) =
    acc + 2 ^ shift * (value mod 2 ^ (8 * Z.of_nat n)).
Proof.
  induction n as [|n IH]; intros shift acc value rest pa pr Hshift Hacc.
  - simpl. rewrite Z.mod_1_r. lia.
  - cbn [bytes_little getData_little app]. rewrite sbumpc_cons.
    assert (Hp : 0 < 2 ^ shift) by (apply Z.pow_pos_nonneg; lia).
    set (b := Z.land (Z.land value 255) 255).
    assert (Hb : b = value mod 256).
    { subst b. rewrite !land_255_mod. rewrite Z.mod_mod by lia. reflexivity. }
    assert (Hrange : 0 <= b < 256) by (rewrite Hb; apply Z.mod_pos_bound; lia).
    rewrite lor_disjoint_add by (apply land_shiftl_low; [lia | exact Hacc]).
    rewrite Z.shiftl_mul_pow2 by lia.
    assert (Hpow : 2 ^ (shift + 8) = 2 ^ shift * 256).
    { rewrite Z.pow_add_r by lia. reflexivity. }
    rewrite IH; [| lia | rewrite Hpow; nia].
    rewrite Hpow, Z.shiftr_div_pow2 by lia. change (2 ^ 8) with 256.
    rewrite pow2_8_succ, (Z.mul_comm (2 ^ (8 * Z.of_nat n)) 256).
    rewrite (Z.rem_mul_r value 256 (2 ^ (8 * Z.of_nat n)))
      by (try apply Z.pow_pos_nonneg; lia).
    rewrite <- Hb. ring.
Qed.

(** Reading a field back: [getData] over the bytes [putData] produced
    yields the value, provided it fits both the field and [MsgIdType]. *)
Lemma getData_field_bytes e n value rest pa pr :
  0 <= value < 2 ^ (8 * Z.of_nat n) ->
  value < MsgIdType_modulus ->
  getData e n
    {| get_area := field_bytes e n value ++ rest; put_area := pa; put_room := pr |} =
    (value, {| get_area := rest; put_area := pa; put_room := pr |}).
Proof.
  intros Hfit Hid.
  set (buf := {| get_area := field_bytes e n value ++ rest;
                 put_area := pa; put_room := pr |}).
  assert (Havail : (n <= in_avail buf)%nat).
  { unfold in_avail, buf. simpl. rewrite length_app, length_field_bytes. lia. }
  pose proof (getData_buf e n buf Havail) as Hbuf.
  assert (Hdrop : drop n (get_area buf) = rest).
  { unfold buf. simpl.
    rewrite drop_app_length'; [reflexivity | symmetry; apply length_field_bytes]. }
  rewrite Hdrop in Hbuf. simpl in Hbuf.
  assert (Hval : fst (getData e n buf) = value).
  { unfold getData, buf. destruct e.
    - rewrite <- bytes_big_field.
      pose proof (getData_big_value n 0 value rest pa pr) as Hv.
      destruct (getData_big n 0 _) as [v b]. simpl in *. subst v.
      rewrite Z.mod_small with (a := value) by lia.
      rewrite Z.mod_small; lia.
    - rewrite <- bytes_little_field.
      pose proof (getData_little_value n 0 0 value rest pa pr) as Hv.
      destruct (getData_little n 0 0 _) as [v b]. simpl in *.
      rewrite Hv by lia.
      rewrite Z.mod_small with (a := value) by lia.
      rewrite Z.mod_small; lia. }
  destruct (getData e n buf) as [v b]. simpl in Hbuf, Hval.
  subst v b. reflexivity.
Qed.

End FieldCodec.

(** ** The registry of factories *)

Section Registry.

Import Comms.

Context {Msg : Type}.

Implicit Types (f g : Factory Msg) (l : list (Factory Msg)) (id : MsgIdType).

Lemma FactoryCreator_take (AllMessages : list (MsgClass Msg)) n :
  n <= length AllMessages ->
  FactoryCreator n AllMessages = MsgFactory <$> take n AllMessages.
Proof.
  induction n as [|n IH]; intros Hn; [reflexivity|].
  cbn [FactoryCreator]. rewrite IH by lia.
  destruct (lookup_lt_is_Some_2 AllMessages n) as [c Hc]; [lia|].
  rewrite Hc. rewrite (take_S_r _ _ _ Hc), fmap_app. reflexivity.
Qed.

(** The factories the constructor creates: one per message class, in the
    order of the tuple. *)
Lemma FactoryCreator_all (AllMessages : list (MsgClass Msg)) :
  FactoryCreator (length AllMessages) AllMessages = MsgFactory <$> AllMessages.
Proof. rewrite FactoryCreator_take by lia. rewrite firstn_all. reflexivity. Qed.

(** *** [std_sort] sorts *)

Lemma sort_insert_Permutation f l : sort_insert f l ≡ₚ f :: l.
Proof.
  induction l as [|g rest IH]; simpl; [reflexivity|].
  destruct (factory_less g f); [|reflexivity].
  rewrite IH. apply Permutation_swap.
Qed.

Lemma std_sort_Permutation l : std_sort l ≡ₚ l.
Proof.
  induction l as [|f rest IH]; simpl; [reflexivity|].
  rewrite sort_insert_Permutation, IH. reflexivity.
Qed.

Lemma sort_insert_sorted f l : sorted_by_id l -> sorted_by_id (sort_insert f l).
Proof.
  unfold sorted_by_id. induction 1 as [|g rest Hs IH Hall]; simpl.
  - repeat constructor.
  - unfold factory_less. destruct (Z.ltb_spec (factory_getId g) (factory_getId f)).
    + constructor; [exact IH|].
      rewrite sort_insert_Permutation. constructor; [|exact Hall].
      unfold id_le. lia.
    + constructor; [constructor; assumption|].
      constructor; [unfold id_le; lia|].
      eapply Forall_impl; [exact Hall|]. unfold id_le. intros; lia.
Qed.

Lemma std_sort_sorted l : sorted_by_id (std_sort l).
Proof.
  induction l as [|f rest IH]; simpl.
  - constructor.
  - apply sort_insert_sorted. exact IH.
Qed.

Lemma sorted_by_id_lookup l i j f g :
  sorted_by_id l -> i <= j -> l !! i = Some f -> l !! j = Some g ->
  (factory_getId f <= factory_getId g)%Z.
Proof.
  unfold sorted_by_id. intros Hs. revert i j.
  induction Hs as [|h rest Hs IH Hall]; intros i j Hij Hi Hj.
  - rewrite lookup_nil in Hi. discriminate.
  - destruct i as [|i], j as [|j]; simpl in *; try lia.
    + assert (f = g) by congruence. subst. lia.
    + injection Hi as <-. rewrite Forall_forall in Hall.
      apply Hall. eapply list_elem_of_lookup_2. exact Hj.
    + apply (IH i j); [lia | assumption | assumption].
Qed.

(** *** [lower_bound] finds the first factory whose ID is not below [id] *)

Lemma half_lt count : 0 < count -> count / 2 < count.
Proof. intros Hc. apply Nat.div_lt; lia. Qed.

Lemma lower_bound_loop_spec l id : forall fuel first count,
  sorted_by_id l ->
  count <= fuel ->
  first + count <= length l ->
  (forall i f, i < first -> l !! i = Some f -> (factory_getId f < id)%Z) ->
  (forall i f, first + count <= i -> l !! i = Some f -> (id <= factory_getId f)%Z) ->
  let r := lower_bound_loop fuel l id first count in
  r <= length l /\
  (forall i f, i < r -> l !! i = Some f -> (factory_getId f < id)%Z) /\
  (forall i f, r <= i -> l !! i = Some f -> (id <= factory_getId f)%Z).
Proof.
  intros fuel. induction fuel as [|fuel IH]; intros first count Hs Hfuel Hlen Hlo Hhi.
  - simpl. assert (count = 0) by lia. subst count.
    rewrite Nat.add_0_r in *. split; [lia|]. split; assumption.
  - cbn [lower_bound_loop]. destruct (Nat.eqb_spec count 0) as [->|Hpos].
    + rewrite Nat.add_0_r in *. split; [lia|]. split; assumption.
    + pose proof (half_lt count ltac:(lia)) as Hstep.
      set (step := count / 2) in *.
      destruct (lookup_lt_is_Some_2 l (first + step)) as [h Hh]; [lia|].
      rewrite Hh.
      destruct (Z.ltb_spec (factory_getId h) id) as [Hlt|Hge].
      * apply IH; [assumption | lia | lia | |].
        -- intros i f Hi Hf.
           pose proof (sorted_by_id_lookup l i (first + step) f h Hs
                         ltac:(lia) Hf Hh).
           lia.
        -- intros i f Hi Hf. apply (Hhi i f); [lia | exact Hf].
      * apply IH; [assumption | lia | lia | |].
        -- intros i f Hi Hf. apply (Hlo i f); [lia | exact Hf].
        -- intros i f Hi Hf.
           pose proof (sorted_by_id_lookup l (first + step) i h f Hs
                         ltac:(lia) Hh Hf).
           lia.
Qed.

Lemma lower_bound_spec l id :
  sorted_by_id l ->
  let r := lower_bound l id in
  r <= length l /\
  (forall i f, i < r -> l !! i = Some f -> (factory_getId f < id)%Z) /\
  (forall i f, r <= i -> l !! i = Some f -> (id <= factory_getId f)%Z).
Proof.
  intros Hs. unfold lower_bound.
  apply lower_bound_loop_spec; [assumption | lia | lia | |].
  - intros i f Hi. lia.
  - intros i f Hi Hf. apply lookup_lt_Some in Hf. lia.
Qed.

(** A registered ID is found: the factory at the position returned has
    this ID. *)
Lemma lower_bound_found l id :
  sorted_by_id l -> id ∈ registered_ids l ->
  exists f, l !! lower_bound l id = Some f /\ factory_getId f = id.
Proof.
  intros Hs Hin. unfold registered_ids in Hin.
  apply list_elem_of_fmap in Hin as [g [-> Hg]].
  apply list_elem_of_lookup in Hg as [k Hk].
  destruct (lower_bound_spec l (factory_getId g) Hs) as (Hr & Hlo & Hhi).
  set (r := lower_bound l (factory_getId g)) in *.
  assert (Hrk : r <= k).
  { destruct (Nat.le_gt_cases r k) as [|Hlt]; [assumption|].
    specialize (Hlo k g Hlt Hk). lia. }
  destruct (lookup_lt_is_Some_2 l r) as [f Hf].
  { apply lookup_lt_Some in Hk. lia. }
  exists f. split; [exact Hf|].
  pose proof (Hhi r f ltac:(lia) Hf).
  pose proof (sorted_by_id_lookup l r k f g Hs Hrk Hf Hk). lia.
Qed.

(** An ID that is not registered is not found. *)
Lemma lower_bound_not_found l id f :
  id ∉ registered_ids l ->
  l !! lower_bound l id = Some f -> factory_getId f <> id.
Proof.
  intros Hnot Hf Heq. apply Hnot. unfold registered_ids.
  apply list_elem_of_fmap. exists f. split; [congruence|].
  eapply list_elem_of_lookup_2. exact Hf.
Qed.

End Registry.

(** ** The layer *)

Section Layer.

Import Comms.

Context {Msg A NL : Type}.
Context `{Message Msg} `{Allocator A} `{ProtocolLayer Msg NL}.

Variable TTraits : Traits.

Implicit Types (L : MsgIdLayer Msg A NL) (msgPtr : MsgPtr Msg) (buf : streambuf).

#[local] Abbreviation IdLen := (MsgIdLen TTraits).
#[local] Abbreviation Endian := (Endianness TTraits).

(** *** The paths of [read] *)

Lemma read_short L msgPtr buf size :
  size < IdLen -> read TTraits L msgPtr buf size = (NotEnoughData, msgPtr, buf, L).
Proof.
  intros Hsize. unfold read.
  destruct (Nat.ltb_spec size IdLen); [reflexivity | lia].
Qed.

Lemma read_not_registered L msgPtr buf size :
  IdLen <= size ->
  (getData Endian IdLen buf).1 ∉ registered_ids (factories_ L) ->
  read TTraits L msgPtr buf size =
    (InvalidMsgId, msgPtr, (getData Endian IdLen buf).2, L).
Proof.
  intros Hsize Hnot. unfold read.
  destruct (Nat.ltb_spec size IdLen); [lia|].
  destruct (getData Endian IdLen buf) as [id buf1]. simpl in *.
  destruct (factories_ L !! lower_bound (factories_ L) id) as [f|] eqn:Hf;
    [|reflexivity].
  pose proof (lower_bound_not_found _ _ _ Hnot Hf) as Hne.
  destruct (Z.eqb_spec (factory_getId f) id); [contradiction | reflexivity].
Qed.

Lemma read_alloc_fails L buf size factory :
  IdLen <= size ->
  factories_ L !! lower_bound (factories_ L) (getData Endian IdLen buf).1 =
    Some factory ->
  factory_getId factory = (getData Endian IdLen buf).1 ->
  alloc (allocator_ L) = None ->
  read TTraits L None buf size =
    (MsgAllocFaulure, None, (getData Endian IdLen buf).2, L).
Proof.
  intros Hsize Hf Hid Halloc. unfold read.
  destruct (Nat.ltb_spec size IdLen); [lia|].
  destruct (getData Endian IdLen buf) as [id buf1]. simpl in *.
  rewrite Hf. rewrite Hid, Z.eqb_refl. simpl.
  destruct factory as [c]. simpl. rewrite Halloc. simpl.
  destruct L; reflexivity.
Qed.

(** With the ID found and the object allocated, the outcome of [read] is
    the outcome of the next layer, the pointer being reset when that is
    not [Success]. *)
Lemma read_delegates L buf size c a1 status msgPtr1 buf2 next' :
  IdLen <= size ->
  factories_ L !! lower_bound (factories_ L) (getData Endian IdLen buf).1 =
    Some (MsgFactory c) ->
  MsgId c = (getData Endian IdLen buf).1 ->
  alloc (allocator_ L) = Some a1 ->
  next_read (nextLayer_ L) (Some (construct c)) (getData Endian IdLen buf).2
    (size - IdLen) = (status, msgPtr1, buf2, next') ->
  read TTraits L None buf size =
    (status,
     (if decide (status = Success) then msgPtr1 else None),
     buf2,
     {| allocator_ :=
          (if decide (status = Success)
           then match msgPtr1 with Some _ => a1 | None => release a1 end
           else release a1);
        factories_ := factories_ L;
        nextLayer_ := next' |}).
Proof.
  intros Hsize Hf Hid Halloc Hnext. unfold read.
  destruct (Nat.ltb_spec size IdLen); [lia|].
  destruct (getData Endian IdLen buf) as [id buf1]. simpl in *.
  rewrite Hf. simpl. rewrite Hid, Z.eqb_refl. simpl.
  rewrite Halloc. simpl. rewrite Hnext.
  destruct (decide (status = Success)) as [->|Hne].
  - destruct (decide (Success <> Success)); [congruence | reflexivity].
  - destruct (decide (status <> Success)); [|contradiction].
    destruct msgPtr1; reflexivity.
Qed.

(** *** Budget too small for the ID field *)

(** C4.  [read] with [size] smaller than [MsgIdLen] returns
    [NotEnoughData]; the pointer, the buffer and the layer (its allocator
    and its next layer) are returned as they were: nothing is allocated,
    no byte is consumed and the next layer is not invoked. *)
Theorem read_size_below_MsgIdLen L msgPtr buf size :
  size < IdLen ->
  read TTraits L msgPtr buf size = (NotEnoughData, msgPtr, buf, L) /\
  consumed buf (read TTraits L msgPtr buf size).1.2 0 /\
  allocator_ (read TTraits L msgPtr buf size).2 = allocator_ L /\
  nextLayer_ (read TTraits L msgPtr buf size).2 = nextLayer_ L.
Proof.
  intros Hsize. rewrite read_short by exact Hsize. simpl.
  repeat split; unfold in_avail; lia.
Qed.

(** *** [write] *)

(** C6.  [write] with [size] smaller than [MsgIdLen] returns
    [BufferOverflow] and leaves the buffer as it was.  Otherwise the result
    of [write] is the result of the next layer, with the budget
    [size - MsgIdLen], on the buffer [putData] left; within the
    precondition [size <= room] this buffer is the former one with the ID
    of the message appended to the put area as [MsgIdLen] bytes in the
    byte order of the traits. *)
Theorem write_id_then_delegate L (msg : Msg) buf size :
  (size < IdLen -> write TTraits L msg buf size = (BufferOverflow, buf)) /\
  (IdLen <= size ->
   write TTraits L msg buf size =
     next_write (nextLayer_ L) msg (putData Endian IdLen (getId msg) buf)
       (size - IdLen)) /\
  (IdLen <= size -> write_pre buf size ->
   put_area (putData Endian IdLen (getId msg) buf) =
     put_area buf ++ field_bytes Endian IdLen (getId msg) /\
   length (field_bytes Endian IdLen (getId msg)) = IdLen /\
   (forall i, i < IdLen ->
      field_bytes Endian IdLen (getId msg) !! i =
        Some (field_byte Endian IdLen (getId msg) i)) /\
   get_area (putData Endian IdLen (getId msg) buf) = get_area buf /\
   put_room (putData Endian IdLen (getId msg) buf) = put_room buf - IdLen).
Proof.
  split; [|split].
  - intros Hsize. unfold write.
    destruct (Nat.ltb_spec size IdLen); [reflexivity | lia].
  - intros Hsize. unfold write.
    destruct (Nat.ltb_spec size IdLen); [lia | reflexivity].
  - intros Hsize Hpre. unfold write_pre in Hpre.
    rewrite putData_buf by lia. simpl.
    split; [reflexivity|]. split; [apply length_field_bytes|].
    split; [intros i Hi; apply field_bytes_lookup; exact Hi|].
    split; reflexivity.
Qed.

(** *** Status and pointer *)

(** C1.  Under the preconditions of [read] (empty pointer, [size] within
    the data available), and with a next layer that reports [Success] only
    with a pointer that holds a message, the status returned is [Success]
    exactly when the pointer holds a message on return.  In particular,
    when the message was allocated and the next layer fails, the pointer
    is reset to empty and the object is released. *)
Theorem read_Success_iff_msgPtr L msgPtr buf size :
  read_pre msgPtr buf size ->
  next_read_keeps_handle ->
  ((read TTraits L msgPtr buf size).1.1.1 = Success <->
   is_Some (read TTraits L msgPtr buf size).1.1.2) /\
  (forall c a1 status msgPtr1 buf2 next',
     IdLen <= size ->
     factories_ L !! lower_bound (factories_ L) (getData Endian IdLen buf).1 =
       Some (MsgFactory c) ->
     MsgId c = (getData Endian IdLen buf).1 ->
     alloc (allocator_ L) = Some a1 ->
     next_read (nextLayer_ L) (Some (construct c)) (getData Endian IdLen buf).2
       (size - IdLen) = (status, msgPtr1, buf2, next') ->
     status <> Success ->
     read TTraits L msgPtr buf size =
       (status, None, buf2,
        {| allocator_ := release a1;
           factories_ := factories_ L;
           nextLayer_ := next' |})).
Proof.
  intros [-> Havail] Hkeep. split.
  - destruct (Nat.lt_ge_cases size IdLen) as [Hshort|Hsize].
    { rewrite read_short by exact Hshort. simpl.
      split; [discriminate | intros [m Hm]; discriminate]. }
    destruct (factories_ L !! lower_bound (factories_ L)
                               (getData Endian IdLen buf).1) as [f|] eqn:Hf.
    2:{ unfold read. destruct (Nat.ltb_spec size IdLen); [lia|].
        destruct (getData Endian IdLen buf) as [id buf1]. simpl in Hf.
        rewrite Hf. simpl.
        split; [discriminate | intros [m Hm]; discriminate]. }
    destruct (Z.eq_dec (factory_getId f) (getData Endian IdLen buf).1)
      as [Hid|Hid].
    2:{ unfold read. destruct (Nat.ltb_spec size IdLen); [lia|].
        destruct (getData Endian IdLen buf) as [id buf1]. simpl in Hf, Hid.
        rewrite Hf. apply Z.eqb_neq in Hid. rewrite Hid. simpl.
        split; [discriminate | intros [m Hm]; discriminate]. }
    destruct (alloc (allocator_ L)) as [a1|] eqn:Halloc.
    2:{ rewrite (read_alloc_fails L buf size f) by assumption. simpl.
        split; [discriminate | intros [m Hm]; discriminate]. }
    destruct f as [c]. simpl in Hid.
    destruct (next_read (nextLayer_ L) (Some (construct c))
                (getData Endian IdLen buf).2 (size - IdLen))
      as [[[status msgPtr1] buf2] next'] eqn:Hnext.
    rewrite (read_delegates L buf size c a1 status msgPtr1 buf2 next')
      by assumption.
    simpl. destruct (decide (status = Success)) as [Hs|Hs].
    + split; [intros _ | intros _; exact Hs].
      eapply Hkeep; [exact Hnext | exact Hs].
    + split; [contradiction | intros [m Hm]; discriminate].
  - intros c a1 status msgPtr1 buf2 next' Hsize Hf Hid Halloc Hnext Hfail.
    rewrite (read_delegates L buf size c a1 status msgPtr1 buf2 next')
      by assumption.
    destruct (decide (status = Success)); [contradiction | reflexivity].
Qed.

(** *** Looking the ID up *)

Lemma registry_of_Permutation (AllMessages : list (MsgClass Msg)) :
  registry_of AllMessages ≡ₚ MsgFactory <$> AllMessages.
Proof.
  unfold registry_of. rewrite std_sort_Permutation, FactoryCreator_all. reflexivity.
Qed.

Lemma registered_ids_registry (AllMessages : list (MsgClass Msg)) :
  registered_ids (registry_of AllMessages) ≡ₚ MsgId <$> AllMessages.
Proof.
  unfold registered_ids. rewrite registry_of_Permutation.
  rewrite <- list_fmap_compose. reflexivity.
Qed.

Lemma registry_of_elem (AllMessages : list (MsgClass Msg)) c :
  MsgFactory c ∈ registry_of AllMessages <-> c ∈ AllMessages.
Proof.
  rewrite registry_of_Permutation. rewrite list_elem_of_fmap. split.
  - intros [c' [Heq Hin]]. injection Heq as ->. exact Hin.
  - intros Hin. exists c. split; [reflexivity | exact Hin].
Qed.

Lemma NoDup_fmap_eq {X Y : Type} (g : X -> Y) (l : list X) x y :
  NoDup (g <$> l) -> x ∈ l -> y ∈ l -> g x = g y -> x = y.
Proof.
  induction l as [|z rest IH]; intros Hnd Hx Hy Hg.
  - apply elem_of_nil in Hx. contradiction.
  - rewrite fmap_cons in Hnd. apply NoDup_cons in Hnd as [Hz Hnd].
    apply elem_of_cons in Hx as [->|Hx]; apply elem_of_cons in Hy as [->|Hy].
    + reflexivity.
    + exfalso. apply Hz. rewrite Hg. apply list_elem_of_fmap. eauto.
    + exfalso. apply Hz. rewrite <- Hg. apply list_elem_of_fmap. eauto.
    + apply IH; assumption.
Qed.

(** The binary search over the registry built for [AllMessages] finds
    the factory of a class with the ID searched for, when there is one. *)
Lemma registry_lookup_registered L (AllMessages : list (MsgClass Msg)) id :
  factories_ L = registry_of AllMessages ->
  id ∈ MsgId <$> AllMessages ->
  exists c,
    c ∈ AllMessages /\ MsgId c = id /\
    factories_ L !! lower_bound (factories_ L) id = Some (MsgFactory c).
Proof.
  intros Hreg Hin.
  assert (Hin' : id ∈ registered_ids (factories_ L)).
  { rewrite Hreg, registered_ids_registry. exact Hin. }
  destruct (lower_bound_found (factories_ L) _
              ltac:(rewrite Hreg; apply std_sort_sorted) Hin')
    as [[c] [Hf Hid]].
  simpl in Hid. exists c. split; [|split; assumption].
  apply registry_of_elem. rewrite <- Hreg.
  eapply list_elem_of_lookup_2. exact Hf.
Qed.

(** C2.  Let the registry of the layer be the one built for the message
    classes [AllMessages], and let the budget cover the ID field.  If the
    decoded ID is the ID of a registered class, the binary search selects
    the factory of a class with exactly this ID (the only such class when
    the IDs are pairwise distinct) and, the object once allocated, the
    result of [read] is the result of the next layer on the object this
    factory created.  If the decoded ID is not registered, [read] returns
    [InvalidMsgId] and the pointer stays empty. *)
Theorem read_selects_factory_by_id L (AllMessages : list (MsgClass Msg)) buf size :
  factories_ L = registry_of AllMessages ->
  IdLen <= size ->
  ((getData Endian IdLen buf).1 ∈ MsgId <$> AllMessages ->
   exists c,
     c ∈ AllMessages /\
     MsgId c = (getData Endian IdLen buf).1 /\
     (NoDup (MsgId <$> AllMessages) ->
      forall c', c' ∈ AllMessages -> MsgId c' = (getData Endian IdLen buf).1 -> c' = c) /\
     factories_ L !! lower_bound (factories_ L) (getData Endian IdLen buf).1 =
       Some (MsgFactory c) /\
     (forall a1 status msgPtr1 buf2 next',
        alloc (allocator_ L) = Some a1 ->
        next_read (nextLayer_ L) (Some (construct c)) (getData Endian IdLen buf).2
          (size - IdLen) = (status, msgPtr1, buf2, next') ->
        read TTraits L None buf size =
          (status,
           (if decide (status = Success) then msgPtr1 else None),
           buf2,
           {| allocator_ :=
                (if decide (status = Success)
                 then match msgPtr1 with Some _ => a1 | None => release a1 end
                 else release a1);
              factories_ := factories_ L;
              nextLayer_ := next' |}))) /\
  ((getData Endian IdLen buf).1 ∉ MsgId <$> AllMessages ->
   read TTraits L None buf size =
     (InvalidMsgId, None, (getData Endian IdLen buf).2, L)).
Proof.
  intros Hreg Hsize. split.
  - intros Hin.
    destruct (registry_lookup_registered L AllMessages _ Hreg Hin)
      as (c & Hc & Hid & Hf).
    exists c. split; [exact Hc|]. split; [exact Hid|]. split; [|split].
    + intros Hnd c' Hc' Hid'.
      apply (NoDup_fmap_eq MsgId AllMessages); [assumption.. | congruence].
    + exact Hf.
    + intros a1 status msgPtr1 buf2 next' Halloc Hnext.
      apply (read_delegates L buf size c a1 status msgPtr1 buf2 next');
        assumption.
  - intros Hnot. apply read_not_registered; [exact Hsize|].
    rewrite Hreg, registered_ids_registry. exact Hnot.
Qed.

(** *** Budgets *)

Lemma consumed_refl buf : consumed buf buf 0.
Proof. split; [lia | reflexivity]. Qed.

Lemma consumed_trans buf1 buf2 buf3 k1 k2 :
  consumed buf1 buf2 k1 -> consumed buf2 buf3 k2 -> consumed buf1 buf3 (k1 + k2).
Proof.
  unfold consumed, in_avail. intros [Hk1 H12] [Hk2 H23].
  rewrite H12 in Hk2. rewrite length_drop in Hk2. split; [lia|].
  rewrite H23, H12, drop_drop. reflexivity.
Qed.

Lemma written_refl buf : written buf buf 0.
Proof. exists []. split; [reflexivity | rewrite app_nil_r; reflexivity]. Qed.

Lemma written_trans buf1 buf2 buf3 k1 k2 :
  written buf1 buf2 k1 -> written buf2 buf3 k2 -> written buf1 buf3 (k1 + k2).
Proof.
  intros (w1 & Hl1 & H12) (w2 & Hl2 & H23). exists (w1 ++ w2). split.
  - rewrite length_app. lia.
  - rewrite H23, H12, app_assoc. reflexivity.
Qed.

(** A path that stops before the next layer consumes nothing more. *)
Ltac nothing_consumed := exists 0; split; [lia | apply consumed_refl].

Lemma read_within_budget L msgPtr buf size :
  next_read_within_budget ->
  size <= in_avail buf ->
  (size < IdLen -> consumed buf (read TTraits L msgPtr buf size).1.2 0) /\
  (IdLen <= size ->
   exists k,
     k <= size - IdLen /\
     consumed buf (getData Endian IdLen buf).2 IdLen /\
     consumed (getData Endian IdLen buf).2 (read TTraits L msgPtr buf size).1.2 k /\
     consumed buf (read TTraits L msgPtr buf size).1.2 (IdLen + k)).
Proof.
  intros Hnext Havail. split.
  - intros Hshort. rewrite read_short by exact Hshort. apply consumed_refl.
  - intros Hsize.
    pose proof (getData_consumed Endian IdLen buf ltac:(lia)) as Hid.
    assert (Hrest : size - IdLen <= in_avail (getData Endian IdLen buf).2).
    { destruct Hid as [_ Hga]. unfold in_avail in *. rewrite Hga, length_drop. lia. }
    assert (Hgoal : exists k, k <= size - IdLen /\
              consumed (getData Endian IdLen buf).2
                (read TTraits L msgPtr buf size).1.2 k).
    { unfold read. destruct (Nat.ltb_spec size IdLen); [lia|].
      destruct (getData Endian IdLen buf) as [id buf1]. simpl in Hid, Hrest |- *.
      destruct (factories_ L !! lower_bound (factories_ L) id) as [f|];
        [|nothing_consumed].
      destruct (negb (factory_getId f =? id)%Z); [nothing_consumed|].
      destruct (factory_create f (allocator_ L)) as [newPtr a1].
      destruct newPtr as [m|]; [|nothing_consumed].
      destruct (Hnext (nextLayer_ L) (Some m) buf1 (size - IdLen) Hrest)
        as (k & Hk & Hcons).
      destruct (next_read (nextLayer_ L) (Some m) buf1 (size - IdLen))
        as [[[status msgPtr1] buf2] next'].
      simpl in Hcons. exists k. split; [exact Hk|].
      destruct (decide (status <> Success)); [|exact Hcons].
      destruct (reset msgPtr1 _) as [msgPtr2 a4]. exact Hcons. }
    destruct Hgoal as (k & Hk & Hcons). exists k.
    split; [exact Hk|]. split; [exact Hid|]. split; [exact Hcons|].
    eapply consumed_trans; eassumption.
Qed.

Lemma write_within_budget L (msg : Msg) buf size :
  next_write_within_budget ->
  size <= put_room buf ->
  (size < IdLen -> written buf (write TTraits L msg buf size).2 0) /\
  (IdLen <= size ->
   exists k,
     k <= size - IdLen /\
     written buf (putData Endian IdLen (getId msg) buf) IdLen /\
     written (putData Endian IdLen (getId msg) buf)
       (write TTraits L msg buf size).2 k /\
     written buf (write TTraits L msg buf size).2 (IdLen + k)).
Proof.
  intros Hnext Hroom. split.
  - intros Hshort. unfold write.
    destruct (Nat.ltb_spec size IdLen); [|lia]. apply written_refl.
  - intros Hsize.
    pose proof (putData_written Endian IdLen (getId msg) buf ltac:(lia)) as Hid.
    assert (Hrest : size - IdLen <= put_room (putData Endian IdLen (getId msg) buf)).
    { rewrite putData_buf by lia. simpl. lia. }
    destruct (Hnext (nextLayer_ L) msg _ (size - IdLen) Hrest) as (k & Hk & Hw).
    exists k. unfold write. destruct (Nat.ltb_spec size IdLen); [lia|].
    split; [exact Hk|]. split; [exact Hid|]. split; [exact Hw|].
    eapply written_trans; eassumption.
Qed.


(** *** Writing, then reading *)


(** *** The registry *)

Lemma read_keeps_factories L msgPtr buf size :
  factories_ (read TTraits L msgPtr buf size).2 = factories_ L.
Proof.
  unfold read. destruct (size <? IdLen); [reflexivity|].
  destruct (getData Endian IdLen buf) as [id buf1].
  destruct (factories_ L !! lower_bound (factories_ L) id) as [f|]; [|reflexivity].
  destruct (negb (factory_getId f =? id)%Z); [reflexivity|].
  destruct (factory_create f (allocator_ L)) as [newPtr a1].
  destruct newPtr as [m|]; [|reflexivity].
  destruct (next_read (nextLayer_ L) (Some m) buf1 (size - IdLen))
    as [[[status msgPtr1] buf2] next'].
  destruct (decide (status <> Success)); [|reflexivity].
  destruct (reset msgPtr1 _) as [msgPtr2 a4]. reflexivity.
Qed.

(** C7, as the code has it.  The registry the constructor builds holds
    exactly one factory per configured message class, duplicated IDs
    included, in ascending order of the raw numeric ID; [read] returns the
    layer with the same registry ([write] is [const] and returns no layer
    at all).  No configuration is rejected; when the configured IDs are
    pairwise distinct, so are the IDs of the registry. *)
Theorem registry_sorted_and_kept (AllMessages : list (MsgClass Msg)) (next : NL) :
  sorted_by_id (factories_ (MsgIdLayer_ctor AllMessages next)) /\
  factories_ (MsgIdLayer_ctor AllMessages next) ≡ₚ MsgFactory <$> AllMessages /\
  registered_ids (factories_ (MsgIdLayer_ctor AllMessages next)) ≡ₚ
    MsgId <$> AllMessages /\
  (forall L msgPtr buf size,
     factories_ (read TTraits L msgPtr buf size).2 = factories_ L) /\
  (NoDup (MsgId <$> AllMessages) <->
   NoDup (registered_ids (factories_ (MsgIdLayer_ctor AllMessages next)))).
Proof.
  simpl. split; [apply std_sort_sorted|].
  split; [apply registry_of_Permutation|].
  split; [apply registered_ids_registry|].
  split; [intros; apply read_keeps_factories|].
  rewrite registered_ids_registry. reflexivity.
Qed.

End Layer.

(** ** Allocation failure and the in-place allocator *)

Section Allocation.

Import Comms.

Context {Msg NL : Type}.
Context `{Message Msg} `{ProtocolLayer Msg NL}.

Variable TTraits : Traits.

(** C5.  Whatever the allocator, when the ID field matches a registered
    factory and [create] returns an empty pointer, [read] returns the
    allocation failure status with an empty pointer, and the layer is as
    before.  With the in-place allocator this is what happens while the
    slot is occupied; once the message occupying it is released, the same
    call passes the allocation and its outcome is the outcome of the next
    layer: it returns [Success] with the message the next layer read. *)
Theorem read_alloc_failure_then_release :
  (forall (A : Type) (HA : Allocator A) (L : MsgIdLayer Msg A NL) buf size factory,
     MsgIdLen TTraits <= size ->
     factories_ L !! lower_bound (factories_ L)
       (getData (Endianness TTraits) (MsgIdLen TTraits) buf).1 = Some factory ->
     factory_getId factory =
       (getData (Endianness TTraits) (MsgIdLen TTraits) buf).1 ->
     alloc (allocator_ L) = None ->
     read TTraits L None buf size =
       (MsgAllocFaulure, None,
        (getData (Endianness TTraits) (MsgIdLen TTraits) buf).2, L)) /\
  (forall (L : MsgIdLayer Msg InPlaceMsgAllocator NL) buf size c,
     MsgIdLen TTraits <= size ->
     factories_ L !! lower_bound (factories_ L)
       (getData (Endianness TTraits) (MsgIdLen TTraits) buf).1 =
       Some (MsgFactory c) ->
     MsgId c = (getData (Endianness TTraits) (MsgIdLen TTraits) buf).1 ->
     allocator_ L = InPlace true ->
     read TTraits L None buf size =
       (MsgAllocFaulure, None,
        (getData (Endianness TTraits) (MsgIdLen TTraits) buf).2, L) /\
     (forall msg buf2 next',
        next_read (nextLayer_ L) (Some (construct c))
          (getData (Endianness TTraits) (MsgIdLen TTraits) buf).2
          (size - MsgIdLen TTraits) = (Success, Some msg, buf2, next') ->
        read TTraits (release_message L) None buf size =
          (Success, Some msg, buf2,
           {| allocator_ := InPlace true;
              factories_ := factories_ L;
              nextLayer_ := next' |}))).
Proof.
  split.
  - intros A HA L buf size factory Hsize Hf Hid Halloc.
    apply (read_alloc_fails TTraits L buf size factory); assumption.
  - intros L buf size c Hsize Hf Hid Hocc. split.
    + apply (read_alloc_fails TTraits L buf size (MsgFactory c));
        [assumption.. |]. rewrite Hocc. reflexivity.
    + intros msg buf2 next' Hnext.
      rewrite (read_delegates TTraits (release_message L) buf size c
                 (InPlace true) Success (Some msg) buf2 next');
        try assumption; try reflexivity.
Qed.

End Allocation.

(* ===================================================================== *)
(** * Part V. The layer over the terminal layer and the test messages     *)
(* ===================================================================== *)

Section TestStack.

Import Comms.

(** [MsgDataLayer] reads into the object it is given and never empties
    the pointer. *)
Lemma MsgDataLayer_keeps_handle {Msg : Type} `{Message Msg} :
  next_read_keeps_handle (Msg := Msg) (NL := MsgDataLayer).
Proof.
  intros next msg buf size status msgPtr' buf' next' Hread _.
  simpl in Hread. destruct (msg_read msg buf size) as [[st m'] b'].
  injection Hread as _ <- _ _. eauto.
Qed.

Lemma MsgDataLayer_read_within_budget :
  next_read_within_budget (Msg := TestMessage) (NL := MsgDataLayer).
Proof.
  intros next msgPtr buf size Havail.
  destruct msgPtr as [[id value|id]|]; simpl.
  - destruct (Nat.ltb_spec size 2).
    + exists 0. split; [lia | apply consumed_refl].
    + exists 2. split; [lia|].
      pose proof (getData_consumed Big 2 buf ltac:(lia)) as Hc.
      destruct (getData Big 2 buf) as [v b]. exact Hc.
  - exists 0. split; [lia | apply consumed_refl].
  - exists 0. split; [lia | apply consumed_refl].
Qed.

Lemma MsgDataLayer_write_within_budget :
  next_write_within_budget (Msg := TestMessage) (NL := MsgDataLayer).
Proof.
  intros next msg buf size Hroom.
  destruct msg as [id value|id]; simpl.
  - destruct (Nat.ltb_spec size 2).
    + exists 0. split; [lia | apply written_refl].
    + exists 2. split; [lia|]. apply putData_written. lia.
  - exists 0. split; [lia | apply written_refl].
Qed.

(** A message carrying a 16-bit value is read back as it was written. *)
Lemma ValueMessage_round_trip id value :
  (0 <= value < 2 ^ 16)%Z ->
  next_round_trip mkMsgDataLayer (ValueMessage id value) (ValueMessage id 0).
Proof.
  intros Hvalue buf size buf' Hroom Hwrite. simpl in Hwrite.
  destruct (Nat.ltb_spec size 2) as [|Hsize]; [discriminate|].
  injection Hwrite as <-. rewrite putData_buf by lia. simpl.
  exists (field_bytes Big 2 value). split; [reflexivity|].
  intros rest pa pr. exists mkMsgDataLayer.
  cbn [next_read MsgDataLayer_ProtocolLayer msg_read TestMessage_Message].
  rewrite length_field_bytes. change (2 <? 2) with false. cbv iota.
  rewrite getData_field_bytes; [reflexivity | exact Hvalue |].
  unfold MsgIdType_modulus. lia.
Qed.

Lemma EmptyMessage_round_trip id :
  next_round_trip mkMsgDataLayer (EmptyMessage id) (EmptyMessage id).
Proof.
  intros buf size buf' Hroom Hwrite. simpl in Hwrite. injection Hwrite as <-.
  exists []. split; [rewrite app_nil_r; reflexivity|].
  intros rest pa pr. exists mkMsgDataLayer. reflexivity.
Qed.

End TestStack.

(* ===================================================================== *)
(** * Part VI. The theorems at concrete inputs                            *)
(* ===================================================================== *)

Import StaticQueue Comms.

(** ** The concrete scenarios of the specification *)

Example scenario_value_message :
  read TestTraits TestStack None (InputBuf [0; 1; 2; 3]%Z) 4 =
    (Success, Some (ValueMessage 1%Z 515%Z), InputBuf [],
     {| allocator_ := InPlace true;
        factories_ := factories_ TestStack;
        nextLayer_ := mkMsgDataLayer |}).
Proof. reflexivity. Qed.

Example scenario_body_missing :
  (read TestTraits TestStack None (InputBuf [0; 1]%Z) 2).1.1 =
    (NotEnoughData, None).
Proof. reflexivity. Qed.

Example scenario_unknown_id :
  (read TestTraits TestStack None (InputBuf [0; 255]%Z) 2).1.1 =
    (InvalidMsgId, None).
Proof. reflexivity. Qed.

(** ** The queue *)

Lemma wf_fullQueue3 : wf 3 fullQueue3.
Proof.
  split; simpl; try lia.
  intros i Hi. do 3 (destruct i as [|i]; [vm_compute; eauto|]). lia.
Defined.

Lemma push_full_IgnoreError_unchanged_witness :
  size fullQueue3 = capacity 3 /\
  pushBack 3 IgnoreError 9 fullQueue3 = fullQueue3 /\
  pushFront 3 IgnoreError 9 fullQueue3 = fullQueue3.
Proof.
  split; [reflexivity|].
  destruct (push_full_IgnoreError_unchanged 3 fullQueue3 9 eq_refl)
    as (Hback & Hfront & _).
  split; assumption.
Defined.

Lemma pushBack_Overwrite_full_witness :
  wf 3 fullQueue3 /\
  size fullQueue3 = capacity 3 /\
  elements 3 (pushBack 3 Overwrite 9 fullQueue3) =
    tail (elements 3 fullQueue3) ++ [Some 9].
Proof.
  split; [exact wf_fullQueue3|]. split; [reflexivity|].
  destruct (pushBack_Overwrite_full 3 fullQueue3 9 wf_fullQueue3 eq_refl)
    as (_ & _ & _ & Helements & _).
  exact Helements.
Defined.

(** ** The layer *)

Lemma read_Success_iff_msgPtr_witness :
  read_pre (None : MsgPtr TestMessage) (InputBuf [0; 1; 2; 3]%Z) 4 /\
  ((read TestTraits TestStack None (InputBuf [0; 1; 2; 3]%Z) 4).1.1.1 = Success <->
   is_Some (read TestTraits TestStack None (InputBuf [0; 1; 2; 3]%Z) 4).1.1.2).
Proof.
  assert (Hpre : read_pre (None : MsgPtr TestMessage) (InputBuf [0; 1; 2; 3]%Z) 4).
  { split; [reflexivity | vm_compute; lia]. }
  split; [exact Hpre|].
  exact (proj1 (read_Success_iff_msgPtr TestTraits TestStack None
                  (InputBuf [0; 1; 2; 3]%Z) 4 Hpre MsgDataLayer_keeps_handle)).
Defined.

Lemma read_selects_factory_by_id_witness :
  factories_ TestStack = registry_of TestMessages /\
  MsgIdLen TestTraits <= 2 /\
  read TestTraits TestStack None (InputBuf [0; 255]%Z) 2 =
    (InvalidMsgId, None, InputBuf [], TestStack).
Proof.
  split; [reflexivity|]. split; [simpl; lia|].
  apply (proj2 (read_selects_factory_by_id TestTraits TestStack TestMessages
                  (InputBuf [0; 255]%Z) 2 eq_refl ltac:(simpl; lia))).
  vm_compute. intros Hin. repeat (apply elem_of_cons in Hin as [Hin|Hin]; [discriminate|]).
  apply elem_of_nil in Hin. exact Hin.
Defined.


Lemma read_size_below_MsgIdLen_witness :
  1 < MsgIdLen TestTraits /\
  read TestTraits TestStack None (InputBuf [0]%Z) 1 =
    (NotEnoughData, None, InputBuf [0]%Z, TestStack).
Proof.
  split; [simpl; lia|].
  apply (proj1 (read_size_below_MsgIdLen TestTraits TestStack None
                  (InputBuf [0]%Z) 1 ltac:(simpl; lia))).
Defined.

Lemma read_alloc_failure_then_release_witness :
  (read TestTraits TestStack None (InputBuf [0; 1; 2; 3]%Z) 4).1.1.1 = Success /\
  read TestTraits (read TestTraits TestStack None (InputBuf [0; 1; 2; 3]%Z) 4).2
    None (InputBuf [0; 1; 2; 3]%Z) 4 =
    (MsgAllocFaulure, None, InputBuf [2; 3]%Z,
     (read TestTraits TestStack None (InputBuf [0; 1; 2; 3]%Z) 4).2) /\
  read TestTraits
    (release_message (read TestTraits TestStack None (InputBuf [0; 1; 2; 3]%Z) 4).2)
    None (InputBuf [0; 1; 2; 3]%Z) 4 =
    (Success, Some (ValueMessage 1%Z 515%Z), InputBuf [],
     (read TestTraits TestStack None (InputBuf [0; 1; 2; 3]%Z) 4).2).
Proof.
  split; [reflexivity|].
  destruct (proj2 (read_alloc_failure_then_release TestTraits)
              (read TestTraits TestStack None (InputBuf [0; 1; 2; 3]%Z) 4).2
              (InputBuf [0; 1; 2; 3]%Z) 4 (ValueMessageClass 1%Z)
              ltac:(simpl; lia) eq_refl eq_refl eq_refl) as [Hfail Hretry].
  split; [exact Hfail|].
  exact (Hretry (ValueMessage 1%Z 515%Z) (InputBuf []) mkMsgDataLayer eq_refl).
Defined.

Lemma write_id_then_delegate_witness :
  write TestTraits TestStack (ValueMessage 1%Z 515%Z) (OutputBuf 2) 1 =
    (BufferOverflow, OutputBuf 2) /\
  write TestTraits TestStack (ValueMessage 1%Z 515%Z) (OutputBuf 4) 4 =
    next_write mkMsgDataLayer (ValueMessage 1%Z 515%Z)
      (putData Big 2 1%Z (OutputBuf 4)) 2 /\
  put_area (putData Big 2 1%Z (OutputBuf 4)) = [] ++ field_bytes Big 2 1%Z.
Proof.
  destruct (write_id_then_delegate TestTraits TestStack
              (ValueMessage 1%Z 515%Z) (OutputBuf 2) 1) as [Hshort _].
  destruct (write_id_then_delegate TestTraits TestStack
              (ValueMessage 1%Z 515%Z) (OutputBuf 4) 4) as (_ & Hlong & Hbytes).
  split; [|split].
  - apply Hshort. simpl. lia.
  - apply Hlong. simpl. lia.
  - destruct Hbytes as [Hput _].
    + simpl. lia.
    + unfold write_pre. simpl. lia.
    + exact Hput.
Defined.


(** ** Configurations the constructor accepts *)

(** The constructor accepts a configuration in which two message classes
    share an ID and builds a registry that holds both factories. *)
Lemma ctor_keeps_shared_ids :
  registered_ids (factories_ SharedIdStack) = [1; 1]%Z /\
  ~ NoDup (registered_ids (factories_ SharedIdStack)).
Proof.
  split; [reflexivity|].
  simpl. intros Hnd. apply NoDup_cons in Hnd as [Hnot _].
  apply Hnot. apply list_elem_of_here.
Qed.

(** ** Outside the hypotheses of [write_read_round_trip] *)

(** With a shared ID the search selects the factory that comes first in
    the sorted registry (which of the two that is, [std::sort] leaves
    open), so a message of the other class is read into an object of the
    class selected. *)
Example round_trip_with_shared_id :
  write TestTraits SharedIdStack (EmptyMessage 1%Z) (OutputBuf 2) 2 =
    (Success, {| get_area := []; put_area := [0; 1]%Z; put_room := 0 |}) /\
  (read TestTraits SharedIdStack None (InputBuf [0; 1]%Z) 2).1.1 =
    (NotEnoughData, None).
Proof. split; reflexivity. Qed.

(** An ID that does not fit the ID field is written truncated to the
    width of the field, and [read] looks the truncated value up. *)
Example round_trip_with_wide_id :
  write OneByteIdTraits WideIdStack (EmptyMessage 256%Z) (OutputBuf 1) 1 =
    (Success, {| get_area := []; put_area := [0]%Z; put_room := 0 |}) /\
  (read OneByteIdTraits WideIdStack None (InputBuf [0]%Z) 1).1.1 =
    (InvalidMsgId, None).
Proof. split; reflexivity. Qed.


(* ===================================================================== *)
(** * Part VII. The other members of the static queue                     *)
(* ===================================================================== *)

Section StaticQueueMembers.

Import StaticQueue.

Context {T : Type}.
Variable TSize : nat.

Implicit Types (q : Queue T) (v : T).

(** Case analysis on every boolean comparison of naturals in the goal. *)
Ltac case_nat_tests :=
  repeat match goal with
         | |- context [?a <=? ?b] => destruct (Nat.leb_spec a b)
         | |- context [?a <? ?b] => destruct (Nat.ltb_spec a b)
         | |- context [?a =? ?b] => destruct (Nat.eqb_spec a b)
         end.

(** ** One element more, one element less *)

Lemma elements_popFront q :
  wf TSize q -> elements TSize (popFront TSize q) = tail (elements TSize q).
Proof.
  intros Hwf. apply list_eq. intros i.
  rewrite lookup_tail, !elements_lookup, count_popFront.
  destruct (Nat.ltb_spec i (count_ q - 1)), (Nat.ltb_spec (S i) (count_ q));
    try lia; [|reflexivity].
  rewrite at_index_popFront by (try assumption; lia). reflexivity.
Qed.

Lemma elements_popBack q :
  wf TSize q ->
  elements TSize (popBack TSize q) = take (count_ q - 1) (elements TSize q).
Proof.
  intros Hwf. apply list_eq. intros i.
  rewrite elements_lookup, count_popBack.
  destruct (Nat.ltb_spec i (count_ q - 1)).
  - rewrite lookup_take_lt by lia. rewrite elements_lookup.
    destruct (Nat.ltb_spec i (count_ q)); [|lia].
    rewrite at_index_popBack by (try assumption; lia). reflexivity.
  - rewrite lookup_take_ge by lia. reflexivity.
Qed.

Lemma elements_pushBackNotFull q v :
  wf TSize q -> count_ q < TSize ->
  elements TSize (pushBackNotFull TSize v q) = elements TSize q ++ [Some v].
Proof.
  intros Hwf Hroom. apply list_eq. intros i.
  rewrite elements_lookup. cbn [pushBackNotFull createValueAtIndex count_].
  destruct (Nat.ltb_spec i (count_ q + 1)).
  - rewrite at_index_pushBackNotFull by (try assumption; lia).
    destruct (Nat.eqb_spec i (count_ q)) as [->|Hne].
    + rewrite lookup_app_r by (rewrite length_elements; lia).
      rewrite length_elements, Nat.sub_diag. reflexivity.
    + rewrite lookup_app_l by (rewrite length_elements; lia).
      rewrite elements_lookup. destruct (Nat.ltb_spec i (count_ q)); [reflexivity | lia].
  - rewrite lookup_ge_None_2; [reflexivity|].
    rewrite length_app, length_elements. simpl. lia.
Qed.

Lemma elements_pushFrontNotFull q v :
  wf TSize q -> count_ q < TSize ->
  elements TSize (pushFrontNotFull TSize v q) = Some v :: elements TSize q.
Proof.
  intros Hwf Hroom. apply list_eq. intros i.
  rewrite elements_lookup. cbn [pushFrontNotFull createValueAtIndex count_].
  destruct (Nat.ltb_spec i (count_ q + 1)).
  - rewrite at_index_pushFrontNotFull by (try assumption; lia).
    destruct i as [|j]; [reflexivity|].
    change ((Some v :: elements TSize q) !! S j) with (elements TSize q !! j).
    rewrite elements_lookup.
    destruct (Nat.ltb_spec j (count_ q)); [reflexivity | lia].
  - destruct i as [|j]; [lia|].
    change ((Some v :: elements TSize q) !! S j) with (elements TSize q !! j).
    rewrite lookup_ge_None_2; [reflexivity|]. rewrite length_elements. lia.
Qed.

(** X1.  [popFront()] removes the first element and nothing else; on an empty
    queue it does nothing. *)
Theorem popFront_removes_front q :
  wf TSize q ->
  wf TSize (popFront TSize q) /\
  size (popFront TSize q) = size q - 1 /\
  elements TSize (popFront TSize q) = tail (elements TSize q) /\
  (size q = 0 -> popFront TSize q = q).
Proof.
  intros Hwf. split; [apply wf_popFront; exact Hwf|].
  split; [apply count_popFront|]. split; [apply elements_popFront; exact Hwf|].
  unfold size, popFront, isEmpty. intros ->. reflexivity.
Qed.

(** X2.  [popBack()] removes the last element and nothing else; on an empty
    queue it does nothing. *)
Theorem popBack_removes_back q :
  wf TSize q ->
  wf TSize (popBack TSize q) /\
  size (popBack TSize q) = size q - 1 /\
  elements TSize (popBack TSize q) = take (size q - 1) (elements TSize q) /\
  (size q = 0 -> popBack TSize q = q).
Proof.
  intros Hwf. split; [apply wf_popBack; exact Hwf|].
  split; [apply count_popBack|]. split; [apply elements_popBack; exact Hwf|].
  unfold size, popBack, isEmpty. intros ->. reflexivity.
Qed.

Lemma pushBack_not_full behaviour q v :
  count_ q < TSize -> pushBack TSize behaviour v q = pushBackNotFull TSize v q.
Proof.
  intros Hroom. destruct behaviour; simpl;
    unfold pushBack_IgnoreError, pushBack_Overwrite, isFull, capacity;
    destruct (Nat.leb_spec TSize (count_ q)); try lia; reflexivity.
Qed.

Lemma pushFront_not_full behaviour q v :
  count_ q < TSize -> pushFront TSize behaviour v q = pushFrontNotFull TSize v q.
Proof.
  intros Hroom. destruct behaviour; simpl;
    unfold pushFront_IgnoreError, pushFront_Overwrite, isFull, capacity;
    destruct (Nat.leb_spec TSize (count_ q)); try lia; reflexivity.
Qed.

(** X3.  On a queue that is not full, [pushBack] (under either overflow
    behaviour) appends the value: the elements are the former ones
    followed by the new one, which is [back()]. *)
Theorem pushBack_appends behaviour q v :
  wf TSize q ->
  size q < capacity TSize ->
  size (pushBack TSize behaviour v q) = size q + 1 /\
  elements TSize (pushBack TSize behaviour v q) = elements TSize q ++ [Some v] /\
  back TSize (pushBack TSize behaviour v q) = Some v.
Proof.
  unfold size, capacity. intros Hwf Hroom.
  rewrite pushBack_not_full by exact Hroom.
  split; [reflexivity|]. split; [apply elements_pushBackNotFull; assumption|].
  unfold back, isEmpty. cbn [pushBackNotFull createValueAtIndex count_].
  destruct (Nat.eqb_spec (count_ q + 1) 0); [lia|]. cbn [negb].
  change (at_index TSize (pushBackNotFull TSize v q) (count_ q + 1 - 1) = Some v).
  rewrite at_index_pushBackNotFull by (try assumption; lia).
  destruct (Nat.eqb_spec (count_ q + 1 - 1) (count_ q)); [reflexivity | lia].
Qed.

(** X4.  On a queue that is not full, [pushFront] (under either overflow
    behaviour) prepends the value, which becomes [front()]. *)
Theorem pushFront_prepends behaviour q v :
  wf TSize q ->
  size q < capacity TSize ->
  size (pushFront TSize behaviour v q) = size q + 1 /\
  elements TSize (pushFront TSize behaviour v q) = Some v :: elements TSize q /\
  front TSize (pushFront TSize behaviour v q) = Some v.
Proof.
  unfold size, capacity. intros Hwf Hroom.
  rewrite pushFront_not_full by exact Hroom.
  split; [reflexivity|]. split; [apply elements_pushFrontNotFull; assumption|].
  unfold front. rewrite at_index_pushFrontNotFull by (try assumption; lia).
  reflexivity.
Qed.

(** X5.  With the behaviour [Overwrite], [pushFront] on a full queue drops the
    last element and prepends the value: the size stays the capacity. *)
Theorem pushFront_Overwrite_full q v :
  wf TSize q ->
  size q = capacity TSize ->
  pushFront TSize Overwrite v q = pushFrontNotFull TSize v (popBack TSize q) /\
  size (pushFront TSize Overwrite v q) = capacity TSize /\
  elements TSize (pushFront TSize Overwrite v q) =
    Some v :: take (capacity TSize - 1) (elements TSize q) /\
  front TSize (pushFront TSize Overwrite v q) = Some v.
Proof.
  unfold size, capacity. intros Hwf Hfull.
  pose proof (wf_start _ _ Hwf) as Hs.
  assert (Heq : pushFront TSize Overwrite v q =
                pushFrontNotFull TSize v (popBack TSize q)).
  { simpl. unfold pushFront_Overwrite, isFull, capacity.
    rewrite Hfull, Nat.leb_refl. reflexivity. }
  pose proof (wf_popBack TSize q Hwf) as Hwf1.
  pose proof (count_popBack TSize q) as Hc1.
  rewrite Heq. split; [reflexivity|]. split; [|split].
  - cbn [pushFrontNotFull createValueAtIndex count_]. lia.
  - rewrite elements_pushFrontNotFull by (try assumption; lia).
    rewrite elements_popBack by exact Hwf. rewrite Hfull. reflexivity.
  - unfold front. rewrite at_index_pushFrontNotFull by (try assumption; lia).
    reflexivity.
Qed.

(** ** Sequences of operations *)

Lemma elements_pushBack_Overwrite q v :
  wf TSize q ->
  elements TSize (pushBack TSize Overwrite v q) =
    drop (S (count_ q) - TSize) (elements TSize q) ++ [Some v].
Proof.
  intros Hwf. pose proof (wf_count _ _ Hwf) as Hc.
  pose proof (wf_start _ _ Hwf) as Hs.
  destruct (Nat.lt_ge_cases (count_ q) TSize) as [Hroom|Hfull].
  - rewrite pushBack_not_full by exact Hroom.
    rewrite elements_pushBackNotFull by assumption.
    replace (S (count_ q) - TSize) with 0 by lia. reflexivity.
  - simpl. unfold pushBack_Overwrite, isFull, capacity.
    destruct (Nat.leb_spec TSize (count_ q)); [|lia].
    rewrite elements_pushBackNotFull;
      [| apply wf_popFront; exact Hwf | rewrite count_popFront; lia].
    rewrite elements_popFront by exact Hwf.
    replace (S (count_ q) - TSize) with 1 by lia.
    destruct (elements TSize q); reflexivity.
Qed.

Lemma elements_pushBack_IgnoreError q v :
  wf TSize q ->
  elements TSize (pushBack TSize IgnoreError v q) =
    take TSize (elements TSize q ++ [Some v]).
Proof.
  intros Hwf. pose proof (wf_count _ _ Hwf) as Hc.
  destruct (Nat.lt_ge_cases (count_ q) TSize) as [Hroom|Hfull].
  - rewrite pushBack_not_full by exact Hroom.
    rewrite elements_pushBackNotFull by assumption.
    rewrite take_ge; [reflexivity|].
    rewrite length_app, length_elements. simpl. lia.
  - simpl. unfold pushBack_IgnoreError, isFull, capacity.
    destruct (Nat.leb_spec TSize (count_ q)); [|lia].
    rewrite take_app_le by (rewrite length_elements; lia).
    rewrite take_ge; [reflexivity | rewrite length_elements; lia].
Qed.

Lemma wf_pushBack_sequence behaviour (vs : list T) :
  0 < TSize ->
  wf TSize (foldl (fun q v => pushBack TSize behaviour v q) (emptyQueue TSize) vs).
Proof.
  intros Hpos. induction vs as [|v vs' IH] using rev_ind.
  - apply wf_emptyQueue. exact Hpos.
  - rewrite foldl_app. cbn [foldl]. apply wf_pushBack. exact IH.
Qed.

(** X6.  A circular buffer keeps the newest values, a queue the oldest: after
    pushing the values [vs] one after the other to the back of an empty
    queue, the behaviour [Overwrite] leaves the last [capacity] of them and
    the behaviour [IgnoreError] the first [capacity] of them, in the order
    they were pushed. *)
Theorem pushBack_sequence (vs : list T) :
  0 < TSize ->
  elements TSize (foldl (fun q v => pushBack TSize Overwrite v q) (emptyQueue TSize) vs) =
    Some <$> drop (length vs - capacity TSize) vs /\
  elements TSize (foldl (fun q v => pushBack TSize IgnoreError v q) (emptyQueue TSize) vs) =
    Some <$> take (capacity TSize) vs.
Proof.
  intros Hpos. unfold capacity. split.
  - induction vs as [|v vs' IH] using rev_ind; [reflexivity|].
    pose proof (wf_pushBack_sequence Overwrite vs' Hpos) as Hwf.
    rewrite foldl_app. cbn [foldl].
    rewrite elements_pushBack_Overwrite by exact Hwf.
    pose proof (length_elements TSize
                  (foldl (fun q v => pushBack TSize Overwrite v q)
                     (emptyQueue TSize) vs')) as Hlen.
    rewrite IH in Hlen |- *. rewrite length_fmap, length_drop in Hlen.
    rewrite <- Hlen. rewrite <- fmap_drop, drop_drop, length_app.
    cbn [length].
    rewrite drop_app_le by lia.
    rewrite fmap_app. cbn [fmap list_fmap]. f_equal. f_equal. f_equal.
    lia.
  - induction vs as [|v vs' IH] using rev_ind;
      [cbn [foldl]; rewrite take_nil; reflexivity|].
    pose proof (wf_pushBack_sequence IgnoreError vs' Hpos) as Hwf.
    rewrite foldl_app. cbn [foldl].
    rewrite elements_pushBack_IgnoreError by exact Hwf.
    rewrite IH. change [Some v] with (Some <$> [v]).
    rewrite <- fmap_app, <- fmap_take. f_equal.
    destruct (Nat.le_gt_cases TSize (length vs')) as [Hle|Hgt].
    + rewrite !take_app_le by (rewrite ?length_take; lia).
      rewrite take_take. f_equal. lia.
    + rewrite (take_ge vs') by lia. reflexivity.
Qed.

(** ** Popping several elements, and all of them *)

Lemma count_popFront_n n : forall q, count_ (popFront_n TSize n q) = count_ q - n.
Proof.
  induction n as [|n IH]; intros q; cbn [popFront_n]; [lia|].
  unfold isEmpty. destruct (Nat.eqb_spec (count_ q) 0); [lia|].
  rewrite IH, count_popFront. lia.
Qed.

Lemma count_popBack_n n : forall q, count_ (popBack_n TSize n q) = count_ q - n.
Proof.
  induction n as [|n IH]; intros q; cbn [popBack_n]; [lia|].
  unfold isEmpty. destruct (Nat.eqb_spec (count_ q) 0); [lia|].
  rewrite IH, count_popBack. lia.
Qed.

Lemma wf_popFront_n n : forall q, wf TSize q -> wf TSize (popFront_n TSize n q).
Proof.
  induction n as [|n IH]; intros q Hwf; cbn [popFront_n]; [exact Hwf|].
  destruct (isEmpty q); [exact Hwf|]. apply IH, wf_popFront, Hwf.
Qed.

Lemma wf_popBack_n n : forall q, wf TSize q -> wf TSize (popBack_n TSize n q).
Proof.
  induction n as [|n IH]; intros q Hwf; cbn [popBack_n]; [exact Hwf|].
  destruct (isEmpty q); [exact Hwf|]. apply IH, wf_popBack, Hwf.
Qed.

Lemma elements_empty q : count_ q = 0 -> elements TSize q = [].
Proof. intros Hc. unfold elements. rewrite Hc. reflexivity. Qed.

Lemma elements_popFront_n n : forall q,
  wf TSize q -> elements TSize (popFront_n TSize n q) = drop n (elements TSize q).
Proof.
  induction n as [|n IH]; intros q Hwf; cbn [popFront_n]; [reflexivity|].
  unfold isEmpty. destruct (Nat.eqb_spec (count_ q) 0) as [Hz|Hnz].
  - rewrite elements_empty by exact Hz. reflexivity.
  - rewrite IH by (apply wf_popFront; exact Hwf).
    rewrite elements_popFront by exact Hwf.
    destruct (elements TSize q); cbn [tail]; rewrite ?drop_nil; reflexivity.
Qed.

Lemma elements_popBack_n n : forall q,
  wf TSize q ->
  elements TSize (popBack_n TSize n q) = take (count_ q - n) (elements TSize q).
Proof.
  induction n as [|n IH]; intros q Hwf; cbn [popBack_n].
  - rewrite take_ge; [reflexivity | rewrite length_elements; lia].
  - unfold isEmpty. destruct (Nat.eqb_spec (count_ q) 0) as [Hz|Hnz].
    + rewrite elements_empty by exact Hz. rewrite take_nil. reflexivity.
    + rewrite IH by (apply wf_popBack; exact Hwf).
      rewrite elements_popBack by exact Hwf. rewrite count_popBack.
      rewrite take_take. f_equal. lia.
Qed.

(** X7.  [popFront(count)] removes the first [count] elements and
    [popBack(count)] the last [count] elements; a [count] above the size
    empties the queue. *)
Theorem pop_count_removes n q :
  wf TSize q ->
  (wf TSize (popFront_n TSize n q) /\
   size (popFront_n TSize n q) = size q - n /\
   elements TSize (popFront_n TSize n q) = drop n (elements TSize q)) /\
  (wf TSize (popBack_n TSize n q) /\
   size (popBack_n TSize n q) = size q - n /\
   elements TSize (popBack_n TSize n q) = take (size q - n) (elements TSize q)).
Proof.
  intros Hwf. unfold size. split; split.
  - apply wf_popFront_n, Hwf.
  - split; [apply count_popFront_n | apply elements_popFront_n, Hwf].
  - apply wf_popBack_n, Hwf.
  - split; [apply count_popBack_n | apply elements_popBack_n, Hwf].
Qed.

Lemma clear_loop_popFront_n fuel : forall q,
  clear_loop TSize fuel q = popFront_n TSize fuel q.
Proof.
  induction fuel as [|fuel IH]; intros q; cbn [clear_loop popFront_n]; [reflexivity|].
  rewrite IH. reflexivity.
Qed.

Lemma count_clear q : count_ (clear TSize q) = 0.
Proof.
  unfold clear. rewrite clear_loop_popFront_n, count_popFront_n. lia.
Qed.

Lemma cellIndex_popFront q i :
  wf TSize q -> S i < count_ q ->
  cellIndex TSize (popFront TSize q) i = cellIndex TSize q (S i).
Proof.
  intros [Hlen Hs Hc _] Hi. unfold popFront, isEmpty.
  destruct (Nat.eqb_spec (count_ q) 0); [lia|].
  rewrite !cellIndex_eq; simpl; unfold capacity;
    destruct (Nat.leb_spec TSize (startIdx_ q + 1));
    destruct (Nat.eqb_spec (count_ q - 1) 0); simpl; try lia;
    case_nat_tests; lia.
Qed.

Lemma array_popFront q c :
  count_ q <> 0 -> c <> cellIndex TSize q 0 ->
  array_ (popFront TSize q) !! c = array_ q !! c.
Proof.
  intros Hnz Hc. unfold popFront, isEmpty.
  destruct (Nat.eqb_spec (count_ q) 0); [lia|]. cbn [array_].
  apply list_lookup_insert_ne. congruence.
Qed.

Lemma array_popFront_front q :
  wf TSize q -> count_ q <> 0 ->
  array_ (popFront TSize q) !! cellIndex TSize q 0 = Some None.
Proof.
  intros [Hlen Hs Hc _] Hnz. unfold popFront, isEmpty.
  destruct (Nat.eqb_spec (count_ q) 0); [lia|]. cbn [array_].
  apply list_lookup_insert_eq. rewrite Hlen. apply cellIndex_lt; lia.
Qed.

Lemma array_popFront_n_other n : forall q c,
  wf TSize q ->
  (forall j, j < n -> j < count_ q -> c <> cellIndex TSize q j) ->
  array_ (popFront_n TSize n q) !! c = array_ q !! c.
Proof.
  induction n as [|n IH]; intros q c Hwf Hother; cbn [popFront_n]; [reflexivity|].
  unfold isEmpty. destruct (Nat.eqb_spec (count_ q) 0) as [Hz|Hnz]; [reflexivity|].
  rewrite IH.
  - apply array_popFront; [exact Hnz|]. apply Hother; lia.
  - apply wf_popFront, Hwf.
  - intros j Hj Hjc. rewrite count_popFront in Hjc.
    rewrite cellIndex_popFront by (try assumption; lia). apply Hother; lia.
Qed.

Lemma array_popFront_n_destroyed n : forall q i,
  wf TSize q -> i < n -> i < count_ q ->
  array_ (popFront_n TSize n q) !! cellIndex TSize q i = Some None.
Proof.
  induction n as [|n IH]; intros q i Hwf Hin Hic; [lia|].
  cbn [popFront_n]. unfold isEmpty.
  destruct (Nat.eqb_spec (count_ q) 0) as [Hz|Hnz]; [lia|].
  pose proof (wf_start _ _ Hwf) as Hs. pose proof (wf_count _ _ Hwf) as Hc.
  destruct i as [|i].
  - rewrite array_popFront_n_other.
    + apply array_popFront_front; assumption.
    + apply wf_popFront, Hwf.
    + intros j Hj Hjc. rewrite count_popFront in Hjc.
      rewrite cellIndex_popFront by (try assumption; lia).
      intros Heq. apply cellIndex_inj in Heq; lia.
  - rewrite <- cellIndex_popFront by (try assumption; lia).
    apply IH; [apply wf_popFront, Hwf | lia | rewrite count_popFront; lia].
Qed.

(** X8.  [clear()], which is also what the destructor runs, always leaves an
    empty queue; on a queue within its invariant it destroys the object
    of every element and leaves the other cells as they were. *)
Theorem clear_empties q :
  size (clear TSize q) = 0 /\
  isEmpty (clear TSize q) = true /\
  (wf TSize q ->
   wf TSize (clear TSize q) /\
   elements TSize (clear TSize q) = [] /\
   (forall i, i < size q ->
      array_ (clear TSize q) !! cellIndex TSize q i = Some None) /\
   (forall c, (forall i, i < size q -> c <> cellIndex TSize q i) ->
      array_ (clear TSize q) !! c = array_ q !! c)).
Proof.
  unfold size. split; [apply count_clear|].
  split; [unfold isEmpty; rewrite count_clear; reflexivity|].
  intros Hwf. unfold clear. rewrite clear_loop_popFront_n.
  split; [apply wf_popFront_n, Hwf|]. split; [|split].
  - apply elements_empty. rewrite count_popFront_n. lia.
  - intros i Hi. apply array_popFront_n_destroyed; assumption.
  - intros c Hc. apply array_popFront_n_other; [exact Hwf|].
    intros j Hj _. apply Hc. exact Hj.
Qed.

(** ** Checked access and the index of an element *)

Lemma elements_lookup_cell q i :
  wf TSize q -> i < count_ q ->
  elements TSize q !! i = array_ q !! cellIndex TSize q i.
Proof.
  intros [Hlen Hs Hc _] Hi. rewrite elements_lookup.
  destruct (Nat.ltb_spec i (count_ q)); [|lia]. unfold at_index.
  destruct (lookup_lt_is_Some_2 (array_ q) (cellIndex TSize q i)) as [cell Hcell].
  { rewrite Hlen. apply cellIndex_lt; lia. }
  rewrite Hcell. reflexivity.
Qed.

(** X10.  For a capacity of at most half the range of [std::size_t],
    [indexOf] inverts [operator[]] up to the conversion to [int]: given
    the address of the element at index [i] it returns [i] converted to
    [int], which is [i] itself for [i] up to [INT_MAX]; given any address
    that is not the cell of an element, inside the array or not, it
    returns -1. *)
Theorem indexOf_inverts_index q :
  wf TSize q ->
  (2 * Z.of_nat TSize <= size_t_modulus)%Z ->
  (forall i, i < size q ->
     indexOf TSize q (Z.of_nat (cellIndex TSize q i)) = to_int (Z.of_nat i) /\
     ((Z.of_nat i <= INT_MAX)%Z ->
      indexOf TSize q (Z.of_nat (cellIndex TSize q i)) = Z.of_nat i)) /\
  (forall p, (forall i, i < size q -> p <> Z.of_nat (cellIndex TSize q i)) ->
     indexOf TSize q p = (-1)%Z).
Proof.
  intros [Hlen Hs Hc _] Hfits. unfold indexOf, size, capacity.
  assert (Hmod : forall p, (0 <= p < Z.of_nat (startIdx_ q))%Z ->
            (((Z.of_nat TSize - Z.of_nat (startIdx_ q)) mod size_t_modulus + p)
               mod size_t_modulus =
             Z.of_nat TSize - Z.of_nat (startIdx_ q) + p)%Z).
  { intros p Hp. rewrite (Z.mod_small (Z.of_nat TSize - Z.of_nat (startIdx_ q)))
      by lia. apply Z.mod_small. lia. }
  assert (Hindex : forall i, i < count_ q ->
            (if ((Z.of_nat (cellIndex TSize q i) <? 0)
                 || (Z.of_nat TSize - 1 <? Z.of_nat (cellIndex TSize q i)))%Z
             then (-1)%Z
             else
               if (Z.of_nat (count_ q) <=?
                   (if Z.of_nat (cellIndex TSize q i) <? Z.of_nat (startIdx_ q)
                    then ((Z.of_nat TSize - Z.of_nat (startIdx_ q))
                            mod size_t_modulus
                          + Z.of_nat (cellIndex TSize q i)) mod size_t_modulus
                    else Z.of_nat (cellIndex TSize q i) - Z.of_nat (startIdx_ q)))%Z
               then (-1)%Z
               else to_int
                      (if Z.of_nat (cellIndex TSize q i) <? Z.of_nat (startIdx_ q)
                       then ((Z.of_nat TSize - Z.of_nat (startIdx_ q))
                               mod size_t_modulus
                             + Z.of_nat (cellIndex TSize q i)) mod size_t_modulus
                       else Z.of_nat (cellIndex TSize q i)
                            - Z.of_nat (startIdx_ q))%Z) =
            to_int (Z.of_nat i)).
  { intros i Hi.
    pose proof (cellIndex_lt TSize q i Hs ltac:(lia)) as Hcell.
    pose proof (cellIndex_eq TSize q i ltac:(lia) ltac:(lia)) as Heq.
    set (c := cellIndex TSize q i) in *.
    destruct (Z.ltb_spec (Z.of_nat c) 0); [lia|].
    destruct (Z.ltb_spec (Z.of_nat TSize - 1) (Z.of_nat c)); [lia|].
    cbn [orb].
    destruct (Z.ltb_spec (Z.of_nat c) (Z.of_nat (startIdx_ q))) as [Hlt|Hge].
    - rewrite (Hmod (Z.of_nat c)) by lia.
      revert Heq. destruct (Nat.leb_spec TSize (startIdx_ q + i)); intros Heq;
        [|lia].
      destruct (Z.leb_spec (Z.of_nat (count_ q))
                  (Z.of_nat TSize - Z.of_nat (startIdx_ q) + Z.of_nat c)); [lia|].
      f_equal. lia.
    - revert Heq. destruct (Nat.leb_spec TSize (startIdx_ q + i)); intros Heq;
        [lia|].
      destruct (Z.leb_spec (Z.of_nat (count_ q))
                  (Z.of_nat c - Z.of_nat (startIdx_ q))); [lia|].
      f_equal. lia. }
  split.
  - intros i Hi. split; [apply Hindex, Hi|].
    intros Hint. rewrite (Hindex i Hi). unfold to_int, INT_MAX in *.
    rewrite Z.mod_small by lia. lia.
  - intros p Hp.
    destruct (Z.ltb_spec p 0); [reflexivity|].
    destruct (Z.ltb_spec (Z.of_nat TSize - 1) p); [reflexivity|].
    cbn [orb].
    destruct (Z.ltb_spec p (Z.of_nat (startIdx_ q))) as [Hlt|Hge].
    + rewrite (Hmod p) by lia.
      destruct (Z.leb_spec (Z.of_nat (count_ q))
                  (Z.of_nat TSize - Z.of_nat (startIdx_ q) + p)); [reflexivity|].
      exfalso. apply (Hp (TSize - startIdx_ q + Z.to_nat p)); [lia|].
      rewrite cellIndex_eq by lia. case_nat_tests; lia.
    + destruct (Z.leb_spec (Z.of_nat (count_ q)) (p - Z.of_nat (startIdx_ q)));
        [reflexivity|].
      exfalso. apply (Hp (Z.to_nat p - startIdx_ q)); [lia|].
      rewrite cellIndex_eq by lia. case_nat_tests; lia.
Qed.

(** ** The two linear ranges *)

Lemma lookup_range_cells q first last i :
  range_cells q (first, last) !! i =
    if i <? last - first then array_ q !! (first + i) else None.
Proof.
  unfold range_cells. cbn [fst snd].
  destruct (Nat.ltb_spec i (last - first)).
  - rewrite lookup_take_lt by lia. apply lookup_drop.
  - apply lookup_take_ge. lia.
Qed.

Lemma length_range_cells q first last :
  last <= length (array_ q) ->
  length (range_cells q (first, last)) = last - first.
Proof.
  intros Hlast. unfold range_cells. cbn [fst snd].
  rewrite length_take, length_drop. lia.
Qed.

Lemma ranges_spec q :
  wf TSize q ->
  range_cells q (arrayOne TSize q) ++ range_cells q (arrayTwo TSize q) =
    elements TSize q /\
  (isLinearised TSize q = true ->
   range_cells q (lbegin TSize q, lend TSize q) = elements TSize q).
Proof.
  intros Hwf. pose proof Hwf as [Hlen Hs Hc _].
  assert (Hone : forall first n,
            first = startIdx_ q -> startIdx_ q + n <= TSize -> n <= count_ q ->
            forall i, i < n ->
              range_cells q (first, first + n) !! i = elements TSize q !! i).
  { intros first n -> Hn Hnc i Hi. rewrite lookup_range_cells.
    destruct (Nat.ltb_spec i (startIdx_ q + n - startIdx_ q)); [|lia].
    rewrite elements_lookup_cell by (try assumption; lia).
    rewrite cellIndex_eq by lia. case_nat_tests; try lia. reflexivity. }
  unfold lend, lbegin, arrayTwo, arrayOne, isLinearised, isEmpty,
    size, capacity.
  destruct (Nat.eqb_spec (count_ q) 0) as [Hz|Hnz]; cbn [orb negb fst snd].
  { rewrite (elements_empty q Hz). unfold range_cells. cbn [fst snd].
    rewrite ?Hz, ?Nat.add_0_r, !Nat.sub_diag. cbn [take app].
    split; [reflexivity | intros _; reflexivity]. }
  destruct (Nat.leb_spec (startIdx_ q + count_ q) TSize) as [Hlin|Hwrap];
    cbn [negb fst snd].
  - assert (Hall : range_cells q (startIdx_ q, startIdx_ q + count_ q) =
                   elements TSize q).
    { apply list_eq. intros i. destruct (Nat.lt_ge_cases i (count_ q)).
      - apply Hone; try reflexivity; lia.
      - rewrite !lookup_ge_None_2; [reflexivity | |].
        + rewrite length_elements. lia.
        + rewrite length_range_cells by lia. lia. }
    assert (Hend : (if startIdx_ q + count_ q <? TSize
                    then startIdx_ q + count_ q else TSize) =
                   startIdx_ q + count_ q) by (case_nat_tests; lia).
    rewrite !Hend. split; [|intros _; exact Hall].
    unfold range_cells at 2. cbn [fst snd]. rewrite Nat.sub_diag.
    cbn [take]. rewrite app_nil_r. exact Hall.
  - destruct (Nat.ltb_spec (startIdx_ q + count_ q) TSize); [lia|].
    split; [|discriminate].
    apply list_eq. intros i.
    destruct (Nat.lt_ge_cases i (TSize - startIdx_ q)) as [Hi|Hi].
    + rewrite lookup_app_l by (rewrite length_range_cells by lia; lia).
      replace TSize with (startIdx_ q + (TSize - startIdx_ q)) at 1 by lia.
      apply Hone; try reflexivity; lia.
    + rewrite lookup_app_r by (rewrite length_range_cells by lia; lia).
      rewrite length_range_cells by lia. rewrite lookup_range_cells.
      destruct (Nat.lt_ge_cases i (count_ q)) as [Hic|Hic].
      * destruct (Nat.ltb_spec (i - (TSize - startIdx_ q))
                    (startIdx_ q + count_ q - TSize - 0)); [|lia].
        rewrite elements_lookup_cell by (try assumption; lia).
        rewrite cellIndex_eq by lia. case_nat_tests; try lia.
        f_equal. lia.
      * destruct (Nat.ltb_spec (i - (TSize - startIdx_ q))
                    (startIdx_ q + count_ q - TSize - 0)); [lia|].
        rewrite lookup_ge_None_2; [reflexivity | rewrite length_elements; lia].
Qed.

(** X11.  [arrayOne()] followed by [arrayTwo()] covers exactly the elements of
    the queue, in order.  For a linearised queue the second range is empty
    and [lbegin()], [lend()] delimit the elements; otherwise both return
    [invalidIter()]. *)
Theorem ranges_hold_elements q :
  wf TSize q ->
  range_cells q (arrayOne TSize q) ++ range_cells q (arrayTwo TSize q) =
    elements TSize q /\
  (isLinearised TSize q = true ->
   range_cells q (arrayTwo TSize q) = [] /\
   range_cells q (lbegin TSize q, lend TSize q) = elements TSize q) /\
  (isLinearised TSize q = false ->
   lbegin TSize q = invalidIter TSize /\ lend TSize q = invalidIter TSize).
Proof.
  intros Hwf. destruct (ranges_spec q Hwf) as [Hcover Hlinear].
  split; [exact Hcover|]. split.
  - intros Hlin. split; [|exact (Hlinear Hlin)].
    unfold arrayTwo. rewrite Hlin. unfold range_cells. cbn [fst snd].
    rewrite Nat.sub_diag. reflexivity.
  - intros Hlin. unfold lend, lbegin. rewrite Hlin. cbn [negb].
    split; reflexivity.
Qed.

(** ** Copying, linearising and resizing *)

Lemma elements_live q : wf TSize q -> Forall is_Some (elements TSize q).
Proof.
  intros Hwf. apply Forall_lookup. intros i c Hi.
  rewrite elements_lookup in Hi.
  destruct (Nat.ltb_spec i (count_ q)); [|discriminate].
  injection Hi as <-. apply (wf_live _ _ Hwf). assumption.
Qed.

Lemma startIdx_pushBackNotFull (q : Queue T) v :
  startIdx_ (pushBackNotFull TSize v q) = startIdx_ q.
Proof. reflexivity. Qed.

Lemma pushBack_range_spec (cells : list (option T)) : forall q,
  wf TSize q ->
  Forall is_Some cells ->
  count_ q + length cells <= TSize ->
  wf TSize (pushBack_range TSize cells q) /\
  elements TSize (pushBack_range TSize cells q) = elements TSize q ++ cells /\
  startIdx_ (pushBack_range TSize cells q) = startIdx_ q.
Proof.
  induction cells as [|cell rest IH]; intros q Hwf Hlive Hroom.
  - cbn [pushBack_range]. rewrite app_nil_r. auto.
  - apply Forall_cons in Hlive as [[v ->] Hrest]. cbn [pushBack_range].
    cbn [length] in Hroom.
    destruct (IH (pushBackNotFull TSize v q)) as (Hwf' & Hel & Hst).
    + apply wf_pushBackNotFull; [exact Hwf | lia].
    + exact Hrest.
    + cbn [pushBackNotFull createValueAtIndex count_]. lia.
    + split; [exact Hwf'|]. split; [|exact Hst].
      rewrite Hel, elements_pushBackNotFull by (try assumption; lia).
      rewrite <- app_assoc. reflexivity.
Qed.

Lemma pushBack_range_app (cells1 cells2 : list (option T)) : forall q,
  pushBack_range TSize (cells1 ++ cells2) q =
    pushBack_range TSize cells2 (pushBack_range TSize cells1 q).
Proof.
  induction cells1 as [|[v|] rest IH]; intros q; cbn [app pushBack_range];
    [reflexivity | apply IH | apply IH].
Qed.

Lemma wf_clear q : wf TSize q -> wf TSize (clear TSize q).
Proof.
  intros Hwf. unfold clear. rewrite clear_loop_popFront_n.
  apply wf_popFront_n, Hwf.
Qed.

Lemma assign_spec this queue :
  wf TSize this -> wf TSize queue ->
  wf TSize (assign TSize this queue) /\
  elements TSize (assign TSize this queue) = elements TSize queue /\
  startIdx_ (assign TSize this queue) = startIdx_ (clear TSize this : Queue T).
Proof.
  intros Hthis Hqueue. unfold assign. cbv zeta.
  rewrite <- pushBack_range_app.
  destruct (ranges_spec queue Hqueue) as [Hranges _].
  rewrite Hranges.
  destruct (pushBack_range_spec (elements TSize queue) (clear TSize this))
    as (Hwf & Hel & Hst).
  - apply wf_clear, Hthis.
  - apply elements_live, Hqueue.
  - rewrite count_clear, length_elements. apply (wf_count _ _ Hqueue).
  - split; [exact Hwf|]. split; [|exact Hst].
    rewrite Hel, elements_empty by apply count_clear. reflexivity.
Qed.

Lemma startIdx_popFront_last q :
  count_ q = 1 -> startIdx_ (popFront TSize q) = 0.
Proof.
  intros Hc. unfold popFront, isEmpty, size. rewrite Hc. cbn.
  rewrite orb_true_r. reflexivity.
Qed.

Lemma front_elements q :
  wf TSize q -> 0 < count_ q ->
  exists v, front TSize q = Some v /\
            elements TSize q = Some v :: tail (elements TSize q).
Proof.
  intros Hwf Hpos. destruct (wf_live _ _ Hwf 0 Hpos) as [v Hv].
  exists v. split; [exact Hv|].
  unfold elements. destruct (count_ q) as [|n]; [lia|].
  cbn [seq fmap list_fmap tail]. rewrite Hv. reflexivity.
Qed.

Lemma linearise_loop_spec fuel : forall tempQueue q,
  wf TSize tempQueue -> wf TSize q ->
  count_ tempQueue + count_ q <= TSize -> count_ q <= fuel ->
  wf TSize (linearise_loop TSize fuel tempQueue q).1 /\
  wf TSize (linearise_loop TSize fuel tempQueue q).2 /\
  count_ (linearise_loop TSize fuel tempQueue q).2 = 0 /\
  elements TSize (linearise_loop TSize fuel tempQueue q).1 =
    elements TSize tempQueue ++ elements TSize q /\
  startIdx_ (linearise_loop TSize fuel tempQueue q).1 = startIdx_ tempQueue /\
  (0 < count_ q -> startIdx_ (linearise_loop TSize fuel tempQueue q).2 = 0).
Proof.
  induction fuel as [|fuel IH]; intros tempQueue q Htemp Hq Hroom Hfuel.
  - cbn [linearise_loop fst snd].
    rewrite (elements_empty q) by lia. rewrite app_nil_r.
    split; [assumption|]. split; [assumption|]. repeat split; lia.
  - cbn [linearise_loop]. unfold isEmpty, size.
    destruct (Nat.eqb_spec (count_ q) 0) as [Hz|Hnz].
    + cbn [fst snd]. rewrite (elements_empty q Hz), app_nil_r.
      split; [assumption|]. split; [assumption|]. repeat split; lia.
    + destruct (front_elements q Hq) as (v & Hfront & Hel); [lia|].
      rewrite Hfront.
      destruct (IH (pushBackNotFull TSize v tempQueue) (popFront TSize q))
        as (H1 & H2 & H3 & H4 & H5 & H6).
      * apply wf_pushBackNotFull; [assumption | lia].
      * apply wf_popFront, Hq.
      * rewrite count_popFront. cbn [pushBackNotFull createValueAtIndex count_]. lia.
      * rewrite count_popFront. lia.
      * split; [exact H1|]. split; [exact H2|]. split; [exact H3|].
        split; [|split; [exact H5|]].
        -- rewrite H4, elements_pushBackNotFull, elements_popFront
             by (try assumption; lia).
           rewrite Hel at 2. rewrite <- app_assoc. reflexivity.
        -- intros _. destruct (Nat.eq_dec (count_ q) 1) as [Hone|Hmore].
           ++ assert (Hstop : linearise_loop TSize fuel
                                (pushBackNotFull TSize v tempQueue)
                                (popFront TSize q) =
                              (pushBackNotFull TSize v tempQueue, popFront TSize q)).
              { destruct fuel; cbn [linearise_loop]; [reflexivity|].
                unfold isEmpty, size. rewrite count_popFront, Hone. reflexivity. }
              rewrite Hstop. cbn [snd]. apply startIdx_popFront_last, Hone.
           ++ apply H6. rewrite count_popFront. lia.
Qed.

Lemma isLinearised_from_start (q : Queue T) :
  startIdx_ q = 0 -> count_ q <= TSize -> isLinearised TSize q = true.
Proof.
  intros Hs Hc. unfold isLinearised, isEmpty, size, capacity. rewrite Hs.
  apply orb_true_iff. right. apply Nat.leb_le. lia.
Qed.

Lemma clear_empty (q : Queue T) : count_ q = 0 -> clear TSize q = q.
Proof. intros Hz. unfold clear. rewrite Hz. reflexivity. Qed.

Lemma resize_loop_spec defaultValue newSize fuel : forall q,
  wf TSize q -> newSize <= TSize -> newSize - count_ q <= fuel ->
  wf TSize (resize_loop TSize fuel defaultValue newSize q) /\
  elements TSize (resize_loop TSize fuel defaultValue newSize q) =
    elements TSize q ++ replicate (newSize - count_ q) (Some defaultValue).
Proof.
  induction fuel as [|fuel IH]; intros q Hwf Hn Hfuel.
  - cbn [resize_loop]. replace (newSize - count_ q) with 0 by lia.
    cbn [replicate]. rewrite app_nil_r. auto.
  - cbn [resize_loop]. unfold size.
    destruct (Nat.ltb_spec (count_ q) newSize) as [Hlt|Hge].
    + destruct (IH (pushBackNotFull TSize defaultValue q)) as [Hwf' Hel].
      * apply wf_pushBackNotFull; [assumption | lia].
      * assumption.
      * cbn [pushBackNotFull createValueAtIndex count_]. lia.
      * split; [exact Hwf'|]. rewrite Hel.
        rewrite elements_pushBackNotFull by (try assumption; lia).
        cbn [pushBackNotFull createValueAtIndex count_].
        replace (newSize - count_ q) with (S (newSize - (count_ q + 1))) by lia.
        cbn [replicate]. rewrite <- app_assoc. reflexivity.
    + replace (newSize - count_ q) with 0 by lia.
      cbn [replicate]. rewrite app_nil_r. auto.
Qed.

(** X12.  Assignment ([operator=] from another queue, and [assign]) makes the
    queue hold the elements of the source queue, in the same order, and
    keeps the representation invariant; the copy and move constructors
    additionally start at cell 0, so the new queue is linearised. *)
Theorem assign_copies_elements (this queue : Queue T) :
  wf TSize this -> wf TSize queue ->
  (wf TSize (assign TSize this queue) /\
   size (assign TSize this queue) = size queue /\
   elements TSize (assign TSize this queue) = elements TSize queue) /\
  (wf TSize (copy_ctor TSize queue) /\
   elements TSize (copy_ctor TSize queue) = elements TSize queue /\
   startIdx_ (copy_ctor TSize queue) = 0 /\
   isLinearised TSize (copy_ctor TSize queue) = true).
Proof.
  intros Hthis Hqueue.
  assert (Hpos : 0 < TSize) by (pose proof (wf_start _ _ Hthis); lia).
  split.
  - destruct (assign_spec this queue Hthis Hqueue) as (Hwf & Hel & _).
    split; [exact Hwf|]. split; [|exact Hel].
    unfold size. rewrite <- !(length_elements TSize), Hel. reflexivity.
  - unfold copy_ctor.
    destruct (assign_spec (emptyQueue TSize) queue (wf_emptyQueue TSize Hpos) Hqueue)
      as (Hwf & Hel & Hst).
    rewrite clear_empty in Hst by reflexivity. cbn [emptyQueue startIdx_] in Hst.
    split; [exact Hwf|]. split; [exact Hel|]. split; [exact Hst|].
    apply isLinearised_from_start; [exact Hst | apply (wf_count _ _ Hwf)].
Qed.

(** X13.  [linearise()] keeps the elements and their order and leaves the
    queue linearised, so that afterwards [arrayOne()] alone, and
    [lbegin()], [lend()], cover all the elements. *)
Theorem linearise_keeps_elements (q : Queue T) :
  wf TSize q ->
  wf TSize (linearise TSize q) /\
  elements TSize (linearise TSize q) = elements TSize q /\
  isLinearised TSize (linearise TSize q) = true /\
  range_cells (linearise TSize q)
    (lbegin TSize (linearise TSize q), lend TSize (linearise TSize q)) =
    elements TSize q.
Proof.
  intros Hwf.
  assert (Hpos : 0 < TSize) by (pose proof (wf_start _ _ Hwf); lia).
  assert (Hmain : wf TSize (linearise TSize q) /\
                  elements TSize (linearise TSize q) = elements TSize q /\
                  isLinearised TSize (linearise TSize q) = true).
  { unfold linearise. destruct (isLinearised TSize q) eqn:Hlin; [auto|].
    assert (Hnz : 0 < count_ q).
    { unfold isLinearised, isEmpty, size in Hlin.
      destruct (Nat.eqb_spec (count_ q) 0); [discriminate | lia]. }
    destruct (linearise_loop_spec (count_ q) (emptyQueue TSize) q)
      as (H1 & H2 & H3 & H4 & H5 & H6).
    - apply wf_emptyQueue, Hpos.
    - exact Hwf.
    - cbn [emptyQueue count_]. apply (wf_count _ _ Hwf).
    - lia.
    - destruct (linearise_loop TSize (count_ q) (emptyQueue TSize) q)
        as [tempQueue q1]. cbn [fst snd] in *.
      destruct (assign_spec q1 tempQueue H2 H1) as (Hwf' & Hel & Hst).
      rewrite clear_empty in Hst by exact H3. rewrite (H6 Hnz) in Hst.
      split; [exact Hwf'|]. split.
      + rewrite Hel, H4. rewrite (elements_empty (emptyQueue TSize)) by reflexivity.
        reflexivity.
      + apply isLinearised_from_start; [exact Hst | apply (wf_count _ _ Hwf')]. }
  destruct Hmain as (Hwf' & Hel & Hlin).
  split; [exact Hwf'|]. split; [exact Hel|]. split; [exact Hlin|].
  destruct (ranges_spec (linearise TSize q) Hwf') as [_ Hcells].
  rewrite (Hcells Hlin). exact Hel.
Qed.

(** X14.  [resize(newSize)] does nothing when [newSize] exceeds the capacity;
    otherwise the queue afterwards has [newSize] elements: its former
    elements, cut at the back or followed by default-constructed ones. *)
Theorem resize_sets_size defaultValue newSize (q : Queue T) :
  wf TSize q ->
  (capacity TSize < newSize -> resize TSize defaultValue newSize q = q) /\
  (newSize <= capacity TSize ->
   wf TSize (resize TSize defaultValue newSize q) /\
   size (resize TSize defaultValue newSize q) = newSize /\
   elements TSize (resize TSize defaultValue newSize q) =
     take newSize (elements TSize q ++
                   replicate (newSize - size q) (Some defaultValue))).
Proof.
  intros Hwf. unfold resize, capacity, size. split.
  - intros Hbig. destruct (Nat.ltb_spec TSize newSize); [reflexivity | lia].
  - intros Hfit. destruct (Nat.ltb_spec TSize newSize); [lia|].
    assert (Hgoal : forall r,
              wf TSize r ->
              elements TSize r =
                take newSize (elements TSize q ++
                              replicate (newSize - count_ q) (Some defaultValue)) ->
              wf TSize r /\ count_ r = newSize /\
              elements TSize r =
                take newSize (elements TSize q ++
                              replicate (newSize - count_ q) (Some defaultValue))).
    { intros r Hr Hel. split; [exact Hr|]. split; [|exact Hel].
      rewrite <- (length_elements TSize r), Hel, length_take, length_app,
        length_elements, length_replicate. lia. }
    destruct (Nat.leb_spec (count_ q) newSize) as [Hgrow|Hshrink].
    + destruct (resize_loop_spec defaultValue newSize (newSize - count_ q) q)
        as [Hwf' Hel]; try assumption; try lia.
      apply Hgoal; [exact Hwf' |].
      rewrite Hel. rewrite take_ge; [reflexivity|].
      rewrite length_app, length_elements, length_replicate. lia.
    + apply Hgoal; [apply wf_popBack_n, Hwf |].
      rewrite elements_popBack_n by exact Hwf.
      replace (newSize - count_ q) with 0 by lia. cbn [replicate].
      rewrite app_nil_r. f_equal. lia.
Qed.

(** ** Moving cells *)

(** Case analysis on the comparisons of the goal, one at a time, dropping
    at once the cases the hypotheses exclude. *)
Ltac prune_nat_tests :=
  repeat match goal with
         | |- context [?a <=? ?b] =>
             destruct (Nat.leb_spec a b); try (exfalso; lia)
         | |- context [?a <? ?b] =>
             destruct (Nat.ltb_spec a b); try (exfalso; lia)
         | |- context [?a =? ?b] =>
             destruct (Nat.eqb_spec a b); try (exfalso; lia)
         end.

Variable moved_from : T -> T.

Lemma move_cell_lookup from to (arr : list (option T)) c v :
  arr !! from = Some (Some v) -> to < length arr -> from <> to ->
  move_cell moved_from from to arr !! c =
    if c =? from then Some (Some (moved_from v))
    else if c =? to then Some (Some v)
    else arr !! c.
Proof.
  intros Hfrom Hto Hne. unfold move_cell. rewrite Hfrom.
  pose proof (lookup_lt_Some _ _ _ Hfrom) as Hlt.
  destruct (Nat.eqb_spec c from) as [->|Hcf].
  - apply list_lookup_insert_eq. rewrite length_insert. exact Hlt.
  - rewrite list_lookup_insert_ne by congruence.
    destruct (Nat.eqb_spec c to) as [->|Hct].
    + apply list_lookup_insert_eq, Hto.
    + apply list_lookup_insert_ne. congruence.
Qed.

Lemma length_move_cell from to (arr : list (option T)) :
  length (move_cell moved_from from to arr) = length arr.
Proof.
  unfold move_cell. destruct (arr !! from) as [[v|]|]; try reflexivity.
  rewrite !length_insert. reflexivity.
Qed.

Lemma length_move_backward n first d_first : forall arr : list (option T),
  length (move_backward moved_from n first d_first arr) = length arr.
Proof.
  induction n as [|n IH]; intros arr; cbn [move_backward]; [reflexivity|].
  rewrite IH. apply length_move_cell.
Qed.

Lemma length_move_forward n : forall first d_first (arr : list (option T)),
  length (move_forward moved_from n first d_first arr) = length arr.
Proof.
  induction n as [|n IH]; intros first d_first arr; cbn [move_forward];
    [reflexivity|].
  rewrite IH. apply length_move_cell.
Qed.

(** After [std::move_backward] of [n] live cells from [first] one cell
    up: every destination holds what the cell below held, and the first
    source cell is left moved from. *)
Lemma move_backward_lookup n first : forall (arr : list (option T)) c,
  first + n < length arr ->
  (forall k, first <= k < first + n -> exists v, arr !! k = Some (Some v)) ->
  move_backward moved_from n first (first + 1) arr !! c =
    if (first <? c) && (c <=? first + n) then arr !! (c - 1)
    else if (c =? first) && (0 <? n) then fmap moved_from <$> arr !! c
    else arr !! c.
Proof.
  induction n as [|n IH]; intros arr c Hlen Hlive; cbn [move_backward].
  - case_nat_tests; cbn [andb]; try reflexivity; lia.
  - destruct (Hlive (first + n)) as [v Hv]; [lia|].
    rewrite IH.
    + rewrite !(move_cell_lookup _ _ _ _ v) by (try exact Hv; lia).
      destruct (Nat.ltb_spec first c); destruct (Nat.leb_spec c (first + n));
        destruct (Nat.leb_spec c (first + S n)); destruct (Nat.eqb_spec c first);
        destruct (Nat.ltb_spec 0 n); destruct (Nat.ltb_spec 0 (S n));
        cbn [andb]; try lia;
        repeat match goal with
               | |- context [?a =? ?b] => destruct (Nat.eqb_spec a b)
               end; try lia; try reflexivity.
      all: try (subst c; rewrite Hv; reflexivity).
      all: try (replace (c - 1) with (first + n) by lia; rewrite Hv; reflexivity).
      all: try (replace c with (first + n) by lia; rewrite Hv; reflexivity).
    + rewrite length_move_cell. lia.
    + intros k Hk. destruct (Hlive k) as [w Hw]; [lia|]. exists w.
      rewrite (move_cell_lookup _ _ _ _ v) by (try exact Hv; lia).
      case_nat_tests; try lia. exact Hw.
Qed.

(** After [std::move] of [n] live cells from [d + 1] one cell down: every
    destination holds what the cell above held, and the last source cell
    is left moved from. *)
Lemma move_forward_lookup n : forall d (arr : list (option T)) c,
  d + n < length arr ->
  (forall k, d < k <= d + n -> exists v, arr !! k = Some (Some v)) ->
  move_forward moved_from n (S d) d arr !! c =
    if (d <=? c) && (c <? d + n) then arr !! S c
    else if (c =? d + n) && (0 <? n) then fmap moved_from <$> arr !! c
    else arr !! c.
Proof.
  induction n as [|n IH]; intros d arr c Hlen Hlive; cbn [move_forward].
  - case_nat_tests; cbn [andb]; try reflexivity; lia.
  - destruct (Hlive (S d)) as [v Hv]; [lia|].
    rewrite IH.
    + rewrite !(move_cell_lookup _ _ _ _ v) by (try exact Hv; lia).
      destruct (Nat.leb_spec (S d) c); destruct (Nat.ltb_spec c (S d + n));
        destruct (Nat.leb_spec d c); destruct (Nat.ltb_spec c (d + S n));
        destruct (Nat.eqb_spec c (S d + n)); destruct (Nat.eqb_spec c (d + S n));
        destruct (Nat.ltb_spec 0 n); destruct (Nat.ltb_spec 0 (S n));
        cbn [andb]; try lia;
        repeat match goal with
               | |- context [?a =? ?b] => destruct (Nat.eqb_spec a b)
               end; try lia; try reflexivity.
      all: try (subst c; rewrite Hv; reflexivity).
      all: try (replace (S c) with (S d) by lia; rewrite Hv; reflexivity).
      all: try (replace c with (S d) by lia; rewrite Hv; reflexivity).
    + rewrite length_move_cell. lia.
    + intros k Hk. destruct (Hlive k) as [w Hw]; [lia|]. exists w.
      rewrite (move_cell_lookup _ _ _ _ v) by (try exact Hv; lia).
      case_nat_tests; try lia. exact Hw.
Qed.

(** ** Erasing an element *)

Lemma live_cell (q : Queue T) j :
  wf TSize q -> j < count_ q ->
  exists x, array_ q !! cellIndex TSize q j = Some (Some x).
Proof.
  intros Hwf Hj. destruct (wf_live _ _ Hwf j Hj) as [x Hx].
  exists x. unfold at_index in Hx.
  destruct (array_ q !! cellIndex TSize q j) as [cell|]; [|discriminate].
  rewrite Hx. reflexivity.
Qed.

(** The queue over another array with the same head index and count. *)
Lemma wf_with_array (q : Queue T) (arr1 : list (option T)) :
  wf TSize q -> length arr1 = TSize ->
  (forall j, j < count_ q -> exists x, arr1 !! cellIndex TSize q j = Some (Some x)) ->
  wf TSize {| array_ := arr1; startIdx_ := startIdx_ q; count_ := count_ q |} /\
  forall j, j < count_ q ->
    elements TSize {| array_ := arr1; startIdx_ := startIdx_ q; count_ := count_ q |}
      !! j = arr1 !! cellIndex TSize q j.
Proof.
  intros Hwf Hlen Hlive.
  assert (Hwf1 : wf TSize
            {| array_ := arr1; startIdx_ := startIdx_ q; count_ := count_ q |}).
  { split; cbn [array_ startIdx_ count_].
    - exact Hlen.
    - apply (wf_start _ _ Hwf).
    - apply (wf_count _ _ Hwf).
    - intros j Hj. destruct (Hlive j Hj) as [x Hx]. exists x.
      unfold at_index.
      change (cellIndex TSize
                {| array_ := arr1; startIdx_ := startIdx_ q; count_ := count_ q |} j)
        with (cellIndex TSize q j).
      cbn [array_]. rewrite Hx. reflexivity. }
  split; [exact Hwf1|]. intros j Hj.
  rewrite (elements_lookup_cell _ _ Hwf1) by exact Hj. reflexivity.
Qed.

Lemma erase_rangeOne_spec (q : Queue T) i :
  wf TSize q -> i < count_ q -> startIdx_ q + i < TSize ->
  wf TSize {| array_ := move_backward moved_from i (startIdx_ q) (startIdx_ q + 1)
                          (array_ q);
              startIdx_ := startIdx_ q; count_ := count_ q |} /\
  tail (elements TSize
          {| array_ := move_backward moved_from i (startIdx_ q) (startIdx_ q + 1)
                         (array_ q);
             startIdx_ := startIdx_ q; count_ := count_ q |}) =
    delete i (elements TSize q).
Proof.
  intros Hwf Hi Hfit. pose proof Hwf as [Hlen Hs Hc _].
  assert (Hsrc : forall k, startIdx_ q <= k < startIdx_ q + i ->
            exists v, array_ q !! k = Some (Some v)).
  { intros k Hk. destruct (live_cell q (k - startIdx_ q) Hwf) as [x Hx]; [lia|].
    exists x. rewrite cellIndex_eq in Hx by lia.
    destruct (Nat.leb_spec TSize (startIdx_ q + (k - startIdx_ q))); [lia|].
    rewrite <- Hx. f_equal. lia. }
  assert (Hcell : forall j, j < count_ q ->
            move_backward moved_from i (startIdx_ q) (startIdx_ q + 1) (array_ q)
              !! cellIndex TSize q j =
            if (0 <? j) && (j <=? i) then array_ q !! cellIndex TSize q (j - 1)
            else if (j =? 0) && (0 <? i)
                 then fmap moved_from <$> array_ q !! cellIndex TSize q j
                 else array_ q !! cellIndex TSize q j).
  { intros j Hj. rewrite move_backward_lookup by (try assumption; lia).
    rewrite !cellIndex_eq by lia.
    prune_nat_tests; cbn [andb]; try reflexivity; f_equal; lia. }
  destruct (wf_with_array q
              (move_backward moved_from i (startIdx_ q) (startIdx_ q + 1) (array_ q))
              Hwf) as [Hwf1 Hel].
  - rewrite length_move_backward. exact Hlen.
  - intros j Hj. rewrite (Hcell j Hj).
    destruct (live_cell q j Hwf Hj) as [x Hx].
    destruct ((0 <? j) && (j <=? i)) eqn:Hmid.
    + apply andb_true_iff in Hmid as [H1 H2].
      apply Nat.ltb_lt in H1. apply Nat.leb_le in H2.
      apply live_cell; [exact Hwf | lia].
    + destruct ((j =? 0) && (0 <? i)); rewrite Hx; eauto.
  - split; [exact Hwf1|]. apply list_eq. intros k. rewrite lookup_tail.
    destruct (Nat.lt_ge_cases (S k) (count_ q)) as [Hk|Hk].
    + rewrite Hel, Hcell by exact Hk.
      destruct (Nat.ltb_spec 0 (S k)); [|lia].
      destruct (Nat.eqb_spec (S k) 0); [lia|].
      destruct (Nat.leb_spec (S k) i); cbn [andb].
      * rewrite list_lookup_delete_lt by lia.
        rewrite (elements_lookup_cell _ _ Hwf) by lia. f_equal. f_equal. lia.
      * rewrite list_lookup_delete_ge by lia.
        rewrite (elements_lookup_cell _ _ Hwf) by lia. reflexivity.
    + rewrite list_lookup_delete_ge by lia.
      rewrite !lookup_ge_None_2; [reflexivity | |];
        rewrite length_elements; cbn [count_]; lia.
Qed.

Lemma erase_rangeTwo_spec (q : Queue T) i :
  wf TSize q -> i < count_ q -> TSize <= startIdx_ q + i ->
  wf TSize {| array_ := move_forward moved_from
                          (startIdx_ q + count_ q - TSize -
                           S (startIdx_ q + i - TSize))
                          (S (startIdx_ q + i - TSize)) (startIdx_ q + i - TSize)
                          (array_ q);
              startIdx_ := startIdx_ q; count_ := count_ q |} /\
  take (count_ q - 1)
    (elements TSize
       {| array_ := move_forward moved_from
                      (startIdx_ q + count_ q - TSize -
                       S (startIdx_ q + i - TSize))
                      (S (startIdx_ q + i - TSize)) (startIdx_ q + i - TSize)
                      (array_ q);
          startIdx_ := startIdx_ q; count_ := count_ q |}) =
    delete i (elements TSize q).
Proof.
  intros Hwf Hi Hwrap. pose proof Hwf as [Hlen Hs Hc _].
  assert (Hsrc : forall k,
            startIdx_ q + i - TSize < k <=
              startIdx_ q + i - TSize +
              (startIdx_ q + count_ q - TSize - S (startIdx_ q + i - TSize)) ->
            exists v, array_ q !! k = Some (Some v)).
  { intros k Hk. destruct (live_cell q (k + TSize - startIdx_ q) Hwf) as [x Hx]; [lia|].
    exists x. rewrite cellIndex_eq in Hx by lia.
    destruct (Nat.leb_spec TSize (startIdx_ q + (k + TSize - startIdx_ q))); [|lia].
    rewrite <- Hx. f_equal. lia. }
  assert (Hcell : forall j, j < count_ q ->
            move_forward moved_from
              (startIdx_ q + count_ q - TSize - S (startIdx_ q + i - TSize))
              (S (startIdx_ q + i - TSize)) (startIdx_ q + i - TSize) (array_ q)
              !! cellIndex TSize q j =
            if (i <=? j) && (j <? count_ q - 1)
            then array_ q !! cellIndex TSize q (S j)
            else if (j =? count_ q - 1) && (i <? count_ q - 1)
                 then fmap moved_from <$> array_ q !! cellIndex TSize q j
                 else array_ q !! cellIndex TSize q j).
  { intros j Hj. rewrite move_forward_lookup by (try assumption; lia).
    rewrite !cellIndex_eq by lia.
    prune_nat_tests; cbn [andb]; try reflexivity; f_equal; lia. }
  destruct (wf_with_array q
              (move_forward moved_from
                 (startIdx_ q + count_ q - TSize - S (startIdx_ q + i - TSize))
                 (S (startIdx_ q + i - TSize)) (startIdx_ q + i - TSize) (array_ q))
              Hwf) as [Hwf1 Hel].
  - rewrite length_move_forward. exact Hlen.
  - intros j Hj. rewrite (Hcell j Hj).
    destruct (live_cell q j Hwf Hj) as [x Hx].
    destruct ((i <=? j) && (j <? count_ q - 1)) eqn:Hmid.
    + apply andb_true_iff in Hmid as [H1 H2].
      apply Nat.leb_le in H1. apply Nat.ltb_lt in H2.
      apply live_cell; [exact Hwf | lia].
    + destruct ((j =? count_ q - 1) && (i <? count_ q - 1)); rewrite Hx; eauto.
  - split; [exact Hwf1|]. apply list_eq. intros k.
    destruct (Nat.lt_ge_cases k (count_ q - 1)) as [Hk|Hk].
    + rewrite lookup_take_lt by exact Hk. rewrite Hel, Hcell by lia.
      destruct (Nat.ltb_spec k (count_ q - 1)); [|lia].
      destruct (Nat.leb_spec i k); cbn [andb].
      * rewrite list_lookup_delete_ge by assumption.
        rewrite (elements_lookup_cell _ _ Hwf) by lia. reflexivity.
      * destruct (Nat.eqb_spec k (count_ q - 1)); [lia|]. cbn [andb].
        rewrite list_lookup_delete_lt by assumption.
        rewrite (elements_lookup_cell _ _ Hwf) by lia. reflexivity.
    + rewrite lookup_take_ge by exact Hk.
      rewrite list_lookup_delete_ge by lia.
      rewrite lookup_ge_None_2; [reflexivity|]. rewrite length_elements. lia.
Qed.

Lemma if_same_fst {A B : Type} (b : bool) (x : A) (y z : B) :
  (if b then (x, y) else (x, z)) = (x, if b then y else z).
Proof. destruct b; reflexivity. Qed.

Lemma startIdx_popBack (q : Queue T) :
  startIdx_ (popBack TSize q) = startIdx_ q.
Proof. unfold popBack. destruct (isEmpty q); reflexivity. Qed.

Lemma cellIndex_same_start (q1 q : Queue T) i :
  startIdx_ q1 = startIdx_ q -> cellIndex TSize q1 i = cellIndex TSize q i.
Proof. intros Hs. unfold cellIndex. rewrite Hs. reflexivity. Qed.

Lemma ranges_of_cell (q : Queue T) i :
  wf TSize q -> i < count_ q ->
  (startIdx_ q + i < TSize ->
   fst (arrayOne TSize q) = startIdx_ q /\
   isInRange (startIdx_ q + i) (arrayOne TSize q) = true) /\
  (TSize <= startIdx_ q + i ->
   isInRange (startIdx_ q + i - TSize) (arrayOne TSize q) = false /\
   snd (arrayTwo TSize q) = startIdx_ q + count_ q - TSize /\
   isInRange (startIdx_ q + i - TSize) (arrayTwo TSize q) = true).
Proof.
  intros Hwf Hi. pose proof Hwf as [Hlen Hs Hc _].
  unfold isInRange, arrayTwo, isLinearised, arrayOne, isEmpty, size, capacity.
  destruct (Nat.eqb_spec (count_ q) 0); [lia|]. cbn [orb].
  split; intros Hcase.
  - destruct (Nat.ltb_spec (startIdx_ q + count_ q) TSize); cbn [fst snd];
      case_nat_tests; cbn [andb]; split; try reflexivity; lia.
  - destruct (Nat.leb_spec (startIdx_ q + count_ q) TSize); [lia|].
    destruct (Nat.ltb_spec (startIdx_ q + count_ q) TSize); [lia|].
    cbn [fst snd]. case_nat_tests; cbn [andb];
      repeat split; try reflexivity; lia.
Qed.

Lemma cell_of_range (q : Queue T) pos :
  wf TSize q ->
  isInRange pos (arrayOne TSize q) = true \/
  isInRange pos (arrayTwo TSize q) = true ->
  exists i, i < count_ q /\ pos = cellIndex TSize q i.
Proof.
  intros Hwf. pose proof Hwf as [Hlen Hs Hc _].
  unfold isInRange, arrayTwo, isLinearised, arrayOne, isEmpty, size, capacity.
  destruct (Nat.eqb_spec (count_ q) 0) as [Hz|Hnz]; cbn [orb fst snd].
  { intros [Hin|Hin]; apply andb_true_iff in Hin as [H1 H2];
      apply Nat.leb_le in H1; apply Nat.ltb_lt in H2; lia. }
  destruct (Nat.leb_spec (startIdx_ q + count_ q) TSize) as [Hlin|Hwrap];
    cbn [fst snd].
  - destruct (Nat.ltb_spec (startIdx_ q + count_ q) TSize);
      intros [Hin|Hin]; apply andb_true_iff in Hin as [H1 H2];
      apply Nat.leb_le in H1; apply Nat.ltb_lt in H2; try lia;
      (exists (pos - startIdx_ q); split; [lia|];
       rewrite cellIndex_eq by lia; case_nat_tests; lia).
  - destruct (Nat.ltb_spec (startIdx_ q + count_ q) TSize); [lia|].
    intros [Hin|Hin]; apply andb_true_iff in Hin as [H1 H2];
      apply Nat.leb_le in H1; apply Nat.ltb_lt in H2.
    + exists (pos - startIdx_ q). split; [lia|].
      rewrite cellIndex_eq by lia. case_nat_tests; lia.
    + exists (pos + TSize - startIdx_ q). split; [lia|].
      rewrite cellIndex_eq by lia. case_nat_tests; lia.
Qed.

(** X15.  [erase(pos)], for [pos] the cell of the element at index [i]: the
    queue afterwards holds the former elements without that one, in the
    same order.  When an element followed the erased one, the iterator
    returned is the cell that element now occupies, unless the erased
    element occupied the last cell of the array: then the iterator
    returned is the end of the array.  A position that holds no element
    leaves the queue as it is and gives [invalidIter()]. *)
Theorem erase_removes_element (q : Queue T) :
  wf TSize q ->
  (forall i, i < size q ->
     wf TSize (erase TSize moved_from (cellIndex TSize q i) q).1 /\
     size (erase TSize moved_from (cellIndex TSize q i) q).1 = size q - 1 /\
     elements TSize (erase TSize moved_from (cellIndex TSize q i) q).1 =
       delete i (elements TSize q) /\
     (S i < size q ->
      (erase TSize moved_from (cellIndex TSize q i) q).2 =
        if startIdx_ q + i + 1 =? TSize then invalidIter TSize
        else cellIndex TSize (erase TSize moved_from (cellIndex TSize q i) q).1 i)) /\
  (forall pos, (forall i, i < size q -> pos <> cellIndex TSize q i) ->
     erase TSize moved_from pos q = (q, invalidIter TSize)).
Proof.
  intros Hwf. pose proof Hwf as [Hlen Hs Hc _]. unfold size. split.
  - intros i Hi. destruct (ranges_of_cell q i Hwf Hi) as [HrangeOne HrangeTwo].
    destruct (Nat.lt_ge_cases (startIdx_ q + i) TSize) as [Hfit|Hwrap].
    + destruct (HrangeOne Hfit) as [Hfst Hin].
      destruct (erase_rangeOne_spec q i Hwf Hi Hfit) as [Hwf1 Hel1].
      assert (Hpos : cellIndex TSize q i = startIdx_ q + i).
      { rewrite cellIndex_eq by lia. case_nat_tests; lia. }
      unfold erase. cbv zeta. rewrite Hpos, Hin, Hfst, if_same_fst.
      replace (startIdx_ q + i - startIdx_ q) with i by lia.
      cbn [fst snd].
      split; [apply wf_popFront, Hwf1|].
      split; [rewrite count_popFront; reflexivity|].
      split; [rewrite (elements_popFront _ Hwf1); exact Hel1|].
      intros Hnext. unfold isEmpty, size. rewrite count_popFront. cbn [count_].
      destruct (Nat.eqb_spec (count_ q - 1) 0); [lia|]. cbn [negb].
      destruct (Nat.eqb_spec (startIdx_ q + i + 1) TSize) as [Hlast|Hmid].
      * exact Hlast.
      * rewrite (cellIndex_popFront _ _ Hwf1) by exact Hnext.
        rewrite (cellIndex_same_start _ q) by reflexivity.
        rewrite cellIndex_eq by lia. case_nat_tests; lia.
    + destruct (HrangeTwo Hwrap) as (Hout & Hsnd & Hin).
      destruct (erase_rangeTwo_spec q i Hwf Hi Hwrap) as [Hwf1 Hel1].
      assert (Hpos : cellIndex TSize q i = startIdx_ q + i - TSize).
      { rewrite cellIndex_eq by lia. case_nat_tests; lia. }
      unfold erase. cbv zeta. rewrite Hpos, Hout, Hin, Hsnd, if_same_fst.
      rewrite !Nat.add_1_r. cbn [fst snd].
      split; [apply wf_popBack, Hwf1|].
      split; [rewrite count_popBack; reflexivity|].
      split; [rewrite (elements_popBack _ Hwf1); exact Hel1|].
      intros Hnext.
      unfold isLinearised, isEmpty, size, capacity.
      rewrite count_popBack, startIdx_popBack. cbn [count_ startIdx_].
      destruct (Nat.eqb_spec (count_ q - 1) 0); [lia|].
      destruct (Nat.leb_spec (startIdx_ q + (count_ q - 1)) TSize); [lia|].
      cbn [orb negb].
      destruct (Nat.eqb_spec (S (startIdx_ q + i)) TSize); [lia|].
      rewrite (cellIndex_same_start _ q) by (rewrite startIdx_popBack; reflexivity).
      symmetry. exact Hpos.
  - intros pos Hpos.
    assert (Hone : isInRange pos (arrayOne TSize q) = false).
    { destruct (isInRange pos (arrayOne TSize q)) eqn:Hin; [|reflexivity].
      destruct (cell_of_range q pos Hwf (or_introl Hin)) as (i & Hi & ->).
      destruct (Hpos i Hi). reflexivity. }
    assert (Htwo : isInRange pos (arrayTwo TSize q) = false).
    { destruct (isInRange pos (arrayTwo TSize q)) eqn:Hin; [|reflexivity].
      destruct (cell_of_range q pos Hwf (or_intror Hin)) as (i & Hi & ->).
      destruct (Hpos i Hi). reflexivity. }
    unfold erase. cbv zeta. rewrite Hone, Htwo. reflexivity.
Qed.

(** ** Inserting an element *)

Lemma arrayOne_fst (q : Queue T) : fst (arrayOne TSize q) = startIdx_ q.
Proof. unfold arrayOne. destruct (isEmpty q); reflexivity. Qed.

(** The end position of the elements: the end of the second range. *)
Lemma arrayTwo_snd (q : Queue T) :
  wf TSize q ->
  snd (arrayTwo TSize q) =
    if count_ q =? 0 then startIdx_ q
    else if startIdx_ q + count_ q <=? TSize then startIdx_ q + count_ q
         else startIdx_ q + count_ q - TSize.
Proof.
  intros [Hlen Hs Hc _].
  unfold arrayTwo, isLinearised, arrayOne, isEmpty, size, capacity.
  destruct (Nat.eqb_spec (count_ q) 0); cbn [orb fst snd]; [reflexivity|].
  destruct (Nat.leb_spec (startIdx_ q + count_ q) TSize); cbn [fst snd];
    [|reflexivity].
  destruct (Nat.ltb_spec (startIdx_ q + count_ q) TSize); cbn [snd]; lia.
Qed.

Lemma lookup_splice {X : Type} (l mid : list X) i k j :
  i <= length l ->
  (take i l ++ mid ++ drop k l) !! j =
    if j <? i then l !! j
    else if j <? i + length mid then mid !! (j - i)
         else l !! (k + (j - i - length mid)).
Proof.
  intros Hi. destruct (Nat.ltb_spec j i).
  - rewrite lookup_app_l by (rewrite length_take; lia).
    apply lookup_take_lt. assumption.
  - rewrite lookup_app_r by (rewrite length_take; lia).
    rewrite length_take. replace (i `min` length l) with i by lia.
    destruct (Nat.ltb_spec j (i + length mid)).
    + apply lookup_app_l. lia.
    + rewrite lookup_app_r by lia. apply lookup_drop.
Qed.

Lemma move_out_eq (q : Queue T) j :
  wf TSize q -> j < count_ q ->
  exists e,
    at_index TSize q j = Some e /\
    array_ q !! cellIndex TSize q j = Some (Some e) /\
    move_out TSize moved_from j q =
      {| array_ := <[cellIndex TSize q j := Some (moved_from e)]> (array_ q);
         startIdx_ := startIdx_ q;
         count_ := count_ q |}.
Proof.
  intros Hwf Hj. destruct (live_cell q j Hwf Hj) as [e He]. exists e.
  assert (Hat : at_index TSize q j = Some e) by (unfold at_index; rewrite He; reflexivity).
  split; [exact Hat|]. split; [exact He|].
  unfold move_out. rewrite Hat. reflexivity.
Qed.

Lemma lookup_insert_if {X : Type} (l : list X) i x j :
  i < length l ->
  <[i := x]> l !! j = if j =? i then Some x else l !! j.
Proof.
  intros Hi. destruct (Nat.eqb_spec j i) as [->|Hne].
  - apply list_lookup_insert_eq, Hi.
  - apply list_lookup_insert_ne. congruence.
Qed.

Lemma insert_rangeTwo_spec (q : Queue T) i v lastElem pos arr2 :
  wf TSize q -> count_ q < TSize -> i < count_ q -> TSize <= startIdx_ q + i ->
  array_ q !! cellIndex TSize q (count_ q - 1) = Some (Some lastElem) ->
  pos = startIdx_ q + i - TSize ->
  arr2 = <[pos := Some v]>
           (move_backward moved_from (startIdx_ q + count_ q - TSize - 1 - pos)
              pos (pos + 1)
              (<[cellIndex TSize q (count_ q - 1) := Some (moved_from lastElem)]>
                 (array_ q))) ->
  wf TSize {| array_ := arr2; startIdx_ := startIdx_ q; count_ := count_ q |} /\
  elements TSize
    (pushBackNotFull TSize lastElem
       {| array_ := arr2; startIdx_ := startIdx_ q; count_ := count_ q |}) =
    take i (elements TSize q) ++ [Some v] ++ drop i (elements TSize q).
Proof.
  intros Hwf Hroom Hi Hwrap Hlast -> ->. pose proof Hwf as [Hlen Hs Hc _].
  assert (Hcl : cellIndex TSize q (count_ q - 1) = startIdx_ q + count_ q - TSize - 1).
  { rewrite cellIndex_eq by lia. case_nat_tests; lia. }
  rewrite Hcl in *.
  set (arr0 := <[startIdx_ q + count_ q - TSize - 1 := Some (moved_from lastElem)]>
                 (array_ q)).
  assert (Hlen0 : length arr0 = TSize) by (unfold arr0; rewrite length_insert; exact Hlen).
  assert (Harr0 : forall c, arr0 !! c =
            if c =? startIdx_ q + count_ q - TSize - 1
            then Some (Some (moved_from lastElem)) else array_ q !! c).
  { intros c. unfold arr0. apply lookup_insert_if. lia. }
  assert (Hcellq : forall j, j < count_ q ->
            exists x, array_ q !! cellIndex TSize q j = Some (Some x) /\
                      elements TSize q !! j = Some (Some x)).
  { intros j Hj. destruct (live_cell q j Hwf Hj) as [x Hx]. exists x.
    split; [exact Hx|]. rewrite (elements_lookup_cell _ _ Hwf) by exact Hj. exact Hx. }
  assert (Hsrc : forall k,
            startIdx_ q + i - TSize <= k <
              startIdx_ q + i - TSize +
              (startIdx_ q + count_ q - TSize - 1 - (startIdx_ q + i - TSize)) ->
            exists w, arr0 !! k = Some (Some w)).
  { intros k Hk. destruct (Hcellq (k + TSize - startIdx_ q)) as (x & Hx & _); [lia|].
    exists x. rewrite Harr0. destruct (Nat.eqb_spec k (startIdx_ q + count_ q - TSize - 1)); [lia|].
    rewrite cellIndex_eq in Hx by lia.
    destruct (Nat.leb_spec TSize (startIdx_ q + (k + TSize - startIdx_ q))); [|lia].
    rewrite <- Hx. f_equal. lia. }
  set (arr1 := move_backward moved_from
                 (startIdx_ q + count_ q - TSize - 1 - (startIdx_ q + i - TSize))
                 (startIdx_ q + i - TSize) (startIdx_ q + i - TSize + 1) arr0).
  assert (Hlen1 : length arr1 = TSize)
    by (unfold arr1; rewrite length_move_backward; exact Hlen0).
  assert (Hcell : forall j, j < count_ q ->
            <[startIdx_ q + i - TSize := Some v]> arr1 !! cellIndex TSize q j =
            if j <? i then array_ q !! cellIndex TSize q j
            else if j =? i then Some (Some v)
                 else array_ q !! cellIndex TSize q (j - 1)).
  { intros j Hj. rewrite lookup_insert_if by lia.
    unfold arr1. rewrite move_backward_lookup by (try assumption; lia).
    rewrite !Harr0. rewrite !cellIndex_eq by lia.
    prune_nat_tests; cbn [andb]; try reflexivity; f_equal; lia. }
  destruct (wf_with_array q (<[startIdx_ q + i - TSize := Some v]> arr1) Hwf)
    as [Hwf2 Hel2].
  { rewrite length_insert. exact Hlen1. }
  { intros j Hj. rewrite (Hcell j Hj).
    destruct (Nat.ltb_spec j i).
    - destruct (Hcellq j Hj) as (x & Hx & _). eauto.
    - destruct (Nat.eqb_spec j i); [eauto|].
      destruct (Hcellq (j - 1)) as (x & Hx & _); [lia | eauto]. }
  split; [exact Hwf2|].
  rewrite elements_pushBackNotFull by (try exact Hwf2; exact Hroom).
  apply list_eq. intros j.
  rewrite lookup_splice by (rewrite length_elements; lia). cbn [length].
  destruct (Nat.lt_ge_cases j (count_ q)) as [Hj|Hj].
  - rewrite lookup_app_l by (rewrite length_elements; exact Hj).
    rewrite Hel2, Hcell by exact Hj.
    destruct (Nat.ltb_spec j i).
    + rewrite (elements_lookup_cell _ _ Hwf) by lia. reflexivity.
    + destruct (Nat.eqb_spec j i) as [->|Hne].
      * destruct (Nat.ltb_spec i (i + 1)); [|lia].
        rewrite Nat.sub_diag. reflexivity.
      * destruct (Nat.ltb_spec j (i + 1)); [lia|].
        rewrite (elements_lookup_cell _ _ Hwf) by lia. f_equal. f_equal. lia.
  - rewrite lookup_app_r by (rewrite length_elements; exact Hj).
    rewrite length_elements. cbn [count_].
    destruct (Nat.ltb_spec j i); [lia|].
    destruct (Nat.ltb_spec j (i + 1)); [lia|].
    destruct (Nat.eq_dec j (count_ q)) as [->|Hne].
    + rewrite Nat.sub_diag. cbn [lookup list_lookup].
      rewrite (elements_lookup_cell _ _ Hwf) by lia.
      rewrite cellIndex_eq by lia.
      destruct (Nat.leb_spec TSize (startIdx_ q + (i + (count_ q - i - 1)))); [|lia].
      rewrite <- Hlast. f_equal. lia.
    + rewrite !lookup_ge_None_2; [reflexivity | |].
      * rewrite length_elements. lia.
      * cbn [length]. lia.
Qed.

Lemma insert_rangeOne_spec (q : Queue T) i v firstElem pos arr2 :
  wf TSize q -> count_ q < TSize -> 0 < i < count_ q -> startIdx_ q + i < TSize ->
  array_ q !! cellIndex TSize q 0 = Some (Some firstElem) ->
  pos = startIdx_ q + i ->
  arr2 = <[pos := Some v]>
           (move_forward moved_from (pos - (startIdx_ q + 1)) (startIdx_ q + 1)
              (startIdx_ q)
              (<[cellIndex TSize q 0 := Some (moved_from firstElem)]> (array_ q))) ->
  exists e,
    elements TSize q !! (i - 1) = Some (Some e) /\
    wf TSize {| array_ := arr2; startIdx_ := startIdx_ q; count_ := count_ q |} /\
    elements TSize
      (pushFrontNotFull TSize firstElem
         {| array_ := arr2; startIdx_ := startIdx_ q; count_ := count_ q |}) =
      take i (elements TSize q) ++ [Some (moved_from e); Some v] ++
      drop (S i) (elements TSize q).
Proof.
  intros Hwf Hroom Hi Hfit Hfirst -> ->. pose proof Hwf as [Hlen Hs Hc _].
  assert (Hc0 : cellIndex TSize q 0 = startIdx_ q).
  { rewrite cellIndex_eq by lia. prune_nat_tests. lia. }
  rewrite Hc0 in *. rewrite Nat.add_1_r.
  set (arr0 := <[startIdx_ q := Some (moved_from firstElem)]> (array_ q)).
  assert (Hlen0 : length arr0 = TSize) by (unfold arr0; rewrite length_insert; exact Hlen).
  assert (Harr0 : forall c, arr0 !! c =
            if c =? startIdx_ q then Some (Some (moved_from firstElem))
            else array_ q !! c).
  { intros c. unfold arr0. apply lookup_insert_if. lia. }
  assert (Hcellq : forall j, j < count_ q ->
            exists x, array_ q !! cellIndex TSize q j = Some (Some x) /\
                      elements TSize q !! j = Some (Some x)).
  { intros j Hj. destruct (live_cell q j Hwf Hj) as [x Hx]. exists x.
    split; [exact Hx|]. rewrite (elements_lookup_cell _ _ Hwf) by exact Hj. exact Hx. }
  destruct (Hcellq (i - 1)) as (e & Hecell & He); [lia|].
  exists e. split; [exact He|].
  rewrite cellIndex_eq in Hecell by lia.
  destruct (Nat.leb_spec TSize (startIdx_ q + (i - 1))); [lia|].
  assert (Hsrc : forall k,
            startIdx_ q < k <= startIdx_ q + (startIdx_ q + i - S (startIdx_ q)) ->
            exists w, arr0 !! k = Some (Some w)).
  { intros k Hk. destruct (Hcellq (k - startIdx_ q)) as (x & Hx & _); [lia|].
    exists x. rewrite Harr0. destruct (Nat.eqb_spec k (startIdx_ q)); [lia|].
    rewrite cellIndex_eq in Hx by lia.
    destruct (Nat.leb_spec TSize (startIdx_ q + (k - startIdx_ q))); [lia|].
    rewrite <- Hx. f_equal. lia. }
  set (arr1 := move_forward moved_from (startIdx_ q + i - S (startIdx_ q))
                 (S (startIdx_ q)) (startIdx_ q) arr0).
  assert (Hlen1 : length arr1 = TSize)
    by (unfold arr1; rewrite length_move_forward; exact Hlen0).
  assert (Hcell : forall j, j < count_ q ->
            <[startIdx_ q + i := Some v]> arr1 !! cellIndex TSize q j =
            if j <? i - 1 then array_ q !! cellIndex TSize q (S j)
            else if j =? i - 1 then Some (Some (moved_from e))
                 else if j =? i then Some (Some v)
                      else array_ q !! cellIndex TSize q j).
  { intros j Hj. rewrite lookup_insert_if by lia.
    unfold arr1. rewrite move_forward_lookup by (try assumption; lia).
    rewrite !Harr0. rewrite !cellIndex_eq by lia.
    assert (Hsame : i = 1 -> firstElem = e).
    { intros ->. replace (startIdx_ q + (1 - 1)) with (startIdx_ q) in Hecell by lia.
      congruence. }
    prune_nat_tests; cbn [andb fmap option_fmap option_map];
      try reflexivity; try (f_equal; lia).
    all: try (replace (startIdx_ q + j) with (startIdx_ q + (i - 1)) by lia;
              rewrite Hecell; reflexivity).
    all: try (rewrite (Hsame ltac:(lia)); reflexivity). }
  destruct (wf_with_array q (<[startIdx_ q + i := Some v]> arr1) Hwf)
    as [Hwf2 Hel2].
  { rewrite length_insert. exact Hlen1. }
  { intros j Hj. rewrite (Hcell j Hj).
    destruct (Nat.ltb_spec j (i - 1)).
    - destruct (Hcellq (S j)) as (x & Hx & _); [lia | eauto].
    - destruct (Nat.eqb_spec j (i - 1)); [eauto|].
      destruct (Nat.eqb_spec j i); [eauto|].
      destruct (Hcellq j Hj) as (x & Hx & _). eauto. }
  split; [exact Hwf2|].
  rewrite elements_pushFrontNotFull by (try exact Hwf2; exact Hroom).
  apply list_eq. intros j.
  rewrite lookup_splice by (rewrite length_elements; lia). cbn [length].
  destruct j as [|j].
  - destruct (Nat.ltb_spec 0 i); [|lia]. cbn [lookup list_lookup].
    rewrite (elements_lookup_cell _ _ Hwf) by lia.
    rewrite cellIndex_eq by lia. prune_nat_tests.
    rewrite <- Hfirst. f_equal. lia.
  - change ((Some firstElem ::
             elements TSize
               {| array_ := <[startIdx_ q + i := Some v]> arr1;
                  startIdx_ := startIdx_ q; count_ := count_ q |}) !! S j)
      with (elements TSize
              {| array_ := <[startIdx_ q + i := Some v]> arr1;
                 startIdx_ := startIdx_ q; count_ := count_ q |} !! j).
    destruct (Nat.lt_ge_cases j (count_ q)) as [Hj|Hj].
    + rewrite Hel2, Hcell by exact Hj.
      destruct (Nat.ltb_spec j (i - 1)).
      * destruct (Nat.ltb_spec (S j) i); [|lia].
        rewrite (elements_lookup_cell _ _ Hwf) by lia. reflexivity.
      * destruct (Nat.ltb_spec (S j) i); [lia|].
        destruct (Nat.eqb_spec j (i - 1)) as [->|Hne1].
        -- destruct (Nat.ltb_spec (S (i - 1)) (i + 2)); [|lia].
           replace (S (i - 1) - i) with 0 by lia. reflexivity.
        -- destruct (Nat.eqb_spec j i) as [->|Hne2].
           ++ destruct (Nat.ltb_spec (S i) (i + 2)); [|lia].
              replace (S i - i) with 1 by lia. reflexivity.
           ++ destruct (Nat.ltb_spec (S j) (i + 2)); [lia|].
              rewrite (elements_lookup_cell _ _ Hwf) by lia.
              f_equal. f_equal. lia.
    + destruct (Nat.ltb_spec (S j) i); [lia|].
      destruct (Nat.ltb_spec (S j) (i + 2)); [lia|].
      rewrite !lookup_ge_None_2; [reflexivity | |];
        rewrite length_elements; cbn [count_]; lia.
Qed.

(** The branch [insertNotFull] takes for the position of index [i], and
    what it returns there. *)
Lemma insertNotFull_branch (q : Queue T) v i pos :
  wf TSize q -> count_ q < TSize -> i <= count_ q ->
  pos = (if i <? size q then cellIndex TSize q i else snd (arrayTwo TSize q)) ->
  (i = 0 ->
   insertNotFull TSize moved_from pos v q =
     (pushFrontNotFull TSize v q, startIdx_ (pushFrontNotFull TSize v q))) /\
  (0 < i -> i = count_ q ->
   insertNotFull TSize moved_from pos v q =
     (pushBackNotFull TSize v q,
      snd (arrayTwo TSize (pushBackNotFull TSize v q)) - 1)) /\
  (0 < i < count_ q -> startIdx_ q + i < TSize ->
   exists firstElem,
     array_ q !! cellIndex TSize q 0 = Some (Some firstElem) /\
     pos = startIdx_ q + i /\
     insertNotFull TSize moved_from pos v q =
       (pushFrontNotFull TSize firstElem
          {| array_ :=
               <[pos := Some v]>
                 (move_forward moved_from (pos - (startIdx_ q + 1))
                    (startIdx_ q + 1) (startIdx_ q)
                    (<[cellIndex TSize q 0 := Some (moved_from firstElem)]>
                       (array_ q)));
             startIdx_ := startIdx_ q;
             count_ := count_ q |}, pos)) /\
  (0 < i < count_ q -> TSize <= startIdx_ q + i ->
   exists lastElem,
     array_ q !! cellIndex TSize q (count_ q - 1) = Some (Some lastElem) /\
     pos = startIdx_ q + i - TSize /\
     insertNotFull TSize moved_from pos v q =
       (pushBackNotFull TSize lastElem
          {| array_ :=
               <[pos := Some v]>
                 (move_backward moved_from
                    (startIdx_ q + count_ q - TSize - 1 - pos) pos (pos + 1)
                    (<[cellIndex TSize q (count_ q - 1) :=
                         Some (moved_from lastElem)]> (array_ q)));
             startIdx_ := startIdx_ q;
             count_ := count_ q |}, pos)).
Proof.
  unfold size. intros Hwf Hroom Hi Hpos.
  pose proof Hwf as [Hlen Hs Hc _].
  pose proof (arrayTwo_snd q Hwf) as Hend.
  split; [|split; [|split]].
  - intros ->.
    assert (Hp : pos = startIdx_ q).
    { rewrite Hpos. destruct (Nat.ltb_spec 0 (count_ q)).
      - rewrite cellIndex_eq by lia. prune_nat_tests. lia.
      - rewrite Hend. destruct (Nat.eqb_spec (count_ q) 0); [reflexivity | lia]. }
    unfold insertNotFull. cbv zeta. rewrite arrayOne_fst, Hp, Nat.eqb_refl.
    rewrite arrayOne_fst. reflexivity.
  - intros Hpos0 ->.
    assert (Hp : pos = snd (arrayTwo TSize q)).
    { rewrite Hpos. destruct (Nat.ltb_spec (count_ q) (count_ q)); [lia|].
      reflexivity. }
    assert (Hne : pos <> startIdx_ q).
    { rewrite Hp, Hend. prune_nat_tests; lia. }
    unfold insertNotFull. cbv zeta. rewrite arrayOne_fst.
    destruct (Nat.eqb_spec pos (startIdx_ q)); [contradiction|].
    destruct (Nat.eqb_spec pos (snd (arrayTwo TSize q))); [|contradiction].
    reflexivity.
  - intros Hmid Hfit.
    destruct (Nat.ltb_spec i (count_ q)); [|lia].
    destruct (ranges_of_cell q i Hwf ltac:(lia)) as [HrangeOne _].
    destruct (HrangeOne Hfit) as [_ Hin1].
    assert (Hp : pos = startIdx_ q + i).
    { rewrite Hpos, cellIndex_eq by lia. prune_nat_tests. lia. }
    destruct (move_out_eq q 0 Hwf) as (firstElem & Hfront & Hcell & Hout); [lia|].
    exists firstElem. split; [exact Hcell|]. split; [exact Hp|].
    unfold insertNotFull. cbv zeta. rewrite arrayOne_fst.
    destruct (Nat.eqb_spec pos (startIdx_ q)); [lia|].
    destruct (Nat.eqb_spec pos (snd (arrayTwo TSize q))) as [Heq|_].
    { rewrite Hend in Heq. revert Heq. prune_nat_tests; lia. }
    rewrite <- Hp in Hin1. rewrite Hin1. unfold front. rewrite Hfront, Hout.
    reflexivity.
  - intros Hmid Hwrap.
    destruct (Nat.ltb_spec i (count_ q)); [|lia].
    destruct (ranges_of_cell q i Hwf ltac:(lia)) as [_ HrangeTwo].
    destruct (HrangeTwo Hwrap) as (Hout1 & Hsnd & Hin2).
    assert (Hp : pos = startIdx_ q + i - TSize).
    { rewrite Hpos, cellIndex_eq by lia. prune_nat_tests. lia. }
    destruct (move_out_eq q (count_ q - 1) Hwf)
      as (lastElem & Hback & Hcell & Hout); [lia|].
    exists lastElem. split; [exact Hcell|]. split; [exact Hp|].
    unfold insertNotFull. cbv zeta. rewrite arrayOne_fst.
    destruct (Nat.eqb_spec pos (startIdx_ q)); [lia|].
    destruct (Nat.eqb_spec pos (snd (arrayTwo TSize q))) as [Heq|_].
    { rewrite Hsnd in Heq. lia. }
    rewrite <- Hp in Hout1, Hin2. rewrite Hout1, Hin2, Hsnd.
    unfold back, isEmpty, size.
    destruct (Nat.eqb_spec (count_ q) 0); [lia|]. cbn [negb].
    rewrite Hback, Hout. reflexivity.
Qed.


Lemma wf_insertNotFull (q : Queue T) v pos :
  wf TSize q -> count_ q < TSize ->
  wf TSize (insertNotFull TSize moved_from pos v q).1.
Proof.
  intros Hwf Hroom. pose proof (arrayTwo_snd q Hwf) as Hend.
  pose proof Hwf as [Hlen Hs Hc _].
  assert (Hindex : forall i, i <= count_ q ->
            pos = (if i <? size q then cellIndex TSize q i
                   else snd (arrayTwo TSize q)) ->
            wf TSize (insertNotFull TSize moved_from pos v q).1).
  { intros i Hi Hpos.
    destruct (insertNotFull_branch q v i pos Hwf Hroom Hi Hpos)
      as (Hfront & Hback & Hone & Htwo).
    destruct (Nat.eq_dec i 0) as [Hi0|Hi0].
    { rewrite (Hfront Hi0). apply wf_pushFrontNotFull; assumption. }
    destruct (Nat.eq_dec i (count_ q)) as [Hin|Hin].
    { rewrite (Hback ltac:(lia) Hin). apply wf_pushBackNotFull; assumption. }
    destruct (Nat.lt_ge_cases (startIdx_ q + i) TSize) as [Hfit|Hwrap].
    - destruct (Hone ltac:(lia) Hfit) as (firstElem & Hcell & Hp & Hbranch).
      rewrite Hbranch. cbn [fst].
      destruct (insert_rangeOne_spec q i v firstElem pos _ Hwf Hroom
                  ltac:(lia) Hfit Hcell Hp eq_refl) as (e & _ & Hwf2 & _).
      apply wf_pushFrontNotFull; assumption.
    - destruct (Htwo ltac:(lia) Hwrap) as (lastElem & Hcell & Hp & Hbranch).
      rewrite Hbranch. cbn [fst].
      destruct (insert_rangeTwo_spec q i v lastElem pos _ Hwf Hroom
                  ltac:(lia) Hwrap Hcell Hp eq_refl) as (Hwf2 & _).
      apply wf_pushBackNotFull; assumption. }
  destruct (Nat.eq_dec pos (startIdx_ q)) as [Hfront|Hfront].
  { apply (Hindex 0); [lia|]. unfold size.
    destruct (Nat.ltb_spec 0 (count_ q)).
    - rewrite cellIndex_eq by lia. prune_nat_tests. lia.
    - rewrite Hend. destruct (Nat.eqb_spec (count_ q) 0); [exact Hfront | lia]. }
  destruct (Nat.eq_dec pos (snd (arrayTwo TSize q))) as [Hback|Hback].
  { apply (Hindex (count_ q)); [lia|]. unfold size.
    destruct (Nat.ltb_spec (count_ q) (count_ q)); [lia | exact Hback]. }
  destruct (isInRange pos (arrayOne TSize q)) eqn:Hone.
  { destruct (cell_of_range q pos Hwf (or_introl Hone)) as (i & Hi & Hpos).
    apply (Hindex i); [lia|]. unfold size.
    destruct (Nat.ltb_spec i (count_ q)); [exact Hpos | lia]. }
  destruct (isInRange pos (arrayTwo TSize q)) eqn:Htwo.
  { destruct (cell_of_range q pos Hwf (or_intror Htwo)) as (i & Hi & Hpos).
    apply (Hindex i); [lia|]. unfold size.
    destruct (Nat.ltb_spec i (count_ q)); [exact Hpos | lia]. }
  unfold insertNotFull. cbv zeta. rewrite arrayOne_fst, Hone, Htwo.
  destruct (Nat.eqb_spec pos (startIdx_ q)); [contradiction|].
  destruct (Nat.eqb_spec pos (snd (arrayTwo TSize q))); [contradiction|].
  exact Hwf.
Qed.

(** X17.  [insert(pos, value)] keeps the representation invariant whatever the
    position and the overflow behaviour, so the size never exceeds the
    capacity.  On a queue that is not full it is [insertNotFull]; on a
    full queue the [IgnoreError] overload leaves the queue as it is and
    returns [invalidIter()], and the [Overwrite] overload does the same at
    the end position and otherwise removes the last element first. *)
Theorem insert_keeps_invariant behaviour (q : Queue T) v pos :
  wf TSize q ->
  wf TSize (insert TSize moved_from behaviour pos v q).1 /\
  size (insert TSize moved_from behaviour pos v q).1 <= capacity TSize /\
  (size q < capacity TSize ->
   insert TSize moved_from behaviour pos v q =
     insertNotFull TSize moved_from pos v q) /\
  (size q = capacity TSize ->
   insert TSize moved_from IgnoreError pos v q = (q, invalidIter TSize) /\
   (pos = snd (arrayTwo TSize q) ->
    insert TSize moved_from Overwrite pos v q = (q, invalidIter TSize)) /\
   (pos <> snd (arrayTwo TSize q) ->
    insert TSize moved_from Overwrite pos v q =
      insertNotFull TSize moved_from pos v (popBack TSize q))).
Proof.
  intros Hwf. pose proof Hwf as [Hlen Hs Hc _].
  assert (Hinv : wf TSize (insert TSize moved_from behaviour pos v q).1).
  { destruct behaviour; cbn [insert]; unfold insert_IgnoreError, insert_Overwrite,
      isFull, capacity.
    - destruct (Nat.leb_spec TSize (count_ q)); [exact Hwf|].
      apply wf_insertNotFull; [exact Hwf | lia].
    - destruct (Nat.leb_spec TSize (count_ q)).
      + destruct (pos =? snd (arrayTwo TSize q)); [exact Hwf|].
        apply wf_insertNotFull; [apply wf_popBack, Hwf|].
        rewrite count_popBack. lia.
      + apply wf_insertNotFull; [exact Hwf | lia]. }
  split; [exact Hinv|]. split; [apply (wf_count _ _ Hinv)|].
  unfold size, capacity. split.
  - intros Hroom. destruct behaviour; cbn [insert];
      unfold insert_IgnoreError, insert_Overwrite, isFull, capacity;
      destruct (Nat.leb_spec TSize (count_ q)); try lia; reflexivity.
  - intros Hfull. cbn [insert].
    unfold insert_IgnoreError, insert_Overwrite, isFull, capacity.
    destruct (Nat.leb_spec TSize (count_ q)); [|lia].
    split; [reflexivity|]. split.
    + intros ->. rewrite Nat.eqb_refl. reflexivity.
    + intros Hne. destruct (Nat.eqb_spec pos (snd (arrayTwo TSize q)));
        [contradiction | reflexivity].
Qed.

(** ** Subscripts, ends and the head index *)

(** X18.  For an index whose sum with the head index does not wrap
    around in [std::size_t], [operator[]] addresses the cell
    [(startIdx_ + index) mod capacity], always a cell of the array: it
    checks the index against no bound, so that [index] and
    [index + capacity] refer to the same cell. *)
Theorem subscript_wraps_around (q : Queue T) index :
  0 < TSize ->
  (Z.of_nat (startIdx_ q + index) < size_t_modulus)%Z ->
  cellIndex TSize q index = (startIdx_ q + index) mod TSize /\
  cellIndex TSize q index < TSize /\
  ((Z.of_nat (startIdx_ q + (index + TSize)) < size_t_modulus)%Z ->
   at_index TSize q (index + TSize) = at_index TSize q index).
Proof.
  intros Hpos _.
  assert (Hmod : forall i, cellIndex TSize q i = (startIdx_ q + i) mod TSize).
  { intros i. unfold cellIndex. cbv zeta. apply wrap_loop_mod; lia. }
  split; [apply Hmod|]. split.
  - rewrite Hmod. apply Nat.mod_upper_bound. lia.
  - intros _. unfold at_index. rewrite !Hmod.
    replace (startIdx_ q + (index + TSize)) with (startIdx_ q + index + 1 * TSize)
      by lia.
    rewrite Nat.Div0.mod_add. reflexivity.
Qed.

(** X20.  Pushing at one end and popping at the same end gives back the
    elements the queue held. *)
Theorem push_pop_round_trip (q : Queue T) v :
  wf TSize q -> size q < capacity TSize ->
  elements TSize (popBack TSize (pushBackNotFull TSize v q)) = elements TSize q /\
  elements TSize (popFront TSize (pushFrontNotFull TSize v q)) = elements TSize q /\
  size (popBack TSize (pushBackNotFull TSize v q)) = size q /\
  size (popFront TSize (pushFrontNotFull TSize v q)) = size q.
Proof.
  unfold size, capacity. intros Hwf Hroom.
  pose proof (wf_pushBackNotFull _ _ v Hwf Hroom) as Hback.
  pose proof (wf_pushFrontNotFull _ _ v Hwf Hroom) as Hfront.
  split; [|split; [|split]].
  - rewrite (elements_popBack _ Hback), elements_pushBackNotFull by assumption.
    cbn [pushBackNotFull createValueAtIndex count_].
    replace (count_ q + 1 - 1) with (length (elements TSize q))
      by (rewrite length_elements; lia).
    apply take_app_length.
  - rewrite (elements_popFront _ Hfront), elements_pushFrontNotFull by assumption.
    reflexivity.
  - rewrite count_popBack. cbn [pushBackNotFull createValueAtIndex count_]. lia.
  - rewrite count_popFront. cbn [pushFrontNotFull createValueAtIndex count_]. lia.
Qed.

(** X21.  Removing the only element: [popFront()] resets the head index to 0,
    [popBack()] leaves it where it is.  An empty queue can therefore have
    a head index other than 0, the state [arrayOne()] asserts against:
    with a capacity of 2 or more, [pushFront] then [popBack] on a new queue
    leaves it empty with the head index at the last cell. *)
Theorem pop_last_element_head (q : Queue T) v :
  wf TSize q ->
  (size q = 1 ->
   isEmpty (popFront TSize q) = true /\ startIdx_ (popFront TSize q) = 0 /\
   isEmpty (popBack TSize q) = true /\ startIdx_ (popBack TSize q) = startIdx_ q) /\
  isEmpty (popBack TSize (pushFrontNotFull TSize v (emptyQueue TSize))) = true /\
  startIdx_ (popBack TSize (pushFrontNotFull TSize v (emptyQueue TSize))) =
    TSize - 1.
Proof.
  intros Hwf. split; [|split].
  - unfold size. intros Hone.
    unfold isEmpty, size. rewrite count_popFront, count_popBack, Hone.
    split; [reflexivity|]. split; [apply startIdx_popFront_last, Hone|].
    split; [reflexivity | apply startIdx_popBack].
  - unfold isEmpty, size. rewrite count_popBack. reflexivity.
  - rewrite startIdx_popBack. reflexivity.
Qed.

End StaticQueueMembers.

(* ===================================================================== *)
(** * Part VIII. The allocator and the registry across [read]             *)
(* ===================================================================== *)

Section AllocatorBalance.

Import Comms.

Context {Msg A NL : Type}.
Context `{Message Msg} `{Allocator A} `{ProtocolLayer Msg NL}.

Variable TTraits : Traits.

Implicit Types (L : MsgIdLayer Msg A NL) (buf : streambuf).

(** X22.  Let the deleter undo [alloc].  A [read] called with an empty pointer
    that does not return [Success] hands back an empty pointer and leaves
    the allocator as it was: whatever it allocated it has released.  A
    [read] that returns [Success] with a message leaves the allocator in
    the state [alloc] gave, that is with exactly this message
    outstanding. *)
Theorem read_allocation_balance L buf size :
  (forall a a1 : A, alloc a = Some a1 -> release a1 = a) ->
  ((read TTraits L None buf size).1.1.1 <> Success ->
   (read TTraits L None buf size).1.1.2 = None /\
   allocator_ (read TTraits L None buf size).2 = allocator_ L) /\
  ((read TTraits L None buf size).1.1.1 = Success ->
   is_Some (read TTraits L None buf size).1.1.2 ->
   alloc (allocator_ L) = Some (allocator_ (read TTraits L None buf size).2)).
Proof.
  intros Hlaw.
  destruct (Nat.lt_ge_cases size (MsgIdLen TTraits)) as [Hshort|Hsize].
  { rewrite read_short by exact Hshort. cbn [fst snd].
    split; [auto | discriminate]. }
  destruct (factories_ L !! lower_bound (factories_ L)
              (getData (Endianness TTraits) (MsgIdLen TTraits) buf).1)
    as [f|] eqn:Hf.
  2:{ unfold read. destruct (Nat.ltb_spec size (MsgIdLen TTraits)); [lia|].
      destruct (getData (Endianness TTraits) (MsgIdLen TTraits) buf) as [id buf1].
      cbn [fst] in Hf. rewrite Hf. cbn [fst snd].
      split; [auto | discriminate]. }
  destruct (Z.eq_dec (factory_getId f)
              (getData (Endianness TTraits) (MsgIdLen TTraits) buf).1) as [Hid|Hid].
  2:{ unfold read. destruct (Nat.ltb_spec size (MsgIdLen TTraits)); [lia|].
      destruct (getData (Endianness TTraits) (MsgIdLen TTraits) buf) as [id buf1].
      cbn [fst] in Hf, Hid. rewrite Hf. apply Z.eqb_neq in Hid. rewrite Hid.
      cbn [negb fst snd]. split; [auto | discriminate]. }
  destruct (alloc (allocator_ L)) as [a1|] eqn:Halloc.
  2:{ rewrite (read_alloc_fails TTraits L buf size f) by assumption.
      cbn [fst snd]. split; [auto | discriminate]. }
  destruct f as [c]. cbn [factory_getId] in Hid.
  destruct (next_read (nextLayer_ L) (Some (construct c))
              (getData (Endianness TTraits) (MsgIdLen TTraits) buf).2
              (size - MsgIdLen TTraits))
    as [[[status msgPtr1] buf2] next'] eqn:Hnext.
  rewrite (read_delegates TTraits L buf size c a1 status msgPtr1 buf2 next')
    by assumption.
  cbn [fst snd allocator_].
  destruct (decide (status = Success)) as [Hs|Hs].
  - split; [contradiction|]. intros _ [m ->]. reflexivity.
  - split; [|contradiction]. intros _. split; [reflexivity|].
    apply Hlaw, Halloc.
Qed.

End AllocatorBalance.

Section RegistryLookup.

Import Comms.

Context {Msg : Type}.

(** X23.  The lookup of [read] in the registry the constructor built: for the
    ID of any registered factory, [std::lower_bound] stops at the first
    position that holds this ID.  Every factory before that position has a
    smaller ID; a factory that shares its ID with an earlier one is never
    the one selected. *)
Theorem lookup_stops_at_first_with_id (AllMessages : list (MsgClass Msg)) i g :
  registry_of AllMessages !! i = Some g ->
  lower_bound (registry_of AllMessages) (factory_getId g) <= i /\
  (exists f,
     registry_of AllMessages !! lower_bound (registry_of AllMessages) (factory_getId g) =
       Some f /\
     factory_getId f = factory_getId g) /\
  (forall j f,
     j < lower_bound (registry_of AllMessages) (factory_getId g) ->
     registry_of AllMessages !! j = Some f ->
     (factory_getId f < factory_getId g)%Z).
Proof.
  intros Hg.
  pose proof (std_sort_sorted (FactoryCreator (length AllMessages) AllMessages))
    as Hsorted.
  fold (registry_of AllMessages) in Hsorted.
  destruct (lower_bound_spec (registry_of AllMessages) (factory_getId g) Hsorted)
    as (_ & Hlo & _).
  split; [|split].
  - destruct (Nat.le_gt_cases
                (lower_bound (registry_of AllMessages) (factory_getId g)) i)
      as [Hle|Hgt]; [exact Hle|].
    pose proof (Hlo i g Hgt Hg). lia.
  - apply lower_bound_found; [exact Hsorted|].
    unfold registered_ids. apply list_elem_of_fmap. exists g.
    split; [reflexivity|]. eapply list_elem_of_lookup_2, Hg.
  - exact Hlo.
Qed.

End RegistryLookup.

(* ===================================================================== *)
(** * Part IX. The members on concrete queues and stacks                  *)
(* ===================================================================== *)

Import StaticQueue Comms.

Lemma wf_wrappedQueue5 : wf 5 wrappedQueue5.
Proof.
  split; simpl; try lia.
  intros i Hi. do 4 (destruct i as [|i]; [vm_compute; eauto|]). lia.
Defined.

Lemma wf_middleQueue5 : wf 5 middleQueue5.
Proof.
  split; simpl; try lia.
  intros i Hi. do 2 (destruct i as [|i]; [vm_compute; eauto|]). lia.
Defined.

Lemma popFront_removes_front_witness :
  wf 5 wrappedQueue5 /\
  elements 5 (popFront 5 wrappedQueue5) = tail (elements 5 wrappedQueue5).
Proof.
  split; [exact wf_wrappedQueue5|].
  destruct (popFront_removes_front 5 wrappedQueue5 wf_wrappedQueue5)
    as (_ & _ & Helements & _).
  exact Helements.
Defined.

Lemma popBack_removes_back_witness :
  wf 5 wrappedQueue5 /\
  elements 5 (popBack 5 wrappedQueue5) = [Some 1; Some 2; Some 3].
Proof.
  split; [exact wf_wrappedQueue5|].
  destruct (popBack_removes_back 5 wrappedQueue5 wf_wrappedQueue5)
    as (_ & _ & Helements & _).
  exact Helements.
Defined.

Lemma pushBack_appends_witness :
  wf 5 wrappedQueue5 /\
  size wrappedQueue5 < capacity 5 /\
  elements 5 (pushBack 5 Overwrite 9 wrappedQueue5) =
    [Some 1; Some 2; Some 3; Some 7; Some 9].
Proof.
  split; [exact wf_wrappedQueue5|].
  assert (Hroom : size wrappedQueue5 < capacity 5) by (vm_compute; lia).
  split; [exact Hroom|].
  destruct (pushBack_appends 5 Overwrite wrappedQueue5 9 wf_wrappedQueue5 Hroom)
    as (_ & Helements & _).
  exact Helements.
Defined.

Lemma pushFront_prepends_witness :
  wf 5 wrappedQueue5 /\
  size wrappedQueue5 < capacity 5 /\
  elements 5 (pushFront 5 IgnoreError 9 wrappedQueue5) =
    [Some 9; Some 1; Some 2; Some 3; Some 7].
Proof.
  split; [exact wf_wrappedQueue5|].
  assert (Hroom : size wrappedQueue5 < capacity 5) by (vm_compute; lia).
  split; [exact Hroom|].
  destruct (pushFront_prepends 5 IgnoreError wrappedQueue5 9 wf_wrappedQueue5 Hroom)
    as (_ & Helements & _).
  exact Helements.
Defined.

Lemma pushFront_Overwrite_full_witness :
  wf 3 fullQueue3 /\
  size fullQueue3 = capacity 3 /\
  elements 3 (pushFront 3 Overwrite 9 fullQueue3) = [Some 9; Some 2; Some 3].
Proof.
  split; [exact wf_fullQueue3|]. split; [reflexivity|].
  destruct (pushFront_Overwrite_full 3 fullQueue3 9 wf_fullQueue3 eq_refl)
    as (_ & _ & Helements & _).
  exact Helements.
Defined.

Lemma pushBack_sequence_witness :
  0 < 3 /\
  elements 3 (foldl (fun q v => pushBack 3 Overwrite v q) (emptyQueue 3)
                [1; 2; 3; 4; 5]) = [Some 3; Some 4; Some 5] /\
  elements 3 (foldl (fun q v => pushBack 3 IgnoreError v q) (emptyQueue 3)
                [1; 2; 3; 4; 5]) = [Some 1; Some 2; Some 3].
Proof.
  assert (Hpos : 0 < 3) by lia.
  split; [exact Hpos|].
  destruct (pushBack_sequence 3 [1; 2; 3; 4; 5] Hpos) as [Hover Hignore].
  split; [exact Hover | exact Hignore].
Defined.

Lemma pop_count_removes_witness :
  wf 5 wrappedQueue5 /\
  elements 5 (popFront_n 5 3 wrappedQueue5) = [Some 7] /\
  elements 5 (popBack_n 5 3 wrappedQueue5) = [Some 1].
Proof.
  split; [exact wf_wrappedQueue5|].
  destruct (pop_count_removes 5 3 wrappedQueue5 wf_wrappedQueue5)
    as ((_ & _ & Hfront) & (_ & _ & Hback)).
  split; [exact Hfront | exact Hback].
Defined.

Lemma indexOf_inverts_index_witness :
  wf 5 wrappedQueue5 /\
  (2 * Z.of_nat 5 <= size_t_modulus)%Z /\
  indexOf 5 wrappedQueue5 (Z.of_nat (cellIndex 5 wrappedQueue5 3)) = 3%Z /\
  indexOf 5 wrappedQueue5 1 = (-1)%Z.
Proof.
  split; [exact wf_wrappedQueue5|].
  assert (Hfits : (2 * Z.of_nat 5 <= size_t_modulus)%Z)
    by (unfold size_t_modulus; lia).
  split; [exact Hfits|].
  destruct (indexOf_inverts_index 5 wrappedQueue5 wf_wrappedQueue5 Hfits)
    as [Hindex Hother].
  split.
  - destruct (Hindex 3) as [_ Hsmall]; [vm_compute; lia|].
    apply Hsmall. unfold INT_MAX. lia.
  - apply Hother. intros i Hi Hcell.
    assert (Hi4 : i < 4) by exact Hi.
    do 4 (destruct i as [|i]; [vm_compute in Hcell; discriminate|]). lia.
Defined.

Lemma ranges_hold_elements_witness :
  wf 5 wrappedQueue5 /\
  range_cells wrappedQueue5 (arrayOne 5 wrappedQueue5) ++
  range_cells wrappedQueue5 (arrayTwo 5 wrappedQueue5) =
    [Some 1; Some 2; Some 3; Some 7].
Proof.
  split; [exact wf_wrappedQueue5|].
  destruct (ranges_hold_elements 5 wrappedQueue5 wf_wrappedQueue5) as [Hcells _].
  exact Hcells.
Defined.

Lemma assign_copies_elements_witness :
  wf 5 middleQueue5 /\ wf 5 wrappedQueue5 /\
  elements 5 (assign 5 middleQueue5 wrappedQueue5) =
    [Some 1; Some 2; Some 3; Some 7] /\
  isLinearised 5 (copy_ctor 5 wrappedQueue5) = true.
Proof.
  split; [exact wf_middleQueue5|]. split; [exact wf_wrappedQueue5|].
  destruct (assign_copies_elements 5 middleQueue5 wrappedQueue5
              wf_middleQueue5 wf_wrappedQueue5)
    as ((_ & _ & Helements) & (_ & _ & _ & Hlinear)).
  split; [exact Helements | exact Hlinear].
Defined.

Lemma linearise_keeps_elements_witness :
  wf 5 wrappedQueue5 /\
  isLinearised 5 wrappedQueue5 = false /\
  elements 5 (linearise 5 wrappedQueue5) = [Some 1; Some 2; Some 3; Some 7] /\
  isLinearised 5 (linearise 5 wrappedQueue5) = true.
Proof.
  split; [exact wf_wrappedQueue5|]. split; [reflexivity|].
  destruct (linearise_keeps_elements 5 wrappedQueue5 wf_wrappedQueue5)
    as (_ & Helements & Hlinear & _).
  split; [exact Helements | exact Hlinear].
Defined.

Lemma resize_sets_size_witness :
  wf 5 middleQueue5 /\
  elements 5 (resize 5 0 4 middleQueue5) = [Some 1; Some 2; Some 0; Some 0] /\
  elements 5 (resize 5 0 1 middleQueue5) = [Some 1] /\
  resize 5 0 6 middleQueue5 = middleQueue5.
Proof.
  split; [exact wf_middleQueue5|].
  destruct (resize_sets_size 5 0 4 middleQueue5 wf_middleQueue5) as [_ Hgrow].
  destruct (resize_sets_size 5 0 1 middleQueue5 wf_middleQueue5) as [_ Hshrink].
  destruct (resize_sets_size 5 0 6 middleQueue5 wf_middleQueue5) as [Hbig _].
  split; [|split].
  - destruct Hgrow as (_ & _ & Helements); [vm_compute; lia | exact Helements].
  - destruct Hshrink as (_ & _ & Helements); [vm_compute; lia | exact Helements].
  - apply Hbig. vm_compute. lia.
Defined.

Lemma erase_removes_element_witness :
  wf 5 wrappedQueue5 /\
  elements 5 (erase 5 (fun v => v) (cellIndex 5 wrappedQueue5 1) wrappedQueue5).1 =
    [Some 1; Some 3; Some 7] /\
  (erase 5 (fun v => v) (cellIndex 5 wrappedQueue5 2) wrappedQueue5).2 =
    invalidIter 5.
Proof.
  split; [exact wf_wrappedQueue5|].
  destruct (erase_removes_element 5 (fun v => v) wrappedQueue5 wf_wrappedQueue5)
    as [Hindex _].
  split.
  - destruct (Hindex 1) as (_ & _ & Helements & _); [vm_compute; lia|].
    exact Helements.
  - destruct (Hindex 2) as (_ & _ & _ & Hiter); [vm_compute; lia|].
    apply Hiter. vm_compute. lia.
Defined.


Lemma insert_keeps_invariant_witness :
  wf 3 fullQueue3 /\
  wf 3 (insert 3 (fun v => v) Overwrite 2 9 fullQueue3).1 /\
  insert 3 (fun v => v) IgnoreError 2 9 fullQueue3 = (fullQueue3, invalidIter 3).
Proof.
  split; [exact wf_fullQueue3|].
  destruct (insert_keeps_invariant 3 (fun v => v) Overwrite fullQueue3 9 2
              wf_fullQueue3) as (Hwf & _ & _ & Hfull).
  split; [exact Hwf|].
  destruct Hfull as (Hignore & _); [reflexivity | exact Hignore].
Defined.

Lemma subscript_wraps_around_witness :
  0 < 5 /\
  (Z.of_nat (startIdx_ wrappedQueue5 + 3) < size_t_modulus)%Z /\
  cellIndex 5 wrappedQueue5 3 = 0 /\
  at_index 5 wrappedQueue5 (3 + 5) = at_index 5 wrappedQueue5 3.
Proof.
  assert (Hpos : 0 < 5) by lia.
  assert (Hfits : (Z.of_nat (startIdx_ wrappedQueue5 + 3) < size_t_modulus)%Z)
    by (unfold size_t_modulus; simpl; lia).
  split; [exact Hpos|]. split; [exact Hfits|].
  destruct (subscript_wraps_around 5 wrappedQueue5 3 Hpos Hfits)
    as (Hcell & _ & Hsame).
  split; [exact Hcell|].
  apply Hsame. unfold size_t_modulus. simpl. lia.
Defined.

Lemma push_pop_round_trip_witness :
  wf 5 wrappedQueue5 /\
  size wrappedQueue5 < capacity 5 /\
  elements 5 (popBack 5 (pushBackNotFull 5 9 wrappedQueue5)) =
    elements 5 wrappedQueue5 /\
  elements 5 (popFront 5 (pushFrontNotFull 5 9 wrappedQueue5)) =
    elements 5 wrappedQueue5.
Proof.
  split; [exact wf_wrappedQueue5|].
  assert (Hroom : size wrappedQueue5 < capacity 5) by (vm_compute; lia).
  split; [exact Hroom|].
  destruct (push_pop_round_trip 5 wrappedQueue5 9 wf_wrappedQueue5 Hroom)
    as (Hback & Hfront & _).
  split; [exact Hback | exact Hfront].
Defined.

Lemma pop_last_element_head_witness :
  wf 5 middleQueue5 /\
  isEmpty (popBack 5 (pushFrontNotFull 5 9 (emptyQueue 5))) = true /\
  startIdx_ (popBack 5 (pushFrontNotFull 5 9 (emptyQueue 5))) = 4.
Proof.
  split; [exact wf_middleQueue5|].
  destruct (pop_last_element_head 5 middleQueue5 9 wf_middleQueue5)
    as (_ & Hempty & Hhead).
  split; [exact Hempty | exact Hhead].
Defined.

Lemma InPlaceMsgAllocator_release_alloc (a a1 : InPlaceMsgAllocator) :
  alloc a = Some a1 -> release a1 = a.
Proof.
  destruct a as [[|]]; simpl; intros Halloc; [discriminate | reflexivity].
Defined.

Lemma read_allocation_balance_witness :
  (forall a a1 : InPlaceMsgAllocator, alloc a = Some a1 -> release a1 = a) /\
  (read TestTraits TestStack None (InputBuf [0; 1; 2]%Z) 3).1.1.1 = NotEnoughData /\
  allocator_ (read TestTraits TestStack None (InputBuf [0; 1; 2]%Z) 3).2 =
    allocator_ TestStack.
Proof.
  split; [exact InPlaceMsgAllocator_release_alloc|].
  split; [reflexivity|].
  destruct (read_allocation_balance TestTraits TestStack (InputBuf [0; 1; 2]%Z) 3
              InPlaceMsgAllocator_release_alloc) as [Hfail _].
  destruct Hfail as [_ Halloc]; [|exact Halloc].
  intros Hstatus. vm_compute in Hstatus. discriminate.
Defined.

Lemma lookup_stops_at_first_with_id_witness :
  registry_of SharedIdMessages !! 1 = Some (MsgFactory (EmptyMessageClass 1%Z)) /\
  lower_bound (registry_of SharedIdMessages)
    (factory_getId (MsgFactory (EmptyMessageClass 1%Z))) <= 1.
Proof.
  assert (Hg : registry_of SharedIdMessages !! 1 =
               Some (MsgFactory (EmptyMessageClass 1%Z))) by reflexivity.
  split; [exact Hg|].
  destruct (lookup_stops_at_first_with_id SharedIdMessages 1
              (MsgFactory (EmptyMessageClass 1%Z)) Hg) as [Hfirst _].
  exact Hfirst.
Defined.
